(** * Huffman coder of [huffman_optimized.py]: shallow embedding and properties

    The development follows the Python module top to bottom:
    - Python values: [str] as a list of code points, [dict] as an
      insertion-ordered association list, exceptions as an error sum;
    - [heapq] (the CPython algorithms [_siftdown], [_siftup], [heapify],
      [heappop], [heappush]) over a list used as an array;
    - [HuffmanNode], [HuffmanCoder] and its methods;
    - [struct.pack]/[struct.unpack], [save_compressed], [load_compressed];
    - the properties proved about them. *)

From Stdlib Require Import ZArith List Lia Bool Sorted.
From Stdlib Require Strings.Byte.
From stdpp Require Import list.
Import ListNotations.

Local Open Scope Z_scope.

(** ** Python values *)

(** A one-character [str] is identified with its code point: [ord] and [chr]
    are then the identity on the range [0 .. 0x10FFFF]. *)
Definition char := Z.

(** A Python [str]. *)
Definition pystr := list char.

(** The two characters written in code words: ['0'] and ['1']. *)
Definition c0 : char := 48.
Definition c1 : char := 49.

(** Exceptions that the module can raise. *)
Inductive exn : Type :=
| ValueError
| KeyError
| IndexError
| AttributeError
| StructError.

Inductive result (A : Type) : Type :=
| Ok (a : A)
| Raise (e : exn).
Arguments Ok {A} a.
Arguments Raise {A} e.

Definition bind {A B} (r : result A) (k : A -> result B) : result B :=
  match r with
  | Ok a => k a
  | Raise e => Raise e
  end.

Notation "x <- r ;; k" := (bind r (fun x => k))
  (at level 100, r at next level, right associativity).

(** *** Dictionaries

    A [dict] keeps its keys in insertion order, and that order is observable
    here: it is the order of the leaves handed to [heapify] and the order of
    the entries in the container.  Assigning to a key that is present keeps
    the key at its position. *)
Definition dict (V : Type) := list (char * V).

Fixpoint dict_get {V} (d : dict V) (k : char) : option V :=
  match d with
  | [] => None
  | (k', v) :: d' => if Z.eqb k' k then Some v else dict_get d' k
  end.

Fixpoint dict_set {V} (d : dict V) (k : char) (v : V) : dict V :=
  match d with
  | [] => [(k, v)]
  | (k', v') :: d' =>
      if Z.eqb k' k then (k', v) :: d' else (k', v') :: dict_set d' k v
  end.

(** The keys of a dictionary are pairwise distinct. *)
Definition dict_wf {V} (d : dict V) : Prop := List.NoDup (map fst d).

(** ** [heapq]

    The heap is a Python list used as an array.  Reads are [heap !! i]; all
    reads done by these functions are in range, the [None] branches stand for
    the [IndexError] that CPython would raise. *)
Section Heapq.
Context {A : Type}.
(** The comparison [x < y], as [__lt__] defines it. *)
Variable lt : A -> A -> bool.

(** The [while pos > startpos] loop of [_siftdown]; [pos] decreases at each
    turn, so [pos] turns are enough. *)
Fixpoint siftdown_loop (fuel : nat) (heap : list A) (startpos pos : nat)
    (newitem : A) : list A :=
  match fuel with
  | O => <[pos := newitem]> heap
  | S fuel' =>
      if (startpos <? pos)%nat then
        let parentpos := ((pos - 1) / 2)%nat in
        match heap !! parentpos with
        | Some parent =>
            if lt newitem parent then
              siftdown_loop fuel' (<[pos := parent]> heap) startpos parentpos
                newitem
            else <[pos := newitem]> heap
        | None => heap
        end
      else <[pos := newitem]> heap
  end.

Definition _siftdown (heap : list A) (startpos pos : nat) : list A :=
  match heap !! pos with
  | Some newitem => siftdown_loop pos heap startpos pos newitem
  | None => heap
  end.

(** The [while childpos < endpos] loop of [_siftup]: returns the list and
    the position of the leaf reached.  [pos] increases at each turn and
    stays below [endpos], so [endpos] turns are enough. *)
Fixpoint siftup_loop (fuel : nat) (heap : list A) (endpos pos : nat)
    : list A * nat :=
  match fuel with
  | O => (heap, pos)
  | S fuel' =>
      let childpos := (2 * pos + 1)%nat in
      if (childpos <? endpos)%nat then
        let rightpos := (childpos + 1)%nat in
        let childpos :=
          if (rightpos <? endpos)%nat then
            match heap !! childpos, heap !! rightpos with
            | Some l, Some r => if negb (lt l r) then rightpos else childpos
            | _, _ => childpos
            end
          else childpos in
        match heap !! childpos with
        | Some c => siftup_loop fuel' (<[pos := c]> heap) endpos childpos
        | None => (heap, pos)
        end
      else (heap, pos)
  end.

Definition _siftup (heap : list A) (pos : nat) : list A :=
  let endpos := length heap in
  let startpos := pos in
  match heap !! pos with
  | Some newitem =>
      let '(heap, pos) := siftup_loop endpos heap endpos pos in
      let heap := <[pos := newitem]> heap in
      _siftdown heap startpos pos
  | None => heap
  end.

Definition heappush (heap : list A) (item : A) : list A :=
  let heap := heap ++ [item] in
  _siftdown heap 0 (length heap - 1).

(** [heap.pop()]: the list without its last element, and that element. *)
Definition list_pop (l : list A) : option (list A * A) :=
  match last l with
  | Some x => Some (removelast l, x)
  | None => None
  end.

(** [heappop] returns the item and the new heap; popping from an empty list
    raises [IndexError]. *)
Definition heappop (heap : list A) : result (A * list A) :=
  match list_pop heap with
  | None => Raise IndexError
  | Some (heap, lastelt) =>
      match heap with
      | returnitem :: _ =>
          let heap := <[0%nat := lastelt]> heap in
          Ok (returnitem, _siftup heap 0)
      | [] => Ok (lastelt, heap)
      end
  end.

(** [for i in reversed(range(n//2)): _siftup(x, i)], as a recursion on the
    number of indices still to visit: [heapify_loop k] visits [k-1 .. 0]. *)
Fixpoint heapify_loop (k : nat) (x : list A) : list A :=
  match k with
  | O => x
  | S i => heapify_loop i (_siftup x i)
  end.

Definition heapify (x : list A) : list A :=
  let n := length x in
  heapify_loop (n / 2)%nat x.
End Heapq.

(** ** [HuffmanNode] *)

(** [char] is [None] on the nodes that [_build_huffman_tree] creates by
    merging, [left] and [right] are [None] on the leaves. *)
#[local] Unset Elimination Schemes.
Inductive HuffmanNode : Type :=
| mkNode (char_ : option char) (freq_ : Z) (left_ right_ : option HuffmanNode).
#[local] Set Elimination Schemes.

Definition node_char (n : HuffmanNode) : option char :=
  match n with mkNode c _ _ _ => c end.
Definition node_freq (n : HuffmanNode) : Z :=
  match n with mkNode _ f _ _ => f end.
Definition node_left (n : HuffmanNode) : option HuffmanNode :=
  match n with mkNode _ _ l _ => l end.
Definition node_right (n : HuffmanNode) : option HuffmanNode :=
  match n with mkNode _ _ _ r => r end.

(** [HuffmanNode()] with all defaults. *)
Definition empty_node : HuffmanNode := mkNode None 0 None None.

(** [__lt__]. *)
Definition node_lt (self other : HuffmanNode) : bool :=
  node_freq self <? node_freq other.

(** ** [HuffmanCoder] *)

Record HuffmanCoder : Type := mkCoder {
  _codebook : dict pystr;
  _tree : option HuffmanNode
}.

(** [HuffmanCoder()]. *)
Definition new_coder : HuffmanCoder := mkCoder [] None.

Definition _build_frequency_table (data : pystr) : dict Z :=
  fold_left
    (fun frequency ch =>
       match dict_get frequency ch with
       | Some n => dict_set frequency ch (n + 1)
       | None => dict_set frequency ch (0 + 1)
       end)
    data [].

(** The [while len(nodes) > 1] loop; the list loses one node at each turn, so
    [len(nodes)] turns are enough. *)
Fixpoint merge_loop (fuel : nat) (nodes : list HuffmanNode)
    : list HuffmanNode :=
  match fuel with
  | O => nodes
  | S fuel' =>
      if (1 <? length nodes)%nat then
        match heappop node_lt nodes with
        | Ok (l, nodes1) =>
            match heappop node_lt nodes1 with
            | Ok (r, nodes2) =>
                let merged :=
                  mkNode None (node_freq l + node_freq r) (Some l) (Some r) in
                merge_loop fuel' (heappush node_lt nodes2 merged)
            | Raise _ => nodes1
            end
        | Raise _ => nodes
        end
      else nodes
  end.

Definition _build_huffman_tree (frequency : dict Z) : HuffmanNode :=
  let nodes :=
    map (fun '(ch, freq) => mkNode (Some ch) freq None None) frequency in
  let nodes := heapify node_lt nodes in
  let nodes := merge_loop (length nodes) nodes in
  match nodes with
  | n :: _ => n
  | [] => empty_node
  end.

(** Number of nodes of a tree, and of the trees waiting on a stack. *)
Fixpoint node_size (n : HuffmanNode) : nat :=
  match n with
  | mkNode _ _ l r =>
      S ((match l with Some l' => node_size l' | None => 0 end)
         + (match r with Some r' => node_size r' | None => 0 end))
  end.

Definition stack_size (stack : list (HuffmanNode * pystr)) : nat :=
  fold_right (fun e acc => (node_size (fst e) + acc)%nat) 0%nat stack.

(** The [while stack] loop of [_build_codebook].  The top of the stack is the
    end of the Python list, here the head.  Each turn removes one node from
    the trees on the stack, so [stack_size stack] turns are enough. *)
Fixpoint codebook_loop (fuel : nat) (stack : list (HuffmanNode * pystr))
    (codebook : dict pystr) : dict pystr :=
  match fuel with
  | O => codebook
  | S fuel' =>
      match stack with
      | [] => codebook
      | (node, code) :: stack =>
          match node_char node with
          | Some ch => codebook_loop fuel' stack (dict_set codebook ch code)
          | None =>
              let stack :=
                match node_right node with
                | Some r => (r, code ++ [c1]) :: stack
                | None => stack
                end in
              let stack :=
                match node_left node with
                | Some l => (l, code ++ [c0]) :: stack
                | None => stack
                end in
              codebook_loop fuel' stack codebook
          end
      end
  end.

(** A [HuffmanNode] defines neither [__bool__] nor [__len__]: [not self._tree]
    holds only when [_tree] is [None]. *)
Definition _build_codebook (self : HuffmanCoder) : HuffmanCoder :=
  match _tree self with
  | None => self
  | Some tree =>
      let stack := [(tree, [])] in
      mkCoder (codebook_loop (stack_size stack) stack (_codebook self))
        (_tree self)
  end.

(** [''.join(self._codebook[char] for char in data)]. *)
Fixpoint join_codes (codebook : dict pystr) (data : pystr) : result pystr :=
  match data with
  | [] => Ok []
  | ch :: data' =>
      match dict_get codebook ch with
      | None => Raise KeyError
      | Some code =>
          rest <- join_codes codebook data' ;;
          Ok (code ++ rest)
      end
  end.

(** [encode] returns its result (or the exception) and the coder as the call
    leaves it. *)
Definition encode (self : HuffmanCoder) (data : pystr)
    : result (pystr * dict Z) * HuffmanCoder :=
  match data with
  | [] => (Ok ([], []), self)
  | _ :: _ =>
      let frequency := _build_frequency_table data in
      let self := mkCoder (_codebook self)
                    (Some (_build_huffman_tree frequency)) in
      let self := mkCoder [] (_tree self) in
      let self := _build_codebook self in
      (bits <- join_codes (_codebook self) data ;; Ok (bits, frequency), self)
  end.

(** The [for bit in encoded_data] loop of [decode]: [current_node] and
    [decoded_data] are the loop state.  Reading [.char] of a missing child
    raises [AttributeError]. *)
Fixpoint decode_loop (tree : HuffmanNode) (encoded_data : pystr)
    (current_node : HuffmanNode) (decoded_data : pystr) : result pystr :=
  match encoded_data with
  | [] => Ok decoded_data
  | bit :: encoded_data' =>
      let next :=
        if Z.eqb bit c0 then node_left current_node
        else node_right current_node in
      match next with
      | None => Raise AttributeError
      | Some current_node =>
          match node_char current_node with
          | Some ch =>
              decode_loop tree encoded_data' tree (decoded_data ++ [ch])
          | None =>
              decode_loop tree encoded_data' current_node decoded_data
          end
      end
  end.

Definition decode (self : HuffmanCoder) (encoded_data : pystr)
    : result pystr :=
  match encoded_data, _tree self with
  | [], _ => Ok []
  | _, None => Ok []
  | _, Some tree => decode_loop tree encoded_data tree []
  end.

(** ** Bytes, [struct] and the container *)

Abbreviation byte := Init.Byte.byte.

(** The value of a byte, in [0 .. 255]. *)
Definition byte_val (b : byte) : Z := Z.of_N (Strings.Byte.to_N b).

(** The byte of value [v mod 256]. *)
Definition byte_of_val (v : Z) : byte :=
  match Strings.Byte.of_N (Z.to_N (v mod 256)) with
  | Some b => b
  | None => Init.Byte.x00
  end.

(** [struct.pack('B', v)], [struct.pack('>H', v)] and [struct.pack('>I', v)]
    raise [struct.error] when [v] is out of the range of the field. *)
Definition pack_B (v : Z) : result (list byte) :=
  if (0 <=? v) && (v <=? 255) then Ok [byte_of_val v]
  else Raise StructError.

Definition pack_H (v : Z) : result (list byte) :=
  if (0 <=? v) && (v <=? 65535) then
    Ok [byte_of_val (v / 256); byte_of_val v]
  else Raise StructError.

Definition pack_I (v : Z) : result (list byte) :=
  if (0 <=? v) && (v <=? 4294967295) then
    Ok [byte_of_val (v / 16777216); byte_of_val (v / 65536);
        byte_of_val (v / 256); byte_of_val v]
  else Raise StructError.

(** [struct.unpack(fmt, buf)[0]] raises [struct.error] when the buffer has not
    the size of the field. *)
Definition unpack_B (buf : list byte) : result Z :=
  match buf with
  | [b0] => Ok (byte_val b0)
  | _ => Raise StructError
  end.

Definition unpack_H (buf : list byte) : result Z :=
  match buf with
  | [b1; b0] => Ok (byte_val b1 * 256 + byte_val b0)
  | _ => Raise StructError
  end.

Definition unpack_I (buf : list byte) : result Z :=
  match buf with
  | [b3; b2; b1; b0] =>
      Ok (((byte_val b3 * 256 + byte_val b2) * 256 + byte_val b1) * 256
          + byte_val b0)
  | _ => Raise StructError
  end.

Definition ord (ch : char) : Z := ch.

Definition chr (v : Z) : result char :=
  if (0 <=? v) && (v <=? 1114111) then Ok v else Raise ValueError.

(** [int(s, 2)] on a string of ['0'] and ['1'].  On other strings the model
    raises [ValueError]; CPython does so too, except for the signs, blanks,
    underscores and [0b] prefix that [int] accepts and that no code word
    contains. *)
Fixpoint int2_digits (acc : Z) (s : pystr) : result Z :=
  match s with
  | [] => Ok acc
  | ch :: s' =>
      if Z.eqb ch c0 then int2_digits (2 * acc) s'
      else if Z.eqb ch c1 then int2_digits (2 * acc + 1) s'
      else Raise ValueError
  end.

Definition int2 (s : pystr) : result Z :=
  match s with
  | [] => Raise ValueError
  | _ :: _ => int2_digits 0 s
  end.

(** [[s[i:i+8] for i in range(0, len(s), 8)]]. *)
Fixpoint chunks8 (s : pystr) : list pystr :=
  match s with
  | [] => []
  | b7 :: b6 :: b5 :: b4 :: b3 :: b2 :: b1 :: b0 :: s' =>
      [b7; b6; b5; b4; b3; b2; b1; b0] :: chunks8 s'
  | _ => [s]
  end.

(** [bytes(iterable)] raises [ValueError] on an integer outside
    [range(256)]. *)
Definition bytes_item (v : Z) : result byte :=
  if (0 <=? v) && (v <=? 255) then Ok (byte_of_val v) else Raise ValueError.

Fixpoint bytes_of_chunks (chunks : list pystr) : result (list byte) :=
  match chunks with
  | [] => Ok []
  | s :: chunks' =>
      v <- int2 s ;;
      b <- bytes_item v ;;
      bs <- bytes_of_chunks chunks' ;;
      Ok (b :: bs)
  end.

(** The first line of [save_compressed]. *)
Definition padding_of (encoded_data : pystr) : Z :=
  let len := Z.of_nat (length encoded_data) in
  if negb (len mod 8 =? 0) then 8 - len mod 8 else 0.

Definition padded_data_of (encoded_data : pystr) : pystr :=
  encoded_data ++ repeat c0 (Z.to_nat (padding_of encoded_data)).

(** The [for char, freq in frequency.items()] loop of [save_compressed]. *)
Fixpoint pack_entries (items : dict Z) : result (list byte) :=
  match items with
  | [] => Ok []
  | (ch, freq) :: items' =>
      s <- pack_H (ord ch) ;;
      f <- pack_I freq ;;
      rest <- pack_entries items' ;;
      Ok (s ++ f ++ rest)
  end.

(** [save_compressed] returns the content written to [output_file]. *)
Definition save_compressed (encoded_data : pystr) (frequency : dict Z)
    : result (list byte) :=
  let padding := padding_of encoded_data in
  let padded_data := padded_data_of encoded_data in
  bytes_data <- bytes_of_chunks (chunks8 padded_data) ;;
  count <- pack_I (Z.of_nat (length frequency)) ;;
  pad <- pack_B padding ;;
  entries <- pack_entries frequency ;;
  Ok (count ++ pad ++ entries ++ bytes_data).

(** [file.read(n)]: the bytes read (fewer than [n] at the end of the file) and
    the rest of the file. *)
Definition file_read (n : nat) (file : list byte) : list byte * list byte :=
  (firstn n file, skipn n file).

(** The [for _ in range(num_symbols)] loop of [load_compressed]. *)
Fixpoint load_entries (num_symbols : nat) (file : list byte)
    (frequency : dict Z) : result (dict Z * list byte) :=
  match num_symbols with
  | O => Ok (frequency, file)
  | S n =>
      let '(buf, file) := file_read 2 file in
      v <- unpack_H buf ;;
      ch <- chr v ;;
      let '(buf, file) := file_read 4 file in
      freq <- unpack_I buf ;;
      load_entries n file (dict_set frequency ch freq)
  end.

(** [format(byte, '08b')]. *)
Definition format_08b (b : byte) : pystr :=
  map (fun i => if Z.testbit (byte_val b) i then c1 else c0)
    [7; 6; 5; 4; 3; 2; 1; 0].

(** [''.join(format(byte, '08b') for byte in bytes_data)]. *)
Definition bit_string_of (bytes_data : list byte) : pystr :=
  concat (map format_08b bytes_data).

(** [bit_string[:-padding]] when [padding > 0]. *)
Definition strip_padding (padding : Z) (bit_string : pystr) : pystr :=
  if 0 <? padding then
    firstn (length bit_string - Z.to_nat padding) bit_string
  else bit_string.

(** [load_compressed] takes the content of [input_file]. *)
Definition load_compressed (file : list byte) : result (pystr * dict Z) :=
  let '(buf, file) := file_read 4 file in
  num_symbols <- unpack_I buf ;;
  let '(buf, file) := file_read 1 file in
  padding <- unpack_B buf ;;
  r <- load_entries (Z.to_nat num_symbols) file [] ;;
  let '(frequency, bytes_data) := r in
  let bit_string := bit_string_of bytes_data in
  Ok (strip_padding padding bit_string, frequency).

(** ** Vocabulary of the properties *)

(** A bit string: a [str] of ['0'] and ['1']. *)
Definition is_bits (s : pystr) : Prop :=
  Forall (fun ch => ch = c0 \/ ch = c1) s.

(** The entries of a frequency table fit the fields of the container:
    symbols in 16 bits, frequencies in 32 bits. *)
Definition fits_container (frequency : dict Z) : Prop :=
  Forall (fun e => 0 <= ord (fst e) <= 65535 /\ 0 <= snd e <= 4294967295)
    frequency.

(** The dictionary obtained by assigning the items in order. *)
Definition dict_of_items {V} (items : list (char * V)) (d : dict V) : dict V :=
  fold_left (fun d e => dict_set d (fst e) (snd e)) items d.

(** [p] is a prefix of [s]. *)
Definition is_prefix (p s : pystr) : Prop := exists t, s = p ++ t.

(** The assignments [self._codebook[char] = code] that the traversal of
    [_build_codebook] does below a node reached with [code], in the order in
    which it does them: the left subtree is popped first. *)
Fixpoint leaf_codes (n : HuffmanNode) (code : pystr) : list (char * pystr) :=
  match n with
  | mkNode (Some ch) _ _ _ => [(ch, code)]
  | mkNode None _ l r =>
      (match l with
       | Some l' => leaf_codes l' (code ++ [c0])
       | None => []
       end)
      ++ (match r with
          | Some r' => leaf_codes r' (code ++ [c1])
          | None => []
          end)
  end.

Definition stack_codes (stack : list (HuffmanNode * pystr))
    : list (char * pystr) :=
  concat (map (fun e => leaf_codes (fst e) (snd e)) stack).

(** The leaves below a node, from left to right, with their frequencies.  As
    in [_build_codebook] and [decode], a leaf is a node that carries a
    character. *)
Fixpoint leaves (n : HuffmanNode) : list (char * Z) :=
  match n with
  | mkNode (Some ch) fr _ _ => [(ch, fr)]
  | mkNode None _ l r =>
      (match l with Some l' => leaves l' | None => [] end)
      ++ (match r with Some r' => leaves r' | None => [] end)
  end.

Definition forest_leaves (nodes : list HuffmanNode) : list (char * Z) :=
  concat (map leaves nodes).

(** The sum of the frequencies of a list of entries. *)
Definition sum_freq (entries : list (char * Z)) : Z :=
  fold_right Z.add 0 (map snd entries).


(** [P] holds of a node and of all the nodes below it. *)
Fixpoint every_node (P : HuffmanNode -> Prop) (n : HuffmanNode) : Prop :=
  match n with
  | mkNode ch fr l r =>
      P (mkNode ch fr l r)
      /\ (match l with Some l' => every_node P l' | None => True end)
      /\ (match r with Some r' => every_node P r' | None => True end)
  end.

(** The leaf that [_build_huffman_tree] creates for an entry. *)
Definition leaf_node (e : char * Z) : HuffmanNode :=
  mkNode (Some (fst e)) (snd e) None None.

(** The node that [_build_huffman_tree] creates from two nodes. *)
Definition merged_node (l r : HuffmanNode) : HuffmanNode :=
  mkNode None (node_freq l + node_freq r) (Some l) (Some r).

(** *** Heap order

    [heapq] keeps the list so that no item is smaller than its parent: the
    children of the cell [i] are the cells [2*i+1] and [2*i+2].  The items
    are compared through a key ([freq] for the nodes). *)
Definition is_child (i j : nat) : Prop :=
  j = (2 * i + 1)%nat \/ j = (2 * i + 2)%nat.

(** The cell [pos] is below the cell [start] in the implicit tree. *)
Inductive descends (start : nat) : nat -> Prop :=
| descends_here : descends start start
| descends_child i j : descends start i -> is_child i j -> descends start j.

Section HeapOrder.
Context {A : Type}.
Variable key : A -> Z.

(** Every cell from [start] on is at most its children. *)
Definition ordered_from (start : nat) (heap : list A) : Prop :=
  forall i j x y,
    (start <= i)%nat -> is_child i j ->
    heap !! i = Some x -> heap !! j = Some y -> key x <= key y.

Definition heap_ordered (heap : list A) : Prop := ordered_from 0 heap.

(** The state of the loop of [_siftup]: the cells from [start] on are at most
    their children, save the cell [start] itself as long as the hole has not
    left it. *)
Definition siftup_inv (start : nat) (heap : list A) (pos : nat) : Prop :=
  forall i j x y,
    (start <= i)%nat -> (i = start -> pos <> start) -> is_child i j ->
    heap !! i = Some x -> heap !! j = Some y -> key x <= key y.

(** The state of the loop of [_siftdown], with a hole at [pos] waiting for
    [newitem]: the order holds between the cells other than the hole,
    [newitem] is at most the children of the hole, and the parent of the hole
    is at most the children of the hole. *)
Definition siftdown_inv (start : nat) (heap : list A) (pos : nat)
    (newitem : A) : Prop :=
  (forall i j x y,
      (start <= i)%nat -> is_child i j -> i <> pos -> j <> pos ->
      heap !! i = Some x -> heap !! j = Some y -> key x <= key y)
  /\ (forall j y,
         is_child pos j -> heap !! j = Some y -> key newitem <= key y)
  /\ (forall p j x y,
         (start <= p)%nat -> is_child p pos -> is_child pos j ->
         heap !! p = Some x -> heap !! j = Some y -> key x <= key y).
End HeapOrder.

(** *** Cost of a tree

    The cost of a node is the sum, over the leaves below it, of the frequency
    of the leaf times its depth below the node: the number of bits that the
    leaves below the node take in the encoded stream, counted from the
    node. *)
Fixpoint cost (n : HuffmanNode) : Z :=
  match n with
  | mkNode (Some _) _ _ _ => 0
  | mkNode None _ l r =>
      (match l with
       | Some l' => cost l' + sum_freq (leaves l')
       | None => 0
       end)
      + (match r with
         | Some r' => cost r' + sum_freq (leaves r')
         | None => 0
         end)
  end.

Definition total_cost (nodes : list HuffmanNode) : Z :=
  fold_right (fun n acc => cost n + acc) 0 nodes.

(** The sum of [g] over the entries of a table, each symbol counted with its
    frequency, and the sum of [g] over the characters of a text. *)
Definition weighted (g : char -> Z) (entries : list (char * Z)) : Z :=
  fold_right (fun e acc => snd e * g (fst e) + acc) 0 entries.

Definition sum_over (g : char -> Z) (data : pystr) : Z :=
  fold_right (fun ch acc => g ch + acc) 0 data.

(** The length of the code word of a symbol, 0 without a code word. *)
Definition code_len (codebook : dict pystr) (ch : char) : Z :=
  match dict_get codebook ch with
  | Some w => Z.of_nat (length w)
  | None => 0
  end.

(** The turn of the loop of [_build_frequency_table]. *)
Definition count_char (frequency : dict Z) (ch : char) : dict Z :=
  match dict_get frequency ch with
  | Some n => dict_set frequency ch (n + 1)
  | None => dict_set frequency ch (0 + 1)
  end.

(** *** Weights against code lengths

    Weights in ascending order are matched with code lengths in descending
    order; [kraft D ls] is the Kraft sum of the lengths [ls], scaled by
    [2^D]. *)
Fixpoint insert_asc (w : Z) (ws : list Z) : list Z :=
  match ws with
  | [] => [w]
  | a :: ws' => if w <=? a then w :: ws else a :: insert_asc w ws'
  end.

Definition sort_asc (ws : list Z) : list Z := fold_right insert_asc [] ws.

Fixpoint insert_desc (l : nat) (ls : list nat) : list nat :=
  match ls with
  | [] => [l]
  | b :: ls' => if (b <=? l)%nat then l :: ls else b :: insert_desc l ls'
  end.

Fixpoint dot (ws : list Z) (ls : list nat) : Z :=
  match ws, ls with
  | w :: ws', l :: ls' => w * Z.of_nat l + dot ws' ls'
  | _, _ => 0
  end.

Definition kraft (D : nat) (ls : list nat) : Z :=
  fold_right (fun l acc => 2 ^ Z.of_nat (D - l) + acc) 0 ls.

Definition sum_list (ws : list Z) : Z := fold_right Z.add 0 ws.

(** A node with a weight that is not negative and is the sum of the
    frequencies of its leaves. *)
Definition node_ok (n : HuffmanNode) : Prop :=
  0 <= node_freq n /\ node_freq n = sum_freq (leaves n).

(** ** The two commands of the program *)

(** [compress_file], from the text that [read_file] returns to the content
    that [save_compressed] writes to [output_file].  The three [print] calls
    that follow report sizes and do not change the file. *)
Definition compress_file (data : pystr) : result (list byte) :=
  let coder := new_coder in
  let '(r, coder) := encode coder data in
  p <- r ;;
  let '(encoded_data, frequency) := p in
  save_compressed encoded_data frequency.

(** [decompress_file], from the content of [input_file] to the text handed to
    [write_file]: [Ok text] says that [write_file] is called with [text], not
    that the output file is written.  [write_file] then encodes the text as
    UTF-8, and the codec raises [UnicodeEncodeError] on a surrogate code
    point (U+D800 to U+DFFF), which [chr] in [load_compressed] can produce;
    that last step is not part of this definition. *)
Definition decompress_file (file : list byte) : result pystr :=
  p <- load_compressed file ;;
  let '(encoded_data, frequency) := p in
  let coder := new_coder in
  let coder := mkCoder (_codebook coder)
                 (Some (_build_huffman_tree frequency)) in
  decode coder encoded_data.

(** ** More vocabulary *)

(** The two kinds of nodes that [_build_huffman_tree] creates: a leaf has a
    symbol and no child, a merged node has no symbol and two children. *)
Definition shape_ok (n : HuffmanNode) : Prop :=
  match node_char n, node_left n, node_right n with
  | Some _, None, None => True
  | None, Some _, Some _ => True
  | _, _, _ => False
  end.

(** The number of edges on the longest path from a node down to a leaf. *)
Fixpoint height (n : HuffmanNode) : nat :=
  match n with
  | mkNode _ _ l r =>
      Nat.max (match l with Some l' => S (height l') | None => 0%nat end)
              (match r with Some r' => S (height r') | None => 0%nat end)
  end.

(** The number of occurrences of [ch] in a text, as an [int]. *)
Definition occurrences (data : pystr) (ch : char) : Z :=
  Z.of_nat (count_occ Z.eq_dec data ch).

(** The characters of a text, each once. *)
Definition distinct (data : pystr) : list char := nodup Z.eq_dec data.

(** Every character of a text fits the 16-bit field of the container. *)
Definition bmp_text (data : pystr) : Prop :=
  Forall (fun ch => 0 <= ord ch <= 65535) data.

(** The cost of encoding a table with code words of the lengths [len]. *)
Definition cost_with (len : char -> nat) (frequency : dict Z) : Z :=
  weighted (fun ch => Z.of_nat (len ch)) frequency.

(** The big-endian value of the first four bytes of a file. *)
Definition header_count (file : list byte) : option Z :=
  match file with
  | b3 :: b2 :: b1 :: b0 :: _ =>
      Some (((byte_val b3 * 256 + byte_val b2) * 256 + byte_val b1) * 256
            + byte_val b0)
  | _ => None
  end.

(** Code lengths sorted, longest first. *)
Definition sort_desc (ls : list nat) : list nat := fold_right insert_desc [] ls.

(** The depths of the leaves below a node that is at depth [d], in the order
    of [leaves]: the lengths of the code words that [_build_codebook] writes
    below the node. *)
Fixpoint depths (n : HuffmanNode) (d : nat) : list nat :=
  match n with
  | mkNode (Some _) _ _ _ => [d]
  | mkNode None _ l r =>
      (match l with Some l' => depths l' (S d) | None => [] end)
      ++ (match r with Some r' => depths r' (S d) | None => [] end)
  end.

(** ** The container *)

Lemma byte_val_of_val v : byte_val (byte_of_val v) = v mod 256.
Proof.
  unfold byte_val, byte_of_val.
  assert (Hr : 0 <= v mod 256 < 256) by (apply Z.mod_pos_bound; lia).
  destruct (Strings.Byte.of_N (Z.to_N (v mod 256))) as [b|] eqn:E.
  - apply Strings.Byte.to_of_N in E. rewrite E. apply Z2N.id. lia.
  - apply Strings.Byte.of_N_None_iff in E. lia.
Qed.

Lemma byte_val_range b : 0 <= byte_val b <= 255.
Proof.
  unfold byte_val. pose proof (Strings.Byte.to_N_bounded b). lia.
Qed.

Lemma unpack_pack_B v :
  0 <= v <= 255 ->
  exists b, pack_B v = Ok [b] /\ unpack_B [b] = Ok v.
Proof.
  intros Hv. unfold pack_B.
  replace ((0 <=? v) && (v <=? 255)) with true
    by (symmetry; apply andb_true_iff; split; apply Z.leb_le; lia).
  eexists; split; [reflexivity|].
  simpl. rewrite byte_val_of_val. f_equal. apply Z.mod_small. lia.
Qed.

Lemma unpack_pack_H v :
  0 <= v <= 65535 ->
  exists b1 b0, pack_H v = Ok [b1; b0] /\ unpack_H [b1; b0] = Ok v.
Proof.
  intros Hv. unfold pack_H.
  replace ((0 <=? v) && (v <=? 65535)) with true
    by (symmetry; apply andb_true_iff; split; apply Z.leb_le; lia).
  do 2 eexists; split; [reflexivity|].
  simpl. rewrite !byte_val_of_val. f_equal.
  Z.div_mod_to_equations. lia.
Qed.

Lemma unpack_pack_I v :
  0 <= v <= 4294967295 ->
  exists b3 b2 b1 b0,
    pack_I v = Ok [b3; b2; b1; b0] /\ unpack_I [b3; b2; b1; b0] = Ok v.
Proof.
  intros Hv. unfold pack_I.
  replace ((0 <=? v) && (v <=? 4294967295)) with true
    by (symmetry; apply andb_true_iff; split; apply Z.leb_le; lia).
  do 4 eexists; split; [reflexivity|].
  simpl. rewrite !byte_val_of_val. f_equal.
  Z.div_mod_to_equations. lia.
Qed.

Lemma is_bits_cons ch s : is_bits (ch :: s) <-> (ch = c0 \/ ch = c1) /\ is_bits s.
Proof. unfold is_bits. apply Forall_cons_iff. Qed.

Lemma is_bits_app s t : is_bits (s ++ t) <-> is_bits s /\ is_bits t.
Proof. unfold is_bits. apply Forall_app. Qed.

Lemma is_bits_repeat n : is_bits (repeat c0 n).
Proof.
  induction n; simpl; [constructor|]. apply is_bits_cons. auto.
Qed.

(** One byte: eight bits go to a byte whose [format] gives them back. *)
Lemma chunk_roundtrip b7 b6 b5 b4 b3 b2 b1 b0 :
  is_bits [b7; b6; b5; b4; b3; b2; b1; b0] ->
  exists b,
    (v <- int2 [b7; b6; b5; b4; b3; b2; b1; b0] ;; bytes_item v) = Ok b
    /\ format_08b b = [b7; b6; b5; b4; b3; b2; b1; b0].
Proof.
  intros H.
  repeat (apply is_bits_cons in H; destruct H as [? H]).
  repeat match goal with
         | H : _ \/ _ |- _ => destruct H; subst
         end;
    eexists; split; vm_compute; reflexivity.
Qed.

Lemma bytes_of_chunks_cons chunk chunks b bs :
  (v <- int2 chunk ;; bytes_item v) = Ok b ->
  bytes_of_chunks chunks = Ok bs ->
  bytes_of_chunks (chunk :: chunks) = Ok (b :: bs).
Proof.
  intros Hb Hbs. simpl. destruct (int2 chunk) as [v|e]; simpl in *; [|discriminate].
  rewrite Hb. simpl. rewrite Hbs. reflexivity.
Qed.

(** Packing a bit string whose length is a multiple of 8, and unpacking. *)
Lemma bit_string_of_bytes_of_chunks n : forall s,
  length s = (8 * n)%nat -> is_bits s ->
  exists bs,
    bytes_of_chunks (chunks8 s) = Ok bs /\ bit_string_of bs = s
    /\ length bs = n.
Proof.
  induction n as [|n IH]; intros s Hlen Hbits.
  - destruct s; [|discriminate]. exists []. auto.
  - destruct s as [|b7 s]; [simpl in Hlen; lia|].
    destruct s as [|b6 s]; [simpl in Hlen; lia|].
    destruct s as [|b5 s]; [simpl in Hlen; lia|].
    destruct s as [|b4 s]; [simpl in Hlen; lia|].
    destruct s as [|b3 s]; [simpl in Hlen; lia|].
    destruct s as [|b2 s]; [simpl in Hlen; lia|].
    destruct s as [|b1 s]; [simpl in Hlen; lia|].
    destruct s as [|b0 s]; [simpl in Hlen; lia|].
    assert (Hlen' : length s = (8 * n)%nat) by (simpl in Hlen; lia).
    change (is_bits ([b7; b6; b5; b4; b3; b2; b1; b0] ++ s)) in Hbits.
    apply is_bits_app in Hbits. destruct Hbits as [Hc Hs].
    destruct (IH s Hlen' Hs) as (bs & Hbs & Hstr & Hn).
    destruct (chunk_roundtrip _ _ _ _ _ _ _ _ Hc) as (b & Hb & Hf).
    exists (b :: bs). split; [|split].
    + change (chunks8 (b7 :: b6 :: b5 :: b4 :: b3 :: b2 :: b1 :: b0 :: s))
        with ([b7; b6; b5; b4; b3; b2; b1; b0] :: chunks8 s).
      apply bytes_of_chunks_cons; assumption.
    + change (bit_string_of (b :: bs))
        with (format_08b b ++ bit_string_of bs).
      rewrite Hf, Hstr. reflexivity.
    + simpl. congruence.
Qed.

Lemma padding_of_spec encoded_data :
  let len := Z.of_nat (length encoded_data) in
  padding_of encoded_data = (if len mod 8 =? 0 then 0 else 8 - len mod 8)
  /\ 0 <= padding_of encoded_data <= 7
  /\ (len + padding_of encoded_data) mod 8 = 0.
Proof.
  intros len. unfold padding_of. fold len.
  pose proof (Z.mod_pos_bound len 8 ltac:(lia)) as Hr.
  destruct (len mod 8 =? 0) eqn:E; simpl.
  - apply Z.eqb_eq in E. split; [reflexivity|]. split; [lia|].
    rewrite Z.add_0_r. exact E.
  - apply Z.eqb_neq in E. split; [reflexivity|]. split; [lia|].
    Z.div_mod_to_equations. lia.
Qed.

Lemma padded_data_length encoded_data :
  exists n, length (padded_data_of encoded_data) = (8 * n)%nat.
Proof.
  destruct (padding_of_spec encoded_data) as (_ & Hr & Hm). cbv zeta in Hm.
  unfold padded_data_of. rewrite length_app, repeat_length.
  set (p := padding_of encoded_data) in *.
  exists (Z.to_nat ((Z.of_nat (length encoded_data) + p) / 8)).
  apply Nat2Z.inj. rewrite Nat2Z.inj_add, Nat2Z.inj_mul, !Z2Nat.id by
    (try apply Z.div_pos; lia).
  Z.div_mod_to_equations. lia.
Qed.

Lemma strip_padding_padded encoded_data :
  strip_padding (padding_of encoded_data) (padded_data_of encoded_data)
  = encoded_data.
Proof.
  unfold strip_padding, padded_data_of.
  destruct (padding_of_spec encoded_data) as (_ & Hr & _).
  destruct (0 <? padding_of encoded_data) eqn:E.
  - rewrite length_app, repeat_length.
    replace (length encoded_data + Z.to_nat (padding_of encoded_data)
             - Z.to_nat (padding_of encoded_data))%nat
      with (length encoded_data + 0)%nat by lia.
    rewrite firstn_app_2. simpl. apply app_nil_r.
  - apply Z.ltb_ge in E.
    replace (padding_of encoded_data) with 0 by lia. simpl. apply app_nil_r.
Qed.

Lemma pack_H_inv v l : pack_H v = Ok l -> 0 <= v <= 65535.
Proof.
  unfold pack_H.
  destruct ((0 <=? v) && (v <=? 65535)) eqn:E; [|discriminate].
  intros _. apply andb_true_iff in E. destruct E as [E1 E2].
  apply Z.leb_le in E1, E2. lia.
Qed.

Lemma pack_I_inv v l : pack_I v = Ok l -> 0 <= v <= 4294967295.
Proof.
  unfold pack_I.
  destruct ((0 <=? v) && (v <=? 4294967295)) eqn:E; [|discriminate].
  intros _. apply andb_true_iff in E. destruct E as [E1 E2].
  apply Z.leb_le in E1, E2. lia.
Qed.

Lemma chr_small v : 0 <= v <= 65535 -> chr v = Ok v.
Proof.
  intros Hv. unfold chr.
  replace ((0 <=? v) && (v <=? 1114111)) with true
    by (symmetry; apply andb_true_iff; split; apply Z.leb_le; lia).
  reflexivity.
Qed.

Lemma pack_entries_inv items entries :
  pack_entries items = Ok entries -> fits_container items.
Proof.
  revert entries. induction items as [|[ch fr] items IH]; intros entries H.
  - constructor.
  - simpl in H.
    destruct (pack_H (ord ch)) as [s|] eqn:Es; [|discriminate].
    destruct (pack_I fr) as [f|] eqn:Ef; [|discriminate].
    destruct (pack_entries items) as [rest|] eqn:Er; [|discriminate].
    constructor.
    + simpl. split; [eapply pack_H_inv|eapply pack_I_inv]; eassumption.
    + eapply IH. reflexivity.
Qed.

(** The entries written by [save_compressed] are read back by the loop of
    [load_compressed], which assigns them in order. *)
Lemma load_entries_pack_entries items :
  fits_container items ->
  exists entries,
    pack_entries items = Ok entries
    /\ length entries = (6 * length items)%nat
    /\ forall rest acc,
         load_entries (length items) (entries ++ rest) acc
         = Ok (dict_of_items items acc, rest).
Proof.
  induction items as [|[ch fr] items IH]; intros Hfit.
  - exists []. repeat split.
  - apply Forall_cons_iff in Hfit. destruct Hfit as [[Hc Hf] Hfit].
    simpl in Hc, Hf.
    destruct (IH Hfit) as (entries & He & Hlen & Hload).
    destruct (unpack_pack_H _ Hc) as (s1 & s0 & Hs & Hus).
    destruct (unpack_pack_I _ Hf) as (f3 & f2 & f1 & f0 & Hp & Hup).
    exists ([s1; s0] ++ [f3; f2; f1; f0] ++ entries).
    split; [|split].
    + simpl. rewrite Hs, Hp. simpl. rewrite He. reflexivity.
    + simpl. lia.
    + intros rest acc.
      change (length ((ch, fr) :: items)) with (S (length items)).
      cbn [load_entries file_read app firstn skipn].
      rewrite Hus. cbn [bind]. unfold ord in *. rewrite (chr_small _ Hc).
      cbn [bind]. rewrite firstn_O, skipn_O, Hup. cbn [bind].
      rewrite Hload. reflexivity.
Qed.

Lemma dict_set_fresh {V} (d : dict V) k v :
  ~ In k (map fst d) -> dict_set d k v = d ++ [(k, v)].
Proof.
  induction d as [|[k' v'] d IH]; intros Hk; simpl in *.
  - reflexivity.
  - destruct (Z.eqb_spec k' k) as [->|Hne].
    + exfalso. apply Hk. now left.
    + rewrite IH; [reflexivity|]. intros Hin. apply Hk. now right.
Qed.

Lemma dict_of_items_fresh {V} (items : list (char * V)) : forall acc,
  List.NoDup (map fst (acc ++ items)) -> dict_of_items items acc = acc ++ items.
Proof.
  induction items as [|[k v] items IH]; intros acc Hnd.
  - symmetry. apply app_nil_r.
  - unfold dict_of_items in *. simpl.
    replace (acc ++ (k, v) :: items) with ((acc ++ [(k, v)]) ++ items) in *
      by (rewrite <- app_assoc; reflexivity).
    rewrite dict_set_fresh.
    + apply IH. exact Hnd.
    + rewrite !map_app in Hnd. apply NoDup_app_remove_r in Hnd.
      simpl in Hnd. apply NoDup_remove_2 in Hnd.
      rewrite app_nil_r in Hnd. exact Hnd.
Qed.

Lemma dict_of_items_wf (frequency : dict Z) :
  dict_wf frequency -> dict_of_items frequency [] = frequency.
Proof. intros H. apply (dict_of_items_fresh frequency []). exact H. Qed.

(** A dictionary whose keys fit in 16 bits has at most 65536 entries. *)
Lemma fits_container_length frequency :
  dict_wf frequency -> fits_container frequency ->
  Z.of_nat (length frequency) <= 65536.
Proof.
  intros Hwf Hfit.
  assert (H : (length (map fst frequency)
               <= length (map Z.of_nat (seq 0 (Z.to_nat 65536))))%nat).
  { apply NoDup_incl_length; [exact Hwf|].
    intros k Hk. apply in_map_iff in Hk. destruct Hk as ([k' v] & <- & Hin).
    unfold fits_container in Hfit. rewrite List.Forall_forall in Hfit.
    apply Hfit in Hin. simpl in Hin. unfold ord in Hin. simpl fst.
    apply in_map_iff. exists (Z.to_nat k'). split; [lia|].
    apply in_seq. lia. }
  rewrite !length_map, length_seq in H. lia.
Qed.

(** What [save_compressed] writes for a bit string and a table that fits. *)
Lemma save_compressed_ok encoded_data frequency :
  is_bits encoded_data -> fits_container frequency ->
  Z.of_nat (length frequency) <= 4294967295 ->
  exists count pad entries bytes_data,
    save_compressed encoded_data frequency
    = Ok (count ++ [pad] ++ entries ++ bytes_data)
    /\ length count = 4%nat
    /\ unpack_I count = Ok (Z.of_nat (length frequency))
    /\ pad = byte_of_val (padding_of encoded_data)
    /\ pack_entries frequency = Ok entries
    /\ length entries = (6 * length frequency)%nat
    /\ bit_string_of bytes_data = padded_data_of encoded_data.
Proof.
  intros Hbits Hfit Hlen.
  destruct (padded_data_length encoded_data) as (n & Hn).
  assert (Hpb : is_bits (padded_data_of encoded_data)).
  { unfold padded_data_of. apply is_bits_app. split; [exact Hbits|].
    apply is_bits_repeat. }
  destruct (bit_string_of_bytes_of_chunks n _ Hn Hpb) as (bs & Hbs & Hstr & _).
  destruct (unpack_pack_I (Z.of_nat (length frequency)) ltac:(lia))
    as (n3 & n2 & n1 & n0 & Hcount & Hucount).
  destruct (padding_of_spec encoded_data) as (_ & Hr & _).
  assert (Hr' : 0 <= padding_of encoded_data <= 255) by lia.
  destruct (unpack_pack_B _ Hr') as (pb & Hpad & Hupad).
  destruct (load_entries_pack_entries _ Hfit) as (entries & He & Hel & _).
  exists [n3; n2; n1; n0], pb, entries, bs.
  split; [|repeat split; try assumption].
  - unfold save_compressed. rewrite Hbs. cbn [bind]. rewrite Hcount.
    cbn [bind]. rewrite Hpad. cbn [bind]. rewrite He. reflexivity.
  - unfold pack_B in Hpad.
    destruct ((0 <=? padding_of encoded_data)
              && (padding_of encoded_data <=? 255)); congruence.
Qed.

(** [save_compressed] can only succeed on a bit string: the padded string has
    as many bits as the payload has, and they are the same. *)
Lemma int2_digits_is_bits s : forall acc v,
  int2_digits acc s = Ok v -> is_bits s.
Proof.
  induction s as [|ch s IH]; intros acc v H.
  - constructor.
  - simpl in H. apply is_bits_cons.
    destruct (Z.eqb_spec ch c0) as [->|H0].
    + split; [now left|]. eapply IH; eassumption.
    + destruct (Z.eqb_spec ch c1) as [->|H1]; [|discriminate].
      split; [now right|]. eapply IH; eassumption.
Qed.

Lemma chunks8_concat s : concat (chunks8 s) = s.
Proof.
  assert (H : forall n s, (length s <= n)%nat -> concat (chunks8 s) = s).
  { clear s. induction n as [|n IH]; intros s Hn.
    - destruct s; [reflexivity|simpl in Hn; lia].
    - destruct s as [|b7 [|b6 [|b5 [|b4 [|b3 [|b2 [|b1 [|b0 s]]]]]]]];
        try reflexivity.
      change (concat (chunks8 (b7 :: b6 :: b5 :: b4 :: b3 :: b2 :: b1 :: b0 :: s)))
        with ([b7; b6; b5; b4; b3; b2; b1; b0] ++ concat (chunks8 s)).
      rewrite IH; [reflexivity|]. simpl in Hn. lia. }
  apply (H (length s)). lia.
Qed.

Lemma bytes_of_chunks_is_bits chunks bs :
  bytes_of_chunks chunks = Ok bs -> is_bits (concat chunks).
Proof.
  revert bs. induction chunks as [|s chunks IH]; intros bs H.
  - constructor.
  - simpl in H. destruct (int2 s) as [v|] eqn:Ev; [|discriminate].
    cbn [bind] in H. destruct (bytes_item v) as [b|]; [|discriminate].
    cbn [bind] in H. destruct (bytes_of_chunks chunks) as [bs'|] eqn:Eb;
      [|discriminate].
    simpl. apply is_bits_app. split; [|eapply IH; reflexivity].
    unfold int2 in Ev. destruct s; [discriminate|].
    eapply int2_digits_is_bits; eassumption.
Qed.

Lemma save_compressed_is_bits encoded_data frequency file :
  save_compressed encoded_data frequency = Ok file -> is_bits encoded_data.
Proof.
  unfold save_compressed. intros H.
  destruct (bytes_of_chunks (chunks8 (padded_data_of encoded_data)))
    as [bs|] eqn:E; [|discriminate].
  apply bytes_of_chunks_is_bits in E. rewrite chunks8_concat in E.
  unfold padded_data_of in E. apply is_bits_app in E. tauto.
Qed.

Lemma save_compressed_fits encoded_data frequency file :
  save_compressed encoded_data frequency = Ok file ->
  fits_container frequency /\ Z.of_nat (length frequency) <= 4294967295.
Proof.
  unfold save_compressed. intros H.
  destruct (bytes_of_chunks _) as [bs|]; [|discriminate]. cbn [bind] in H.
  destruct (pack_I _) as [c|] eqn:Ec; [|discriminate]. cbn [bind] in H.
  destruct (pack_B _) as [p|]; [|discriminate]. cbn [bind] in H.
  destruct (pack_entries frequency) as [e|] eqn:Ee; [|discriminate].
  split; [eapply pack_entries_inv; eassumption|].
  apply pack_I_inv in Ec. lia.
Qed.

(** What [load_compressed] returns on a file laid out as [save_compressed]
    writes it. *)
Lemma load_compressed_layout count pad entries bytes_data n p items :
  length count = 4%nat ->
  unpack_I count = Ok (Z.of_nat n) ->
  unpack_B [pad] = Ok p ->
  (forall rest acc,
     load_entries n (entries ++ rest) acc = Ok (dict_of_items items acc, rest)) ->
  load_compressed (count ++ [pad] ++ entries ++ bytes_data)
  = Ok (strip_padding p (bit_string_of bytes_data), dict_of_items items []).
Proof.
  intros Hlen Hcount Hpad Hload. unfold load_compressed, file_read.
  rewrite firstn_app, skipn_app, Hlen, Nat.sub_diag.
  rewrite firstn_all2, skipn_all2 by lia.
  cbn [firstn skipn app]. rewrite app_nil_r, Hcount. cbn [bind].
  rewrite firstn_O, skipn_O, Hpad. cbn [bind].
  rewrite Nat2Z.id, Hload. reflexivity.
Qed.

Lemma pack_entries_raise items e :
  pack_entries items = Raise e -> e = StructError.
Proof.
  induction items as [|[ch fr] items IH]; simpl; [discriminate|].
  unfold pack_H, pack_I.
  destruct ((0 <=? ord ch) && (ord ch <=? 65535)); cbn [bind];
    [|congruence].
  destruct ((0 <=? fr) && (fr <=? 4294967295)); cbn [bind]; [|congruence].
  destruct (pack_entries items); cbn [bind]; [discriminate|].
  intros H. apply IH. congruence.
Qed.

(** C4. Container round trip: for every bit string and every frequency table
    whose symbols fit in 16 bits and whose frequencies fit in 32 bits,
    [save_compressed] succeeds and [load_compressed] returns, from the bytes
    written, the same bit string (padding stripped) and the same table. *)
Theorem load_save_roundtrip encoded_data frequency :
  is_bits encoded_data -> dict_wf frequency -> fits_container frequency ->
  exists file,
    save_compressed encoded_data frequency = Ok file
    /\ load_compressed file = Ok (encoded_data, frequency).
Proof.
  intros Hbits Hwf Hfit.
  pose proof (fits_container_length _ Hwf Hfit) as Hlen.
  destruct (save_compressed_ok encoded_data frequency Hbits Hfit ltac:(lia))
    as (count & pad & entries & bs & Hsave & Hcl & Hcount & Hpad & He & _
        & Hstr).
  destruct (load_entries_pack_entries _ Hfit) as (entries' & He' & _ & Hload).
  assert (entries' = entries) by congruence. subst entries'.
  eexists. split; [exact Hsave|].
  destruct (padding_of_spec encoded_data) as (_ & Hr & _).
  rewrite (load_compressed_layout count pad entries bs (length frequency)
             (padding_of encoded_data) frequency Hcl Hcount); [|..|exact Hload].
  - rewrite Hstr, strip_padding_padded, dict_of_items_wf by exact Hwf.
    reflexivity.
  - subst pad. simpl. rewrite byte_val_of_val. f_equal.
    apply Z.mod_small. lia.
Qed.

Lemma load_save_roundtrip_witness :
  exists file,
    save_compressed [c0; c1; c1; c1; c1; c1; c0; c0; c1; c0] [(97, 5); (98, 2)]
    = Ok file
    /\ load_compressed file
       = Ok ([c0; c1; c1; c1; c1; c1; c0; c0; c1; c0], [(97, 5); (98, 2)]).
Proof.
  apply load_save_roundtrip.
  - unfold is_bits. repeat (apply List.Forall_cons; [auto|]).
    apply List.Forall_nil.
  - unfold dict_wf. simpl.
    repeat (apply List.NoDup_cons; [simpl; intuition discriminate|]).
    apply List.NoDup_nil.
  - unfold fits_container, ord.
    repeat (apply List.Forall_cons; [simpl; lia|]). apply List.Forall_nil.
Defined.

(** C5. In a file written by [save_compressed] for a string of ['0'] and
    ['1'] the padding count (the byte at
    offset 4) is 0 when the number of bits is a multiple of 8 and
    [8 - len mod 8] otherwise, hence in [0 .. 7]; the payload holds the bits
    followed by exactly that many ['0'] bits; and [load_compressed] returns
    the payload's bits without exactly that many trailing bits, which are the
    bits that were saved. *)
Theorem padding_written_and_stripped encoded_data frequency file :
  is_bits encoded_data ->
  save_compressed encoded_data frequency = Ok file ->
  let len := Z.of_nat (length encoded_data) in
  let padding := if len mod 8 =? 0 then 0 else 8 - len mod 8 in
  0 <= padding <= 7
  /\ (exists pad, nth_error file 4 = Some pad /\ byte_val pad = padding)
  /\ exists header payload frequency',
       file = header ++ payload
       /\ length header = (5 + 6 * length frequency)%nat
       /\ bit_string_of payload = encoded_data ++ repeat c0 (Z.to_nat padding)
       /\ load_compressed file
          = Ok (firstn (length (bit_string_of payload) - Z.to_nat padding)
                  (bit_string_of payload), frequency')
       /\ firstn (length (bit_string_of payload) - Z.to_nat padding)
            (bit_string_of payload) = encoded_data.
Proof.
  intros Hbits Hsave len padding.
  destruct (save_compressed_fits _ _ _ Hsave) as [Hfit Hlen].
  destruct (save_compressed_ok encoded_data frequency Hbits Hfit Hlen)
    as (count & pad & entries & bs & Hsave' & Hcl & Hcount & Hpad & He & Hel
        & Hstr).
  destruct (load_entries_pack_entries _ Hfit) as (entries' & He' & _ & Hload).
  assert (entries' = entries) by congruence. subst entries'.
  destruct (padding_of_spec encoded_data) as (Hp & Hr & _).
  fold len in Hp. change (padding_of encoded_data = padding) in Hp.
  assert (Hpv : byte_val pad = padding).
  { subst pad. rewrite byte_val_of_val, Hp. apply Z.mod_small. lia. }
  assert (file = count ++ [pad] ++ entries ++ bs) by congruence. subst file.
  split; [lia|]. split.
  - exists pad. split; [|exact Hpv].
    rewrite nth_error_app2 by lia. rewrite Hcl. reflexivity.
  - exists (count ++ [pad] ++ entries), bs, (dict_of_items frequency []).
    assert (Hstrip : strip_padding padding (bit_string_of bs)
                     = firstn (length (bit_string_of bs) - Z.to_nat padding)
                         (bit_string_of bs)).
    { unfold strip_padding. destruct (0 <? padding) eqn:E; [reflexivity|].
      apply Z.ltb_ge in E. replace padding with 0 by lia.
      simpl. rewrite Nat.sub_0_r, firstn_all. reflexivity. }
    split; [|split; [|split; [|split]]].
    + rewrite <- !app_assoc. reflexivity.
    + rewrite !length_app. simpl. lia.
    + rewrite Hstr. unfold padded_data_of. rewrite Hp. reflexivity.
    + rewrite <- Hstrip.
      apply (load_compressed_layout count pad entries bs (length frequency)
               padding frequency Hcl Hcount); [|exact Hload].
      simpl. congruence.
    + rewrite <- Hstrip, Hstr, <- Hp. apply strip_padding_padded.
Qed.

Lemma padding_written_and_stripped_witness :
  let file := [Init.Byte.x00; Init.Byte.x00; Init.Byte.x00; Init.Byte.x01;
               Init.Byte.x05; Init.Byte.x00; Init.Byte.x61;
               Init.Byte.x00; Init.Byte.x00; Init.Byte.x00; Init.Byte.x03;
               Init.Byte.xa0] in
  save_compressed [c1; c0; c1] [(97, 3)] = Ok file
  /\ (exists pad, nth_error file 4 = Some pad /\ byte_val pad = 5).
Proof.
  assert (H : save_compressed [c1; c0; c1] [(97, 3)]
              = Ok [Init.Byte.x00; Init.Byte.x00; Init.Byte.x00; Init.Byte.x01;
                    Init.Byte.x05; Init.Byte.x00; Init.Byte.x61;
                    Init.Byte.x00; Init.Byte.x00; Init.Byte.x00; Init.Byte.x03;
                    Init.Byte.xa0]) by reflexivity.
  assert (Hbits : is_bits [c1; c0; c1]).
  { unfold is_bits. repeat (apply List.Forall_cons; [auto|]).
    apply List.Forall_nil. }
  split; [exact H|].
  exact (proj1 (proj2 (padding_written_and_stripped _ _ _ Hbits H))).
Defined.

(** C7. A symbol whose code point is above 0xFFFF makes [save_compressed]
    raise instead of returning a file: it never returns content in which the
    symbol is truncated or wrapped, and on a bit string the exception is
    [struct.error]. *)
Theorem save_rejects_wide_symbol encoded_data frequency ch fr :
  In (ch, fr) frequency -> 65535 < ord ch ->
  (exists e, save_compressed encoded_data frequency = Raise e)
  /\ (is_bits encoded_data ->
      save_compressed encoded_data frequency = Raise StructError).
Proof.
  intros Hin Hwide.
  assert (Hno : forall file, save_compressed encoded_data frequency <> Ok file).
  { intros file Hsave. apply save_compressed_fits in Hsave.
    destruct Hsave as [Hfit _]. unfold fits_container in Hfit.
    rewrite List.Forall_forall in Hfit. apply Hfit in Hin. simpl in Hin. lia. }
  split.
  - destruct (save_compressed encoded_data frequency) as [file|e] eqn:E.
    + exfalso. eapply Hno. reflexivity.
    + exists e. reflexivity.
  - intros Hbits.
    destruct (padded_data_length encoded_data) as (n & Hn).
    assert (Hpb : is_bits (padded_data_of encoded_data)).
    { unfold padded_data_of. apply is_bits_app. split; [exact Hbits|].
      apply is_bits_repeat. }
    destruct (bit_string_of_bytes_of_chunks n _ Hn Hpb) as (bs & Hbs & _).
    destruct (save_compressed encoded_data frequency) as [file|e] eqn:E.
    + exfalso. eapply Hno. reflexivity.
    + f_equal. unfold save_compressed in E. rewrite Hbs in E.
      cbn [bind] in E. unfold pack_I at 1, pack_B in E.
      destruct ((0 <=? Z.of_nat (length frequency))
                && (Z.of_nat (length frequency) <=? 4294967295));
        cbn [bind] in E; [|congruence].
      destruct ((0 <=? padding_of encoded_data)
                && (padding_of encoded_data <=? 255));
        cbn [bind] in E; [|congruence].
      destruct (pack_entries frequency) as [en|e'] eqn:Ee;
        cbn [bind] in E; [discriminate|].
      apply pack_entries_raise in Ee. congruence.
Qed.

Lemma save_rejects_wide_symbol_witness :
  (exists e, save_compressed [c1; c0] [(97, 5); (70000, 2)] = Raise e)
  /\ (is_bits [c1; c0] ->
      save_compressed [c1; c0] [(97, 5); (70000, 2)] = Raise StructError).
Proof.
  apply (save_rejects_wide_symbol [c1; c0] [(97, 5); (70000, 2)] 70000 2).
  - simpl. right. left. reflexivity.
  - unfold ord. lia.
Defined.

(** ** The coder *)

(** Induction on the nodes of a tree. *)
Lemma HuffmanNode_ind (P : HuffmanNode -> Prop) :
  (forall ch fr l r,
      (forall l', l = Some l' -> P l') ->
      (forall r', r = Some r' -> P r') ->
      P (mkNode ch fr l r)) ->
  forall n, P n.
Proof.
  intros Hstep.
  assert (H : forall k n, (node_size n <= k)%nat -> P n).
  { induction k as [|k IH]; intros [ch fr l r] Hk; simpl in Hk; [lia|].
    apply Hstep.
    - intros l' ->. apply IH. lia.
    - intros r' ->. apply IH. lia. }
  intros n. apply (H (node_size n)). lia.
Qed.

Lemma dict_of_items_app {V} (xs ys : list (char * V)) d :
  dict_of_items (xs ++ ys) d = dict_of_items ys (dict_of_items xs d).
Proof. unfold dict_of_items. apply fold_left_app. Qed.

Lemma stack_size_cons n code stack :
  stack_size ((n, code) :: stack) = (node_size n + stack_size stack)%nat.
Proof. reflexivity. Qed.

Lemma node_size_unfold ch fr l r :
  node_size (mkNode ch fr l r)
  = S ((match l with Some l' => node_size l' | None => 0 end)
       + (match r with Some r' => node_size r' | None => 0 end)).
Proof. reflexivity. Qed.

(** With fuel for every node on the stack, the loop of [_build_codebook] does
    the assignments of [stack_codes], in that order. *)
Lemma codebook_loop_spec fuel : forall stack codebook,
  (stack_size stack <= fuel)%nat ->
  codebook_loop fuel stack codebook
  = dict_of_items (stack_codes stack) codebook.
Proof.
  induction fuel as [|fuel IH]; intros stack codebook Hfuel.
  - destruct stack as [|[[ch fr l r] code] stack]; [reflexivity|].
    rewrite stack_size_cons, node_size_unfold in Hfuel. lia.
  - destruct stack as [|[[ch fr l r] code] stack]; [reflexivity|].
    rewrite stack_size_cons, node_size_unfold in Hfuel.
    cbn [codebook_loop node_char node_left node_right].
    destruct ch as [ch|].
    + rewrite IH by lia. reflexivity.
    + unfold stack_codes. cbn [map concat fst snd leaf_codes].
      rewrite <- app_assoc.
      destruct l as [l|], r as [r|]; rewrite IH; try reflexivity;
        rewrite ?stack_size_cons; lia.
Qed.

Lemma build_codebook_spec codebook tree :
  _build_codebook (mkCoder codebook (Some tree))
  = mkCoder (dict_of_items (leaf_codes tree []) codebook) (Some tree).
Proof.
  unfold _build_codebook. cbn [_tree _codebook]. f_equal.
  rewrite codebook_loop_spec by lia.
  unfold stack_codes. simpl. rewrite app_nil_r. reflexivity.
Qed.

Lemma dict_get_set {V} (d : dict V) k v k' :
  dict_get (dict_set d k v) k'
  = if Z.eqb k k' then Some v else dict_get d k'.
Proof.
  induction d as [|[k0 v0] d IH]; simpl.
  - reflexivity.
  - destruct (Z.eqb_spec k0 k) as [->|Hne]; simpl.
    + destruct (Z.eqb k k'); reflexivity.
    + rewrite IH. destruct (Z.eqb_spec k0 k') as [->|Hne'];
        [|reflexivity].
      destruct (Z.eqb_spec k k'); [congruence|reflexivity].
Qed.

Lemma dict_get_of_items {V} (items : list (char * V)) : forall d k v,
  dict_get (dict_of_items items d) k = Some v ->
  In (k, v) items \/ dict_get d k = Some v.
Proof.
  induction items as [|[k0 v0] items IH]; intros d k v H.
  - right. exact H.
  - change (dict_of_items ((k0, v0) :: items) d)
      with (dict_of_items items (dict_set d k0 v0)) in H.
    apply IH in H. destruct H as [H|H]; [left; now right|].
    rewrite dict_get_set in H.
    destruct (Z.eqb_spec k0 k) as [->|Hne]; [|right; exact H].
    left. left. congruence.
Qed.

(** Every code word written below a node extends the code of the node. *)
Lemma leaf_codes_extend n : forall code k w,
  In (k, w) (leaf_codes n code) -> is_prefix code w.
Proof.
  induction n as [ch fr l r IHl IHr] using HuffmanNode_ind.
  intros code k w Hin. destruct ch as [ch|]; simpl in Hin.
  - destruct Hin as [Hin|[]]. inversion Hin; subst. exists [].
    symmetry. apply app_nil_r.
  - apply in_app_or in Hin. destruct Hin as [Hin|Hin].
    + destruct l as [l|]; [|destruct Hin].
      destruct (IHl l eq_refl _ _ _ Hin) as [t Ht].
      exists ([c0] ++ t). rewrite Ht, <- app_assoc. reflexivity.
    + destruct r as [r|]; [|destruct Hin].
      destruct (IHr r eq_refl _ _ _ Hin) as [t Ht].
      exists ([c1] ++ t). rewrite Ht, <- app_assoc. reflexivity.
Qed.

Lemma left_right_not_prefix code s t :
  ~ is_prefix (code ++ [c0] ++ s) (code ++ [c1] ++ t)
  /\ ~ is_prefix (code ++ [c1] ++ t) (code ++ [c0] ++ s).
Proof.
  split; intros [u Hu]; rewrite <- !app_assoc in Hu;
    apply app_inv_head in Hu; discriminate.
Qed.

(** The code words written for two different symbols are not prefixes of each
    other, whatever the shape of the tree. *)
Lemma leaf_codes_prefix_free n : forall code k1 w1 k2 w2,
  In (k1, w1) (leaf_codes n code) -> In (k2, w2) (leaf_codes n code) ->
  k1 <> k2 -> ~ is_prefix w1 w2.
Proof.
  induction n as [ch fr l r IHl IHr] using HuffmanNode_ind.
  intros code k1 w1 k2 w2 H1 H2 Hne. destruct ch as [ch|]; simpl in H1, H2.
  - destruct H1 as [H1|[]], H2 as [H2|[]]. congruence.
  - apply in_app_or in H1, H2.
    destruct H1 as [H1|H1], H2 as [H2|H2].
    + destruct l as [l|]; [|destruct H1]. eapply IHl; eauto.
    + destruct l as [l|]; [|destruct H1]. destruct r as [r|]; [|destruct H2].
      apply leaf_codes_extend in H1, H2.
      destruct H1 as [s ->], H2 as [t ->]. rewrite <- !app_assoc.
      apply left_right_not_prefix.
    + destruct r as [r|]; [|destruct H1]. destruct l as [l|]; [|destruct H2].
      apply leaf_codes_extend in H1, H2.
      destruct H1 as [s ->], H2 as [t ->]. rewrite <- !app_assoc.
      apply left_right_not_prefix.
    + destruct r as [r|]; [|destruct H1]. eapply IHr; eauto.
Qed.

(** The coder that [encode] leaves on a non-empty text. *)
Lemma encode_coder self ch data :
  snd (encode self (ch :: data))
  = let tree := _build_huffman_tree (_build_frequency_table (ch :: data)) in
    mkCoder (dict_of_items (leaf_codes tree []) []) (Some tree).
Proof.
  unfold encode. cbn [snd _tree _codebook]. apply build_codebook_spec.
Qed.

(** C3. Prefix-free code: in the codebook that [encode] generates for a
    non-empty text, the code words of two distinct symbols are not prefixes
    of each other. *)
Theorem codebook_prefix_free self data :
  data <> [] ->
  forall s1 s2 w1 w2,
    s1 <> s2 ->
    dict_get (_codebook (snd (encode self data))) s1 = Some w1 ->
    dict_get (_codebook (snd (encode self data))) s2 = Some w2 ->
    ~ is_prefix w1 w2 /\ ~ is_prefix w2 w1.
Proof.
  intros Hdata s1 s2 w1 w2 Hne H1 H2.
  destruct data as [|ch data]; [congruence|].
  rewrite encode_coder in H1, H2. cbn [_codebook] in H1, H2.
  apply dict_get_of_items in H1, H2.
  destruct H1 as [H1|H1]; [|discriminate].
  destruct H2 as [H2|H2]; [|discriminate].
  split; eapply leaf_codes_prefix_free; eauto.
Qed.

Lemma codebook_prefix_free_witness :
  ~ is_prefix [c0] [c1; c1; c1] /\ ~ is_prefix [c1; c1; c1] [c0].
Proof.
  apply (codebook_prefix_free new_coder
           [97; 98; 114; 97; 99; 97; 100; 97; 98; 114; 97]
           ltac:(discriminate) 97 98 [c0] [c1; c1; c1] ltac:(lia));
    reflexivity.
Defined.

(** ** [encode] and [decode] as the callers see them *)

(** C10. [decode] returns the empty string, without raising, on a coder whose
    tree was never set and on an empty bit string. *)
Theorem decode_without_tree_or_data self encoded_data :
  _tree self = None \/ encoded_data = [] ->
  decode self encoded_data = Ok [].
Proof.
  intros [Htree | ->]; unfold decode.
  - rewrite Htree. destruct encoded_data; reflexivity.
  - reflexivity.
Qed.

Lemma decode_without_tree_or_data_witness :
  decode new_coder [c0; c1; c1] = Ok []
  /\ decode (mkCoder [] (Some (mkNode (Some 122) 4 None None))) [] = Ok [].
Proof.
  split.
  - apply decode_without_tree_or_data. left. reflexivity.
  - apply decode_without_tree_or_data. right. reflexivity.
Defined.

(** C6. Determinism: the bit stream and the frequency table that [encode]
    returns depend on the text only, not on the coder it is called on; in
    particular a second call on the same coder returns what the first
    returned. *)
Theorem encode_deterministic self1 self2 data :
  fst (encode self1 data) = fst (encode self2 data)
  /\ fst (encode (snd (encode self1 data)) data) = fst (encode self1 data).
Proof.
  destruct data as [|ch data]; split; reflexivity.
Qed.

(** *** A text with one distinct symbol *)

Lemma build_frequency_table_repeat ch n : forall k,
  fold_left
    (fun frequency ch =>
       match dict_get frequency ch with
       | Some n => dict_set frequency ch (n + 1)
       | None => dict_set frequency ch (0 + 1)
       end)
    (repeat ch n) [(ch, k)]
  = [(ch, k + Z.of_nat n)].
Proof.
  induction n as [|n IH]; intros k.
  - simpl. rewrite Z.add_0_r. reflexivity.
  - cbn [repeat fold_left dict_get dict_set]. rewrite Z.eqb_refl.
    cbn [dict_set]. rewrite ?Z.eqb_refl, IH. do 2 f_equal. lia.
Qed.

Lemma build_frequency_table_single ch n :
  _build_frequency_table (repeat ch (S n)) = [(ch, Z.of_nat (S n))].
Proof.
  unfold _build_frequency_table. cbn [repeat fold_left dict_get dict_set].
  rewrite build_frequency_table_repeat. do 2 f_equal. lia.
Qed.

Lemma join_codes_empty_code ch n :
  join_codes [(ch, [])] (repeat ch n) = Ok [].
Proof.
  induction n as [|n IH]; [reflexivity|].
  cbn [repeat join_codes dict_get]. rewrite Z.eqb_refl, IH. reflexivity.
Qed.

(** C2, on the code: for a text made of one symbol repeated, the codebook has
    one entry, but its code word is the empty string, not a one-bit string;
    the encoded stream is empty and decoding it gives the empty text instead
    of the original one. *)
Theorem single_symbol_code_word_is_empty self ch n :
  let data := repeat ch (S n) in
  _codebook (snd (encode self data)) = [(ch, [])]
  /\ fst (encode self data) = Ok ([], [(ch, Z.of_nat (S n))])
  /\ decode (snd (encode self data)) [] = Ok []
  /\ decode
       (mkCoder [] (Some (_build_huffman_tree [(ch, Z.of_nat (S n))]))) []
     = Ok [].
Proof.
  intros data.
  assert (Hcb : _codebook (snd (encode self data)) = [(ch, [])]).
  { unfold data. change (repeat ch (S n)) with (ch :: repeat ch n).
    rewrite encode_coder. cbv zeta.
    change (ch :: repeat ch n) with (repeat ch (S n)).
    rewrite build_frequency_table_single. reflexivity. }
  split; [exact Hcb|]. split; [|split; reflexivity].
  unfold data in *. change (repeat ch (S n)) with (ch :: repeat ch n) in *.
  unfold encode in *. cbn [fst snd] in *. rewrite Hcb.
  change (ch :: repeat ch n) with (repeat ch (S n)).
  rewrite join_codes_empty_code, build_frequency_table_single. reflexivity.
Qed.

(** C1, on the code: the round trip loses the text ["zzzz"].  [encode]
    returns the empty bit stream with the table [{z: 4}], and [decode], with
    the tree rebuilt from that table (as [decompress_file] does) or with the
    coder that encoded, returns the empty text. *)
Theorem roundtrip_loses_single_symbol_text :
  let data := [122; 122; 122; 122] in
  fst (encode new_coder data) = Ok ([], [(122, 4)])
  /\ decode (mkCoder [] (Some (_build_huffman_tree [(122, 4)]))) [] = Ok []
  /\ decode (snd (encode new_coder data)) [] = Ok []
  /\ Ok [] <> Ok data.
Proof.
  repeat split; try reflexivity. discriminate.
Qed.

(** ** [heapq]: the operations permute the list *)

Section HeapqPermutation.
Context {A : Type}.
Variable lt : A -> A -> bool.
Local Open Scope nat_scope.

(** Overwriting a cell trades the old value for the new one. *)
Lemma insert_perm_cons (l : list A) : forall i x y,
  l !! i = Some x -> Permutation (x :: <[i := y]> l) (y :: l).
Proof.
  induction l as [|a l IH]; intros i x y Hx.
  - discriminate.
  - destruct i as [|i]; simpl in *.
    + inversion Hx; subst. apply perm_swap.
    + rewrite perm_swap. rewrite (IH i x y Hx). apply perm_swap.
Qed.

(** Moving the value of cell [i] to cell [j] and writing [y] in cell [i]
    gives the same elements as writing [y] in cell [j]. *)
Lemma insert_move_perm (l : list A) i j x y :
  i <> j -> l !! i = Some x -> j < length l ->
  Permutation (<[i := y]> (<[j := x]> l)) (<[j := y]> l).
Proof.
  intros Hij Hx Hj.
  destruct (lookup_lt_is_Some_2 l j Hj) as [h Hh].
  apply (Permutation_cons_inv (a := x)).
  apply (Permutation_cons_inv (a := h)).
  assert (H1 : Permutation (x :: <[i := y]> (<[j := x]> l))
                 (y :: <[j := x]> l)).
  { apply insert_perm_cons. rewrite list_lookup_insert_ne by congruence.
    exact Hx. }
  assert (H2 : Permutation (h :: <[j := x]> l) (x :: l))
    by (apply insert_perm_cons; exact Hh).
  assert (H3 : Permutation (h :: <[j := y]> l) (y :: l))
    by (apply insert_perm_cons; exact Hh).
  rewrite H1. rewrite (perm_swap y h). rewrite H2.
  rewrite (perm_swap x h (<[j := y]> l)). rewrite H3.
  apply perm_swap.
Qed.

Lemma parentpos_lt pos : 0 < pos -> (pos - 1) / 2 < pos.
Proof. intros H. apply Nat.Div0.div_lt_upper_bound. lia. Qed.

(** [siftdown_loop] ends by writing [newitem]; until then it moves parents
    down. *)
Lemma siftdown_loop_perm fuel : forall heap startpos pos newitem,
  pos < length heap ->
  Permutation (siftdown_loop lt fuel heap startpos pos newitem)
    (<[pos := newitem]> heap).
Proof.
  induction fuel as [|fuel IH]; intros heap startpos pos newitem Hpos.
  - reflexivity.
  - cbn [siftdown_loop].
    destruct (Nat.ltb_spec startpos pos) as [Hlt|Hge]; [|reflexivity].
    pose proof (parentpos_lt pos ltac:(lia)) as Hpar.
    destruct (heap !! ((pos - 1) / 2)) as [parent|] eqn:Eparent.
    + destruct (lt newitem parent); [|reflexivity].
      rewrite IH by (rewrite length_insert; lia).
      apply insert_move_perm; [lia|exact Eparent|exact Hpos].
    + apply lookup_ge_None_1 in Eparent. lia.
Qed.

Lemma siftdown_loop_length fuel : forall heap startpos pos newitem,
  length (siftdown_loop lt fuel heap startpos pos newitem) = length heap.
Proof.
  induction fuel as [|fuel IH]; intros heap startpos pos newitem.
  - apply length_insert.
  - cbn [siftdown_loop]. destruct (startpos <? pos); [|apply length_insert].
    destruct (heap !! ((pos - 1) / 2)) as [parent|]; [|reflexivity].
    destruct (lt newitem parent); [|apply length_insert].
    rewrite IH. apply length_insert.
Qed.

Lemma siftdown_perm heap startpos pos :
  Permutation (_siftdown lt heap startpos pos) heap.
Proof.
  unfold _siftdown. destruct (heap !! pos) as [newitem|] eqn:E; [|reflexivity].
  rewrite siftdown_loop_perm by (eapply lookup_lt_Some; exact E).
  rewrite list_insert_id by exact E. reflexivity.
Qed.

(** [siftup_loop] moves children up and leaves a hole at the position it
    returns: whatever is written there, the elements are those of the list
    with that value at the starting position. *)
Lemma siftup_loop_perm fuel : forall heap pos heap' pos',
  pos < length heap ->
  siftup_loop lt fuel heap (length heap) pos = (heap', pos') ->
  length heap' = length heap /\ pos' < length heap
  /\ forall v, Permutation (<[pos' := v]> heap') (<[pos := v]> heap).
Proof.
  induction fuel as [|fuel IH]; intros heap pos heap' pos' Hpos Hloop.
  - inversion Hloop; subst. auto.
  - cbn [siftup_loop] in Hloop.
    destruct (Nat.ltb_spec (2 * pos + 1) (length heap)) as [Hchild|Hleaf];
      [|inversion Hloop; subst; auto].
    set (childpos :=
           if 2 * pos + 1 + 1 <? length heap
           then match heap !! (2 * pos + 1), heap !! (2 * pos + 1 + 1) with
                | Some l, Some r =>
                    if negb (lt l r) then 2 * pos + 1 + 1 else 2 * pos + 1
                | _, _ => 2 * pos + 1
                end
           else 2 * pos + 1) in *.
    assert (Hc : childpos < length heap /\ pos < childpos).
    { unfold childpos.
      destruct (Nat.ltb_spec (2 * pos + 1 + 1) (length heap)); [|lia].
      destruct (heap !! (2 * pos + 1)); [|lia].
      destruct (heap !! (2 * pos + 1 + 1)); [|lia].
      destruct (negb (lt a a0)); lia. }
    destruct (heap !! childpos) as [c|] eqn:Ec;
      [|inversion Hloop; subst; auto].
    replace (length heap) with (length (<[pos := c]> heap)) in Hloop
      by apply length_insert.
    apply IH in Hloop; [|rewrite length_insert; lia].
    rewrite length_insert in Hloop. destruct Hloop as (Hlen & Hpos' & Hperm).
    split; [exact Hlen|]. split; [exact Hpos'|].
    intros v. rewrite Hperm.
    apply insert_move_perm; [lia|exact Ec|exact Hpos].
Qed.

Lemma siftup_perm heap pos : Permutation (_siftup lt heap pos) heap.
Proof.
  unfold _siftup. destruct (heap !! pos) as [newitem|] eqn:E; [|reflexivity].
  destruct (siftup_loop lt (length heap) heap (length heap) pos)
    as [heap' pos'] eqn:Eloop.
  apply siftup_loop_perm in Eloop; [|eapply lookup_lt_Some; exact E].
  destruct Eloop as (_ & _ & Hperm).
  rewrite siftdown_perm, Hperm, list_insert_id by exact E. reflexivity.
Qed.

Lemma siftup_length heap pos : length (_siftup lt heap pos) = length heap.
Proof. apply Permutation_length, siftup_perm. Qed.

Lemma heapify_loop_perm k : forall x,
  Permutation (heapify_loop lt k x) x.
Proof.
  induction k as [|k IH]; intros x; [reflexivity|].
  cbn [heapify_loop]. rewrite IH. apply siftup_perm.
Qed.

Lemma heapify_perm x : Permutation (heapify lt x) x.
Proof. apply heapify_loop_perm. Qed.

Lemma heappush_perm heap item :
  Permutation (heappush lt heap item) (item :: heap).
Proof.
  unfold heappush. rewrite siftdown_perm.
  symmetry. apply Permutation_cons_append.
Qed.

Lemma list_pop_snoc (l : list A) x : list_pop (l ++ [x]) = Some (l, x).
Proof.
  unfold list_pop. rewrite last_snoc, removelast_last. reflexivity.
Qed.

(** [heappop] raises only on the empty list. *)
Lemma heappop_ok heap :
  heap <> [] -> exists x heap', heappop lt heap = Ok (x, heap').
Proof.
  intros Hne. destruct (exists_last Hne) as (l & x & ->).
  unfold heappop. rewrite list_pop_snoc.
  destruct l; eauto.
Qed.

Lemma heappop_perm heap x heap' :
  heappop lt heap = Ok (x, heap') -> Permutation heap (x :: heap').
Proof.
  unfold heappop. destruct heap as [|a0 heap0] using rev_ind.
  - discriminate.
  - clear IHheap0. rewrite list_pop_snoc. destruct heap0 as [|r heap0].
    + intros H. inversion H; subst. reflexivity.
    + intros H. inversion H; subst. rewrite siftup_perm. simpl.
      apply perm_skip. symmetry. apply Permutation_cons_append.
Qed.
End HeapqPermutation.

(** ** [heapq]: the operations keep the heap order *)

Section HeapqOrder.
Context {A : Type}.
Variable key : A -> Z.
Variable lt : A -> A -> bool.
Hypothesis lt_key : forall a b, lt a b = (key a <? key b)%Z.
Local Open Scope nat_scope.

Lemma parent_of_child i j : is_child i j -> (j - 1) / 2 = i /\ i < j.
Proof.
  intros [-> | ->]; split; try lia.
  - replace (2 * i + 1 - 1) with (i * 2) by lia. apply Nat.div_mul. lia.
  - symmetry. apply (Nat.div_unique _ 2 i 1); lia.
Qed.

Lemma child_of_parent j : 0 < j -> is_child ((j - 1) / 2) j.
Proof.
  intros Hj. pose proof (Nat.div_mod_eq (j - 1) 2) as Hdiv.
  pose proof (Nat.mod_upper_bound (j - 1) 2 ltac:(lia)) as Hmod.
  unfold is_child. lia.
Qed.

Lemma descends_le start pos : descends start pos -> start <= pos.
Proof.
  induction 1 as [|i j _ IH Hc]; [lia|].
  apply parent_of_child in Hc. lia.
Qed.

Lemma descends_parent start pos :
  descends start pos -> start < pos ->
  descends start ((pos - 1) / 2) /\ start <= (pos - 1) / 2.
Proof.
  intros Hd Hlt. destruct Hd as [|i j Hd Hc]; [lia|].
  destruct (parent_of_child _ _ Hc) as [-> _].
  split; [exact Hd|]. apply descends_le. exact Hd.
Qed.

Lemma descends_root pos : descends 0 pos.
Proof.
  induction pos as [pos IH] using lt_wf_ind.
  destruct pos as [|pos]; [constructor|].
  pose proof (child_of_parent (S pos) ltac:(lia)) as Hc.
  apply (descends_child 0 _ _ (IH _ (proj2 (parent_of_child _ _ Hc))) Hc).
Qed.

(** The last assignment of [_siftdown]: [newitem] fills the hole. *)
Lemma siftdown_finish heap start pos newitem :
  pos < length heap ->
  siftdown_inv key start heap pos newitem ->
  (start < pos ->
   forall parent, heap !! ((pos - 1) / 2) = Some parent ->
                  (key parent <= key newitem)%Z) ->
  ordered_from key start (<[pos := newitem]> heap).
Proof.
  intros Hpos (Hrest & Hdown & _) Hup i j x y Hi Hc Hx Hy.
  destruct (parent_of_child _ _ Hc) as [Hpar Hij].
  apply list_lookup_insert_Some in Hx, Hy.
  destruct Hx as [(<- & <- & _)|(Hni & Hx)];
    destruct Hy as [(Hj & <- & _)|(Hnj & Hy)].
  - lia.
  - eapply Hdown; eassumption.
  - subst j. apply Hup; [lia|]. rewrite Hpar. exact Hx.
  - eapply (Hrest i j); eauto.
Qed.

(** One turn of the loop of [_siftdown]: the parent moves down into the hole
    and the hole moves up. *)
Lemma siftdown_step heap start pos newitem parent :
  start < pos -> pos < length heap -> descends start pos ->
  heap !! ((pos - 1) / 2) = Some parent ->
  (key newitem < key parent)%Z ->
  siftdown_inv key start heap pos newitem ->
  siftdown_inv key start (<[pos := parent]> heap) ((pos - 1) / 2) newitem.
Proof.
  intros Hlt Hpos Hd Hparent Hnew (Hrest & Hdown & Hbridge).
  destruct (descends_parent _ _ Hd Hlt) as [_ Hpp].
  pose proof (child_of_parent pos ltac:(lia)) as Hcpos.
  destruct (parent_of_child _ _ Hcpos) as [_ Hpplt].
  set (pp := (pos - 1) / 2) in *.
  split; [|split].
  - intros i j x y Hi Hc Hni Hnj Hx Hy.
    destruct (parent_of_child _ _ Hc) as [Hpar Hij].
    apply list_lookup_insert_Some in Hx, Hy.
    destruct Hx as [(<- & <- & _)|(Hni' & Hx)];
      destruct Hy as [(Hj & <- & _)|(Hnj' & Hy)].
    + lia.
    + eapply (Hbridge pp j); eauto.
    + subst j. exfalso. apply Hni. unfold pp. lia.
    + eapply (Hrest i j); eauto.
  - intros j y Hc Hy.
    apply list_lookup_insert_Some in Hy.
    destruct Hy as [(Hj & <- & _)|(Hnj & Hy)]; [lia|].
    assert (key parent <= key y)%Z; [|lia].
    eapply (Hrest pp j); eauto. lia.
  - intros p j x y Hp Hcp Hc Hx Hy.
    destruct (parent_of_child _ _ Hcp) as [_ Hppp].
    rewrite list_lookup_insert_ne in Hx by lia.
    assert (Hpar : (key x <= key parent)%Z).
    { eapply (Hrest p pp); eauto; lia. }
    apply list_lookup_insert_Some in Hy.
    destruct Hy as [(Hj & <- & _)|(Hnj & Hy)]; [exact Hpar|].
    assert (key parent <= key y)%Z; [|lia].
    eapply (Hrest pp j); eauto. lia.
Qed.

Lemma siftdown_loop_order fuel : forall heap start pos newitem,
  pos <= fuel -> pos < length heap -> descends start pos ->
  siftdown_inv key start heap pos newitem ->
  ordered_from key start (siftdown_loop lt fuel heap start pos newitem).
Proof.
  induction fuel as [|fuel IH]; intros heap start pos newitem Hfuel Hpos Hd Hinv.
  - cbn [siftdown_loop]. apply siftdown_finish; [exact Hpos|exact Hinv|].
    intros Hlt. pose proof (descends_le _ _ Hd). lia.
  - cbn [siftdown_loop].
    destruct (Nat.ltb_spec start pos) as [Hlt|Hge].
    + pose proof (child_of_parent pos ltac:(lia)) as Hcpos.
      destruct (parent_of_child _ _ Hcpos) as [_ Hpplt].
      destruct (heap !! ((pos - 1) / 2)) as [parent|] eqn:Eparent.
      * rewrite lt_key. destruct (Z.ltb_spec (key newitem) (key parent)).
        -- apply IH.
           ++ lia.
           ++ rewrite length_insert. lia.
           ++ apply descends_parent; assumption.
           ++ apply siftdown_step; assumption.
        -- apply siftdown_finish; [exact Hpos|exact Hinv|].
           intros _ parent' Hp. congruence.
      * apply lookup_ge_None_1 in Eparent. lia.
    + apply siftdown_finish; [exact Hpos|exact Hinv|]. lia.
Qed.

(** [_siftdown] on a list whose cell [pos] breaks the order only towards its
    ancestors. *)
Lemma siftdown_order heap start pos newitem :
  heap !! pos = Some newitem -> descends start pos ->
  siftdown_inv key start heap pos newitem ->
  ordered_from key start (_siftdown lt heap start pos).
Proof.
  intros Hnew Hd Hinv. unfold _siftdown. rewrite Hnew.
  apply siftdown_loop_order; [lia| |exact Hd|exact Hinv].
  eapply lookup_lt_Some. exact Hnew.
Qed.

(** The choice of the smaller child in the loop of [_siftup]. *)
Lemma smaller_child heap pos :
  2 * pos + 1 < length heap ->
  let childpos :=
    if 2 * pos + 1 + 1 <? length heap
    then match heap !! (2 * pos + 1), heap !! (2 * pos + 1 + 1) with
         | Some l, Some r =>
             if negb (lt l r) then 2 * pos + 1 + 1 else 2 * pos + 1
         | _, _ => 2 * pos + 1
         end
    else 2 * pos + 1 in
  is_child pos childpos
  /\ exists c, heap !! childpos = Some c
               /\ forall j y, is_child pos j -> heap !! j = Some y ->
                              (key c <= key y)%Z.
Proof.
  intros Hleft. cbv zeta.
  destruct (lookup_lt_is_Some_2 heap _ Hleft) as [l Hl].
  destruct (Nat.ltb_spec (2 * pos + 1 + 1) (length heap)) as [Hright|Hright].
  - destruct (lookup_lt_is_Some_2 heap _ Hright) as [r Hr].
    rewrite Hl, Hr, lt_key.
    destruct (Z.ltb_spec (key l) (key r)); cbn [negb].
    + split; [left; reflexivity|]. exists l. split; [exact Hl|].
      intros j y [-> | ->] Hy.
      * assert (y = l) by congruence. subst. lia.
      * replace (2 * pos + 2) with (2 * pos + 1 + 1) in Hy by lia.
        assert (y = r) by congruence. subst. lia.
    + split; [right; lia|]. exists r. split; [exact Hr|].
      intros j y [-> | ->] Hy.
      * assert (y = l) by congruence. subst. lia.
      * replace (2 * pos + 2) with (2 * pos + 1 + 1) in Hy by lia.
        assert (y = r) by congruence. subst. lia.
  - split; [left; reflexivity|]. exists l. split; [exact Hl|].
    intros j y [-> | ->] Hy.
    + assert (y = l) by congruence. subst. lia.
    + apply lookup_lt_Some in Hy. lia.
Qed.

(** One turn of the loop of [_siftup]: the smaller child moves up. *)
Lemma siftup_step heap start pos childpos c :
  descends start pos -> pos < length heap ->
  is_child pos childpos -> heap !! childpos = Some c ->
  (forall j y, is_child pos j -> heap !! j = Some y -> (key c <= key y)%Z) ->
  siftup_inv key start heap pos ->
  siftup_inv key start (<[pos := c]> heap) childpos.
Proof.
  intros Hd Hpos Hc Hcv Hsmall Hinv i j x y Hi _ Hij Hx Hy.
  pose proof (descends_le _ _ Hd) as Hsp.
  destruct (parent_of_child _ _ Hc) as [_ Hpc].
  destruct (parent_of_child _ _ Hij) as [Hpar Hlt].
  apply list_lookup_insert_Some in Hx, Hy.
  destruct Hx as [(<- & <- & _)|(Hni & Hx)];
    destruct Hy as [(Hj & <- & _)|(Hnj & Hy)].
  - lia.
  - eapply Hsmall; eassumption.
  - subst j.
    assert (H1 : exists h, heap !! pos = Some h).
    { apply lookup_lt_is_Some_2. exact Hpos. }
    destruct H1 as [h Hh].
    assert (key x <= key h)%Z by (eapply (Hinv i pos); eauto; lia).
    assert (key h <= key c)%Z by (eapply (Hinv pos childpos); eauto; lia).
    lia.
  - eapply (Hinv i j); eauto. intros ->. congruence.
Qed.

Lemma siftup_loop_order fuel : forall heap start pos heap' pos',
  pos < length heap -> length heap <= fuel + pos ->
  descends start pos -> siftup_inv key start heap pos ->
  siftup_loop lt fuel heap (length heap) pos = (heap', pos') ->
  siftup_inv key start heap' pos' /\ descends start pos'
  /\ length heap <= 2 * pos' + 1 /\ pos' < length heap
  /\ length heap' = length heap.
Proof.
  induction fuel as [|fuel IH];
    intros heap start pos heap' pos' Hpos Hfuel Hd Hinv Hloop.
  - lia.
  - cbn [siftup_loop] in Hloop.
    destruct (Nat.ltb_spec (2 * pos + 1) (length heap)) as [Hchild|Hleaf];
      [|inversion Hloop; subst; repeat split; auto].
    destruct (smaller_child heap pos Hchild) as (Hc & c & Hcv & Hsmall).
    cbv zeta in Hloop.
    set (childpos :=
           if 2 * pos + 1 + 1 <? length heap
           then match heap !! (2 * pos + 1), heap !! (2 * pos + 1 + 1) with
                | Some l, Some r =>
                    if negb (lt l r) then 2 * pos + 1 + 1 else 2 * pos + 1
                | _, _ => 2 * pos + 1
                end
           else 2 * pos + 1) in *.
    rewrite Hcv in Hloop.
    destruct (parent_of_child _ _ Hc) as [_ Hpc].
    pose proof (IH (<[pos := c]> heap) start childpos heap' pos') as Hnext.
    rewrite !length_insert in Hnext. apply Hnext.
    + eapply lookup_lt_Some. exact Hcv.
    + lia.
    + eapply descends_child; eassumption.
    + eapply siftup_step; eassumption.
    + exact Hloop.
Qed.

(** [_siftup] at [pos] extends the order from the cells after [pos] to the
    cell [pos]. *)
Lemma siftup_order heap pos :
  ordered_from key (S pos) heap ->
  ordered_from key pos (_siftup lt heap pos).
Proof.
  intros Hord. unfold _siftup.
  destruct (heap !! pos) as [newitem|] eqn:Enew.
  - pose proof (lookup_lt_Some _ _ _ Enew) as Hpos.
    destruct (siftup_loop lt (length heap) heap (length heap) pos)
      as [heap' pos'] eqn:Eloop.
    apply (siftup_loop_order _ _ pos) in Eloop;
      [|exact Hpos|lia|constructor|].
    + destruct Eloop as (Hinv & Hd & Hleaf & Hpos' & Hlen).
      apply siftdown_order with (newitem := newitem).
      * apply list_lookup_insert_eq. lia.
      * exact Hd.
      * split; [|split].
        -- intros i j x y Hi Hc Hni Hnj Hx Hy.
           rewrite list_lookup_insert_ne in Hx, Hy by congruence.
           eapply (Hinv i j); eauto.
           intros Heq Hp. apply Hni. congruence.
        -- intros j y [-> | ->] Hy; apply lookup_lt_Some in Hy;
             rewrite length_insert in Hy; lia.
        -- intros p j x y _ _ [-> | ->] _ Hy; apply lookup_lt_Some in Hy;
             rewrite length_insert in Hy; lia.
    + intros i j x y Hi Hne Hc Hx Hy.
      eapply (Hord i j); eauto.
      destruct (Nat.eq_dec i pos) as [->|]; [|lia].
      exfalso. apply Hne; reflexivity.
  - intros i j x y Hi Hc Hx Hy.
    apply lookup_ge_None_1 in Enew. apply lookup_lt_Some in Hx. lia.
Qed.

Lemma heapify_loop_order k : forall x,
  ordered_from key k x -> heap_ordered key (heapify_loop lt k x).
Proof.
  induction k as [|k IH]; intros x Hord; [exact Hord|].
  cbn [heapify_loop]. apply IH. apply siftup_order. exact Hord.
Qed.

Lemma heapify_order x : heap_ordered key (heapify lt x).
Proof.
  apply heapify_loop_order. intros i j a b Hi Hc _ Hb.
  apply lookup_lt_Some in Hb.
  pose proof (Nat.div_mod_eq (length x) 2) as Hdiv.
  pose proof (Nat.mod_upper_bound (length x) 2 ltac:(lia)) as Hmod.
  destruct Hc; lia.
Qed.

Lemma heappush_order heap item :
  heap_ordered key heap -> heap_ordered key (heappush lt heap item).
Proof.
  intros Hord. unfold heappush, heap_ordered.
  replace (length (heap ++ [item]) - 1) with (length heap)
    by (rewrite length_app; simpl; lia).
  apply siftdown_order with (newitem := item).
  - rewrite lookup_app_r by lia. rewrite Nat.sub_diag. reflexivity.
  - apply descends_root.
  - split; [|split].
    + intros i j x y Hi Hc Hni Hnj Hx Hy.
      pose proof (lookup_lt_Some _ _ _ Hx) as Hil.
      pose proof (lookup_lt_Some _ _ _ Hy) as Hjl.
      rewrite length_app in Hil, Hjl. simpl in Hil, Hjl.
      rewrite lookup_app_l in Hx, Hy by lia.
      eapply (Hord i j); eauto.
    + intros j y [-> | ->] Hy; apply lookup_lt_Some in Hy;
        rewrite length_app in Hy; simpl in Hy; lia.
    + intros p j x y _ _ [-> | ->] _ Hy; apply lookup_lt_Some in Hy;
        rewrite length_app in Hy; simpl in Hy; lia.
Qed.

(** The first cell of an ordered heap holds a smallest item. *)
Lemma heap_root_min heap root :
  heap_ordered key heap -> heap !! 0 = Some root ->
  forall j y, heap !! j = Some y -> (key root <= key y)%Z.
Proof.
  intros Hord Hroot j. induction j as [j IH] using lt_wf_ind. intros y Hy.
  destruct j as [|j]; [assert (y = root) by congruence; subst; lia|].
  pose proof (child_of_parent (S j) ltac:(lia)) as Hc.
  destruct (parent_of_child _ _ Hc) as [_ Hlt].
  destruct (lookup_lt_is_Some_2 heap ((S j - 1) / 2)) as [x Hx].
  { apply lookup_lt_Some in Hy. lia. }
  assert (key root <= key x)%Z by (eapply IH; eauto).
  assert (key x <= key y)%Z
    by (apply (Hord ((S j - 1) / 2) (S j) x y);
        [lia|exact Hc|exact Hx|exact Hy]).
  lia.
Qed.

(** [heappop] returns a smallest item and leaves an ordered heap. *)
Lemma heappop_order heap x heap' :
  heap_ordered key heap -> heappop lt heap = Ok (x, heap') ->
  heap_ordered key heap'
  /\ forall y, In y heap -> (key x <= key y)%Z.
Proof.
  intros Hord. unfold heappop.
  destruct heap as [|lastelt heap0 _] using rev_ind; [discriminate|].
  rewrite list_pop_snoc. destruct heap0 as [|returnitem heap0].
  - intros H. inversion H; subst. split.
    + intros i j a b _ _ Ha. discriminate.
    + intros y [<-|[]]. lia.
  - intros H. inversion H; subst. split.
    + apply siftup_order. intros i j a b Hi Hc Ha Hb.
      destruct (parent_of_child _ _ Hc) as [_ Hlt].
      destruct i as [|i]; [lia|]. destruct j as [|j]; [lia|].
      apply (Hord (S i) (S j) a b); [lia|exact Hc| |];
        apply lookup_app_l_Some; assumption.
    + intros y Hy. apply list_elem_of_In, list_elem_of_lookup in Hy.
      destruct Hy as [j Hj].
      eapply (heap_root_min _ x Hord); [reflexivity|exact Hj].
Qed.
End HeapqOrder.

(** ** [_build_huffman_tree] *)

(** The loop of [_build_huffman_tree], turn by turn: a property that holds of
    the list before the loop and that each turn preserves holds after it. *)
Lemma merge_loop_ind (P : list HuffmanNode -> Prop) :
  (forall nodes l nodes1 r nodes2,
      (1 < length nodes)%nat ->
      heappop node_lt nodes = Ok (l, nodes1) ->
      heappop node_lt nodes1 = Ok (r, nodes2) ->
      P nodes ->
      P (heappush node_lt nodes2 (merged_node l r))) ->
  forall fuel nodes, P nodes -> P (merge_loop fuel nodes).
Proof.
  intros Hstep. induction fuel as [|fuel IH]; intros nodes HP.
  - exact HP.
  - cbn [merge_loop].
    destruct (Nat.ltb_spec 1 (length nodes)) as [Hlen|Hlen]; [|exact HP].
    destruct (heappop_ok node_lt nodes) as (l & nodes1 & Hl).
    { intros ->. simpl in Hlen. lia. }
    rewrite Hl.
    pose proof (Permutation_length (heappop_perm _ _ _ _ Hl)) as Hlen1.
    destruct (heappop_ok node_lt nodes1) as (r & nodes2 & Hr).
    { intros ->. simpl in Hlen1. lia. }
    rewrite Hr. apply IH. eapply Hstep; eassumption.
Qed.

(** With [len(nodes)] turns the loop runs until one node is left. *)
Lemma merge_loop_length fuel : forall nodes,
  (length nodes <= S fuel)%nat ->
  length (merge_loop fuel nodes) = Nat.min 1 (length nodes).
Proof.
  induction fuel as [|fuel IH]; intros nodes Hfuel.
  - cbn [merge_loop]. lia.
  - cbn [merge_loop].
    destruct (Nat.ltb_spec 1 (length nodes)) as [Hlen|Hlen]; [|lia].
    destruct (heappop_ok node_lt nodes) as (l & nodes1 & Hl).
    { intros ->. simpl in Hlen. lia. }
    rewrite Hl.
    pose proof (Permutation_length (heappop_perm _ _ _ _ Hl)) as Hlen1.
    destruct (heappop_ok node_lt nodes1) as (r & nodes2 & Hr).
    { intros ->. simpl in Hlen1. lia. }
    rewrite Hr.
    pose proof (Permutation_length (heappop_perm _ _ _ _ Hr)) as Hlen2.
    pose proof (Permutation_length
                  (heappush_perm node_lt nodes2 (merged_node l r))) as Hlen3.
    simpl in Hlen1, Hlen2, Hlen3.
    fold (merged_node l r). rewrite IH by lia. lia.
Qed.

(** The tree built from a non-empty table is the node left by the loop. *)
Lemma build_huffman_tree_root frequency :
  frequency <> [] ->
  merge_loop (length (heapify node_lt (map leaf_node frequency)))
    (heapify node_lt (map leaf_node frequency))
  = [_build_huffman_tree frequency].
Proof.
  intros Hne. unfold _build_huffman_tree.
  change (fun '(ch, freq) => mkNode (Some ch) freq None None)
    with (fun e : char * Z => let '(ch, freq) := e in
                              mkNode (Some ch) freq None None).
  replace (map (fun e : char * Z => let '(ch, freq) := e in
                                    mkNode (Some ch) freq None None) frequency)
    with (map leaf_node frequency)
    by (apply map_ext; intros [ch fr]; reflexivity).
  set (nodes := heapify node_lt (map leaf_node frequency)).
  pose proof (merge_loop_length (length nodes) nodes ltac:(lia)) as Hlen.
  assert (Hn : length nodes = length frequency).
  { unfold nodes.
    rewrite (Permutation_length (heapify_perm node_lt _)).
    apply length_map. }
  destruct frequency as [|e frequency]; [congruence|].
  simpl in Hn. rewrite Hn in Hlen at 2. simpl in Hlen.
  destruct (merge_loop (length nodes) nodes) as [|root [|? ?]];
    try discriminate.
  reflexivity.
Qed.

Lemma forest_leaves_cons n nodes :
  forest_leaves (n :: nodes) = leaves n ++ forest_leaves nodes.
Proof. reflexivity. Qed.

Lemma forest_leaves_single n : forest_leaves [n] = leaves n.
Proof. unfold forest_leaves. simpl. apply app_nil_r. Qed.

Lemma forest_leaves_perm nodes nodes' :
  Permutation nodes nodes' ->
  Permutation (forest_leaves nodes) (forest_leaves nodes').
Proof.
  induction 1 as [|n l l' _ IH|n m l|l l' l'' _ IH1 _ IH2].
  - reflexivity.
  - rewrite !forest_leaves_cons. apply Permutation_app_head. exact IH.
  - rewrite !forest_leaves_cons, !app_assoc.
    apply Permutation_app_tail. apply Permutation_app_comm.
  - etransitivity; eassumption.
Qed.

Lemma forest_leaves_leaf_nodes frequency :
  forest_leaves (map leaf_node frequency) = frequency.
Proof.
  induction frequency as [|[ch fr] frequency IH]; [reflexivity|].
  cbn [map]. rewrite forest_leaves_cons, IH. reflexivity.
Qed.

Lemma sum_freq_app xs ys : sum_freq (xs ++ ys) = sum_freq xs + sum_freq ys.
Proof.
  unfold sum_freq. induction xs as [|x xs IH]; simpl; lia.
Qed.


(** One turn of the loop: the three lists it goes through. *)
Lemma merge_step_perm nodes l nodes1 r nodes2 :
  heappop node_lt nodes = Ok (l, nodes1) ->
  heappop node_lt nodes1 = Ok (r, nodes2) ->
  Permutation nodes (l :: r :: nodes2)
  /\ Permutation (heappush node_lt nodes2 (merged_node l r))
       (merged_node l r :: nodes2).
Proof.
  intros Hl Hr. split.
  - rewrite (heappop_perm _ _ _ _ Hl). apply perm_skip.
    apply (heappop_perm _ _ _ _ Hr).
  - apply heappush_perm.
Qed.

(** The leaves of the tree are the entries of the table. *)
Lemma build_huffman_tree_leaves frequency :
  frequency <> [] ->
  Permutation (leaves (_build_huffman_tree frequency)) frequency.
Proof.
  intros Hne.
  pose proof (merge_loop_ind
                (fun nodes => Permutation (forest_leaves nodes) frequency))
    as Hind.
  cbv beta in Hind.
  specialize (Hind ltac:(
    intros nodes l nodes1 r nodes2 _ Hl Hr HP;
    destruct (merge_step_perm _ _ _ _ _ Hl Hr) as [H1 H2];
    rewrite (forest_leaves_perm _ _ H2);
    rewrite <- HP, (forest_leaves_perm _ _ H1);
    rewrite !forest_leaves_cons, app_assoc; reflexivity)).
  specialize (Hind (length (heapify node_lt (map leaf_node frequency)))
                (heapify node_lt (map leaf_node frequency))).
  rewrite build_huffman_tree_root in Hind by exact Hne.
  rewrite forest_leaves_single in Hind. apply Hind.
  rewrite (forest_leaves_perm _ _ (heapify_perm node_lt _)).
  rewrite forest_leaves_leaf_nodes. reflexivity.
Qed.

Lemma every_node_merged (P : HuffmanNode -> Prop) l r :
  P (merged_node l r) -> every_node P l -> every_node P r ->
  every_node P (merged_node l r).
Proof. intros H Hl Hr. simpl. auto. Qed.






(** ** [_build_frequency_table] and the length of the encoded stream *)

Lemma build_frequency_table_fold data :
  _build_frequency_table data = fold_left count_char data [].
Proof. reflexivity. Qed.

Lemma dict_get_None {V} (d : dict V) k :
  dict_get d k = None <-> ~ In k (map fst d).
Proof.
  induction d as [|[k' v'] d IH]; simpl.
  - tauto.
  - destruct (Z.eqb_spec k' k) as [->|Hne].
    + split; [discriminate|]. intros H. exfalso. apply H. now left.
    + rewrite IH. tauto.
Qed.

Lemma dict_get_In {V} (d : dict V) k v : dict_get d k = Some v -> In (k, v) d.
Proof.
  induction d as [|[k' v'] d IH]; simpl; [discriminate|].
  destruct (Z.eqb_spec k' k) as [->|Hne].
  - intros H. inversion H. now left.
  - intros H. right. apply IH. exact H.
Qed.

Lemma dict_get_In_wf {V} (d : dict V) k v :
  dict_wf d -> In (k, v) d -> dict_get d k = Some v.
Proof.
  unfold dict_wf. induction d as [|[k' v'] d IH]; simpl; [tauto|].
  intros Hwf Hin. apply NoDup_cons_iff in Hwf. destruct Hwf as [Hk' Hwf].
  destruct Hin as [Hin|Hin].
  - inversion Hin; subst. rewrite Z.eqb_refl. reflexivity.
  - destruct (Z.eqb_spec k' k) as [->|Hne]; [|apply IH; assumption].
    exfalso. apply Hk'. apply in_map_iff. exists (k, v). split; auto.
Qed.

Lemma dict_set_keys {V} (d : dict V) k v n :
  dict_get d k = Some n -> map fst (dict_set d k v) = map fst d.
Proof.
  induction d as [|[k' v'] d IH]; simpl; [discriminate|].
  destruct (Z.eqb_spec k' k) as [->|Hne]; [reflexivity|].
  intros H. simpl. rewrite IH by exact H. reflexivity.
Qed.

Lemma weighted_app g xs ys :
  weighted g (xs ++ ys) = weighted g xs + weighted g ys.
Proof. unfold weighted. induction xs as [|x xs IH]; simpl; lia. Qed.

Lemma weighted_perm g xs ys :
  Permutation xs ys -> weighted g xs = weighted g ys.
Proof. unfold weighted. induction 1; simpl; lia. Qed.

Lemma weighted_dict_set g (d : dict Z) k v :
  weighted g (dict_set d k v)
  = weighted g d
    + (v - match dict_get d k with Some n => n | None => 0 end) * g k.
Proof.
  induction d as [|[k' v'] d IH]; simpl.
  - lia.
  - destruct (Z.eqb_spec k' k) as [->|Hne]; simpl; [lia|].
    unfold weighted in *. rewrite IH. lia.
Qed.

(** One more occurrence of [ch]. *)
Lemma count_char_weighted g d ch :
  weighted g (count_char d ch) = weighted g d + g ch.
Proof.
  unfold count_char. destruct (dict_get d ch) as [n|] eqn:E;
    rewrite weighted_dict_set, E; lia.
Qed.

Lemma count_char_keys d ch k :
  In k (map fst (count_char d ch)) <-> k = ch \/ In k (map fst d).
Proof.
  unfold count_char. destruct (dict_get d ch) as [n|] eqn:E.
  - rewrite (dict_set_keys d ch (n + 1) n E). split; [tauto|].
    intros [->|H]; [|exact H].
    apply dict_get_In in E. apply in_map_iff. exists (ch, n). auto.
  - apply dict_get_None in E. rewrite dict_set_fresh by exact E.
    rewrite map_app, in_app_iff. simpl. intuition congruence.
Qed.

Lemma count_char_wf d ch : dict_wf d -> dict_wf (count_char d ch).
Proof.
  unfold dict_wf, count_char. intros Hwf.
  destruct (dict_get d ch) as [n|] eqn:E.
  - rewrite (dict_set_keys d ch (n + 1) n E). exact Hwf.
  - apply dict_get_None in E. rewrite dict_set_fresh by exact E.
    rewrite map_app. simpl. apply List.NoDup_app.
    + exact Hwf.
    + constructor; [simpl; tauto|constructor].
    + intros x Hx [<-|[]]. exact (E Hx).
Qed.

Lemma Forall_dict_set {V} (P : char * V -> Prop) (d : dict V) k v :
  List.Forall P d -> (forall k', P (k', v)) -> List.Forall P (dict_set d k v).
Proof.
  intros Hd Hv. induction Hd as [|[k' v'] d' Hh Hd' IH]; simpl.
  - constructor; [apply Hv|constructor].
  - destruct (k' =? k); constructor; auto.
Qed.

Lemma count_char_positive d ch :
  List.Forall (fun e => 1 <= snd e) d ->
  List.Forall (fun e => 1 <= snd e) (count_char d ch).
Proof.
  intros Hd. unfold count_char. destruct (dict_get d ch) as [n|] eqn:E.
  - apply Forall_dict_set; [exact Hd|]. intros k'. simpl.
    apply dict_get_In in E. rewrite List.Forall_forall in Hd.
    apply Hd in E. simpl in E. lia.
  - apply Forall_dict_set; [exact Hd|]. intros k'. simpl. lia.
Qed.

(** The table after the loop, from the table before it. *)
Lemma count_chars_spec data : forall d,
  dict_wf d -> List.Forall (fun e => 1 <= snd e) d ->
  dict_wf (fold_left count_char data d)
  /\ List.Forall (fun e => 1 <= snd e) (fold_left count_char data d)
  /\ (forall k, In k (map fst (fold_left count_char data d))
                <-> In k data \/ In k (map fst d))
  /\ forall g, weighted g (fold_left count_char data d)
               = weighted g d + sum_over g data.
Proof.
  induction data as [|ch data IH]; intros d Hwf Hpos.
  - simpl. split; [exact Hwf|]. split; [exact Hpos|].
    split; [intros k; tauto|].
    intros g. unfold sum_over. simpl. lia.
  - cbn [fold_left].
    destruct (IH (count_char d ch) (count_char_wf d ch Hwf)
                (count_char_positive d ch Hpos))
      as (Hwf' & Hpos' & Hkeys & Hsum).
    split; [exact Hwf'|]. split; [exact Hpos'|]. split.
    + intros k. rewrite Hkeys, count_char_keys. simpl.
      assert (ch = k <-> k = ch) by (split; congruence). tauto.
    + intros g. rewrite Hsum, count_char_weighted.
      unfold sum_over. simpl. lia.
Qed.

Lemma build_frequency_table_spec data :
  dict_wf (_build_frequency_table data)
  /\ List.Forall (fun e => 1 <= snd e) (_build_frequency_table data)
  /\ (forall k, In k (map fst (_build_frequency_table data)) <-> In k data)
  /\ forall g, weighted g (_build_frequency_table data) = sum_over g data.
Proof.
  rewrite build_frequency_table_fold.
  destruct (count_chars_spec data []) as (Hwf & Hpos & Hkeys & Hsum).
  - constructor.
  - constructor.
  - split; [exact Hwf|]. split; [exact Hpos|]. split.
    + intros k. rewrite Hkeys. simpl. tauto.
    + intros g. rewrite Hsum. unfold weighted. simpl. lia.
Qed.

Lemma weighted_one entries : weighted (fun _ => 1) entries = sum_freq entries.
Proof.
  unfold weighted, sum_freq. induction entries as [|e es IH]; simpl; lia.
Qed.

Lemma sum_over_one data : sum_over (fun _ => 1) data = Z.of_nat (length data).
Proof.
  unfold sum_over. induction data as [|ch data IH]; simpl length; simpl; lia.
Qed.

(** The frequencies add up to the length of the text. *)
Lemma build_frequency_table_total data :
  sum_freq (_build_frequency_table data) = Z.of_nat (length data).
Proof.
  destruct (build_frequency_table_spec data) as (_ & _ & _ & Hsum).
  rewrite <- weighted_one, Hsum. apply sum_over_one.
Qed.

(** The table has one entry for each distinct symbol of the text. *)
Lemma build_frequency_table_length data :
  (length (_build_frequency_table data) <= length (nodup Z.eq_dec data))%nat.
Proof.
  destruct (build_frequency_table_spec data) as (Hwf & _ & Hkeys & _).
  rewrite <- (length_map fst). apply NoDup_incl_length; [exact Hwf|].
  intros k Hk. apply nodup_In, Hkeys, Hk.
Qed.

(** [join] succeeds when every character has a code word, and the stream
    has the length of the code words joined. *)
Lemma join_codes_ok codebook data :
  (forall ch, In ch data -> dict_get codebook ch <> None) ->
  exists bits,
    join_codes codebook data = Ok bits
    /\ Z.of_nat (length bits) = sum_over (code_len codebook) data.
Proof.
  induction data as [|ch data IH]; intros Hall.
  - exists []. split; reflexivity.
  - destruct IH as (rest & Hrest & Hlen).
    { intros c Hc. apply Hall. now right. }
    cbn [join_codes]. unfold sum_over. cbn [fold_right].
    fold (sum_over (code_len codebook) data). unfold code_len at 1.
    destruct (dict_get codebook ch) as [code|] eqn:E.
    + rewrite Hrest. cbn [bind]. exists (code ++ rest).
      split; [reflexivity|]. rewrite length_app. lia.
    + exfalso. apply (Hall ch); [now left|exact E].
Qed.

Lemma leaf_codes_keys n : forall code,
  map fst (leaf_codes n code) = map fst (leaves n).
Proof.
  induction n as [ch fr l r IHl IHr] using HuffmanNode_ind. intros code.
  destruct ch as [ch|]; [reflexivity|]. simpl. rewrite !map_app.
  f_equal.
  - destruct l as [l|]; [apply IHl|]; reflexivity.
  - destruct r as [r|]; [apply IHr|]; reflexivity.
Qed.

(** The bits taken by the leaves below a node, when the codebook holds the
    code words written below that node. *)
Lemma weighted_code_len_cost codebook n : forall code,
  (forall k w, In (k, w) (leaf_codes n code) ->
               dict_get codebook k = Some w) ->
  weighted (code_len codebook) (leaves n)
  = cost n + Z.of_nat (length code) * sum_freq (leaves n).
Proof.
  induction n as [ch fr l r IHl IHr] using HuffmanNode_ind.
  intros code Hcb. destruct ch as [ch|].
  - simpl in *. unfold weighted, sum_freq, code_len. simpl.
    rewrite (Hcb ch code) by now left. lia.
  - cbn [leaves cost leaf_codes] in *.
    rewrite weighted_app, sum_freq_app.
    assert (Hl : weighted (code_len codebook)
                   (match l with Some l' => leaves l' | None => [] end)
                 = (match l with
                    | Some l' => cost l' + sum_freq (leaves l')
                    | None => 0
                    end)
                   + Z.of_nat (length code)
                     * sum_freq
                         (match l with Some l' => leaves l' | None => [] end)).
    { destruct l as [l|]; [|unfold weighted, sum_freq; simpl; lia].
      rewrite (IHl l eq_refl (code ++ [c0])).
      - rewrite length_app. simpl length. lia.
      - intros k w Hin. apply Hcb. apply in_or_app. now left. }
    assert (Hr : weighted (code_len codebook)
                   (match r with Some r' => leaves r' | None => [] end)
                 = (match r with
                    | Some r' => cost r' + sum_freq (leaves r')
                    | None => 0
                    end)
                   + Z.of_nat (length code)
                     * sum_freq
                         (match r with Some r' => leaves r' | None => [] end)).
    { destruct r as [r|]; [|unfold weighted, sum_freq; simpl; lia].
      rewrite (IHr r eq_refl (code ++ [c1])).
      - rewrite length_app. simpl length. lia.
      - intros k w Hin. apply Hcb. apply in_or_app. now right. }
    rewrite Hl, Hr. lia.
Qed.

(** ** Weights against code lengths

    The bound on the cost of the tree compares the greedy merges with an
    assignment of code lengths that satisfies the Kraft inequality.  The
    weights are kept in ascending order and the lengths in descending order,
    so that the smallest weights face the longest codes. *)

Section WeightsAndLengths.

Lemma insert_asc_perm w ws : Permutation (insert_asc w ws) (w :: ws).
Proof.
  induction ws as [|a ws IH]; simpl; [reflexivity|].
  destruct (w <=? a); [reflexivity|].
  rewrite IH. apply perm_swap.
Qed.

Lemma sort_asc_perm ws : Permutation (sort_asc ws) ws.
Proof.
  induction ws as [|a ws IH]; simpl; [reflexivity|].
  rewrite insert_asc_perm. apply perm_skip. exact IH.
Qed.

Lemma insert_asc_head w ws :
  List.Forall (Z.le w) ws -> insert_asc w ws = w :: ws.
Proof.
  destruct ws as [|a ws]; [reflexivity|].
  intros H. apply List.Forall_cons_iff in H. destruct H as [H _].
  simpl. apply Z.leb_le in H. rewrite H. reflexivity.
Qed.

Lemma insert_asc_sorted w ws :
  StronglySorted Z.le ws -> StronglySorted Z.le (insert_asc w ws).
Proof.
  induction ws as [|a ws IH]; intros Hs; simpl.
  - repeat constructor.
  - apply StronglySorted_inv in Hs. destruct Hs as [Hs Ha].
    destruct (Z.leb_spec w a).
    + constructor; [constructor; assumption|].
      constructor; [assumption|].
      eapply List.Forall_impl; [|exact Ha]. intros; simpl in *; lia.
    + constructor; [apply IH; exact Hs|].
      apply (Permutation_Forall (Permutation_sym (insert_asc_perm w ws))).
      constructor; [lia|exact Ha].
Qed.

Lemma sort_asc_sorted ws : StronglySorted Z.le (sort_asc ws).
Proof.
  induction ws as [|a ws IH]; simpl; [constructor|].
  apply insert_asc_sorted. exact IH.
Qed.

Lemma insert_asc_comm a b ws :
  insert_asc a (insert_asc b ws) = insert_asc b (insert_asc a ws).
Proof.
  induction ws as [|x ws IH]; simpl.
  - destruct (Z.leb_spec a b), (Z.leb_spec b a); try reflexivity; try lia.
    replace a with b by lia. reflexivity.
  - destruct (Z.leb_spec b x), (Z.leb_spec a x); simpl;
      destruct (Z.leb_spec a b), (Z.leb_spec b a);
      repeat match goal with
             | |- context [?p <=? ?q] => destruct (Z.leb_spec p q)
             end;
      try reflexivity; try lia.
    + replace a with b by lia. reflexivity.
    + rewrite IH. reflexivity.
    + rewrite IH. reflexivity.
    + rewrite IH. reflexivity.
Qed.

(** Sorting forgets the order of its input. *)
Lemma sort_asc_perm_eq ws ws' :
  Permutation ws ws' -> sort_asc ws = sort_asc ws'.
Proof.
  induction 1 as [|a l l' _ IH|a b l|l l' l'' _ IH1 _ IH2]; simpl.
  - reflexivity.
  - rewrite IH. reflexivity.
  - apply insert_asc_comm.
  - congruence.
Qed.

Lemma sort_asc_min a ws :
  List.Forall (Z.le a) ws -> sort_asc (a :: ws) = a :: sort_asc ws.
Proof.
  intros H. simpl. apply insert_asc_head.
  apply (Permutation_Forall (Permutation_sym (sort_asc_perm ws))). exact H.
Qed.

Lemma insert_desc_perm l ls : Permutation (insert_desc l ls) (l :: ls).
Proof.
  induction ls as [|b ls IH]; simpl; [reflexivity|].
  destruct (b <=? l)%nat; [reflexivity|].
  rewrite IH. apply perm_swap.
Qed.

Lemma insert_desc_head l ls :
  List.Forall (fun b => (b <= l)%nat) ls -> insert_desc l ls = l :: ls.
Proof.
  destruct ls as [|b ls]; [reflexivity|].
  intros H. apply List.Forall_cons_iff in H. destruct H as [H _].
  simpl. apply Nat.leb_le in H. rewrite H. reflexivity.
Qed.

Lemma insert_desc_sorted l ls :
  StronglySorted ge ls -> StronglySorted ge (insert_desc l ls).
Proof.
  induction ls as [|b ls IH]; intros Hs; simpl.
  - repeat constructor.
  - apply StronglySorted_inv in Hs. destruct Hs as [Hs Hb].
    destruct (Nat.leb_spec b l).
    + constructor; [constructor; assumption|].
      constructor; [lia|].
      eapply List.Forall_impl; [|exact Hb]. intros; simpl in *; lia.
    + constructor; [apply IH; exact Hs|].
      apply (Permutation_Forall (Permutation_sym (insert_desc_perm l ls))).
      constructor; [lia|exact Hb].
Qed.

Lemma length_insert_asc w ws : length (insert_asc w ws) = S (length ws).
Proof. apply (Permutation_length (insert_asc_perm w ws)). Qed.

Lemma length_insert_desc l ls : length (insert_desc l ls) = S (length ls).
Proof. apply (Permutation_length (insert_desc_perm l ls)). Qed.

Lemma dot_cons w ws l ls :
  dot (w :: ws) (l :: ls) = w * Z.of_nat l + dot ws ls.
Proof. reflexivity. Qed.

(** Rearrangement: pairing a new weight with a new length costs at least as
    much as inserting each of them at its place. *)
Lemma dot_insert ws : forall ls w l,
  length ws = length ls ->
  StronglySorted Z.le ws -> StronglySorted ge ls ->
  dot (insert_asc w ws) (insert_desc l ls) <= w * Z.of_nat l + dot ws ls.
Proof.
  induction ws as [|a ws IH]; intros [|b ls] w l Hlen Hws Hls;
    try discriminate.
  - simpl. lia.
  - apply StronglySorted_inv in Hws, Hls.
    destruct Hws as [Hws Ha], Hls as [Hls Hb].
    assert (Hlen' : length ws = length ls) by (simpl in Hlen; lia).
    cbn [insert_asc insert_desc].
    destruct (Z.leb_spec w a) as [Hwa|Hwa];
      destruct (Nat.leb_spec b l) as [Hbl|Hbl]; rewrite !dot_cons.
    + lia.
    + rewrite <- (insert_asc_head a ws Ha).
      pose proof (IH ls a l Hlen' Hws Hls). nia.
    + rewrite <- (insert_desc_head b ls Hb).
      pose proof (IH ls w b Hlen' Hws Hls). nia.
    + pose proof (IH ls w l Hlen' Hws Hls). lia.
Qed.

Lemma kraft_nonneg D ls : 0 <= kraft D ls.
Proof.
  induction ls as [|l ls IH]; simpl; [lia|].
  pose proof (Z.pow_nonneg 2 (Z.of_nat (D - l)) ltac:(lia)). lia.
Qed.

Lemma kraft_perm D ls ls' : Permutation ls ls' -> kraft D ls = kraft D ls'.
Proof. induction 1; simpl; lia. Qed.

Lemma kraft_divide D m ls :
  (m <= D)%nat -> List.Forall (fun l => (l <= m)%nat) ls ->
  (2 ^ Z.of_nat (D - m) | kraft D ls).
Proof.
  intros Hm. induction 1 as [|l ls Hl _ IH]; simpl.
  - apply Z.divide_0_r.
  - apply Z.divide_add_r; [|exact IH].
    exists (2 ^ Z.of_nat (m - l)).
    rewrite <- Z.pow_add_r by lia. f_equal. lia.
Qed.

(** The two longest codes can be merged into one code that is one bit
    shorter than the second longest, and the Kraft inequality still holds. *)
Lemma kraft_merge D l1 l2 ls :
  StronglySorted ge (l1 :: l2 :: ls) ->
  List.Forall (fun l => (l <= D)%nat) (l1 :: l2 :: ls) ->
  kraft D (l1 :: l2 :: ls) <= 2 ^ Z.of_nat D ->
  (1 <= l2)%nat /\ kraft D ((l2 - 1)%nat :: ls) <= 2 ^ Z.of_nat D.
Proof.
  intros Hs Hle Hk.
  apply StronglySorted_inv in Hs. destruct Hs as [Hs H1].
  apply StronglySorted_inv in Hs. destruct Hs as [_ H2].
  apply List.Forall_cons_iff in Hle. destruct Hle as [Hl1 Hle].
  apply List.Forall_cons_iff in Hle. destruct Hle as [Hl2 Hle].
  assert (Hdiv : (2 ^ Z.of_nat (D - l2) | kraft D (l2 :: ls))).
  { apply kraft_divide; [exact Hl2|]. constructor; [lia|].
    eapply List.Forall_impl; [|exact H2]. intros; simpl in *; lia. }
  destruct Hdiv as [q Hq].
  cbn [kraft fold_right] in Hk, Hq |- *. fold (kraft D ls) in *.
  pose proof (kraft_nonneg D ls) as Hnn.
  set (M := 2 ^ Z.of_nat (D - l2)) in *.
  assert (HM : 0 < M) by (apply Z.pow_pos_nonneg; lia).
  assert (Ht1 : 0 < 2 ^ Z.of_nat (D - l1)) by (apply Z.pow_pos_nonneg; lia).
  assert (HD : 2 ^ Z.of_nat D = M * 2 ^ Z.of_nat l2).
  { unfold M. rewrite <- Z.pow_add_r by lia. f_equal. lia. }
  assert (Hl2pos : (1 <= l2)%nat).
  { destruct l2 as [|l2]; [|lia]. exfalso.
    change (Z.of_nat 0) with 0 in HD. rewrite Z.pow_0_r in HD. lia. }
  split; [exact Hl2pos|].
  assert (H2M : 2 ^ Z.of_nat (D - (l2 - 1)) = 2 * M).
  { unfold M. replace (Z.of_nat (D - (l2 - 1))) with (Z.of_nat (D - l2) + 1)
      by lia.
    rewrite Z.pow_add_r by lia. lia. }
  rewrite H2M.
  assert (Hlt : q < 2 ^ Z.of_nat l2) by nia.
  nia.
Qed.

Lemma dot_repeat ws d :
  dot ws (repeat d (length ws)) = Z.of_nat d * sum_list ws.
Proof.
  induction ws as [|w ws IH]; simpl; [lia|]. rewrite IH. lia.
Qed.

Lemma sum_list_perm ws ws' : Permutation ws ws' -> sum_list ws = sum_list ws'.
Proof. induction 1; simpl; lia. Qed.

Lemma kraft_repeat D k : kraft D (repeat D k) = Z.of_nat k.
Proof.
  induction k as [|k IH]; [reflexivity|].
  cbn [repeat kraft fold_right]. fold (kraft D (repeat D k)).
  rewrite IH, Nat.sub_diag. simpl. lia.
Qed.

Lemma repeat_sorted_desc d k : StronglySorted ge (repeat d k).
Proof.
  induction k as [|k IH]; simpl; constructor; [exact IH|].
  apply List.Forall_forall. intros x Hx. apply repeat_spec in Hx. lia.
Qed.
End WeightsAndLengths.

(** ** The cost of the tree that [_build_huffman_tree] builds *)

Lemma node_lt_key a b : node_lt a b = (node_freq a <? node_freq b).
Proof. reflexivity. Qed.

Lemma total_cost_perm nodes nodes' :
  Permutation nodes nodes' -> total_cost nodes = total_cost nodes'.
Proof. unfold total_cost. induction 1; simpl; lia. Qed.

Lemma total_cost_cons n nodes :
  total_cost (n :: nodes) = cost n + total_cost nodes.
Proof. reflexivity. Qed.

Lemma cost_merged l r :
  cost (merged_node l r)
  = cost l + sum_freq (leaves l) + (cost r + sum_freq (leaves r)).
Proof. reflexivity. Qed.

Lemma node_ok_merged l r :
  node_ok l -> node_ok r -> node_ok (merged_node l r).
Proof.
  intros [Hl Hl'] [Hr Hr']. split; simpl; [lia|].
  rewrite sum_freq_app. lia.
Qed.

Lemma single_node_cost n l :
  node_ok n ->
  total_cost [n] <= total_cost [n] + dot (sort_asc (map node_freq [n])) [l].
Proof.
  intros [Hn _]. simpl. nia.
Qed.

(** The greedy merges cost no more than any assignment of code lengths that
    satisfies the Kraft inequality: the cost that the loop adds to the forest
    is at most the cost of giving the lengths [ls], longest first, to the
    weights of the forest, smallest first. *)
Lemma merge_loop_cost fuel : forall nodes D ls,
  heap_ordered node_freq nodes -> List.Forall node_ok nodes ->
  nodes <> [] -> (length nodes <= S fuel)%nat ->
  length ls = length nodes ->
  StronglySorted ge ls -> List.Forall (fun l => (l <= D)%nat) ls ->
  kraft D ls <= 2 ^ Z.of_nat D ->
  total_cost (merge_loop fuel nodes)
  <= total_cost nodes + dot (sort_asc (map node_freq nodes)) ls.
Proof.
  induction fuel as [|fuel IH];
    intros nodes D ls Hord Hok Hne Hfuel Hlen Hsorted HD Hkraft.
  - destruct nodes as [|n [|? ?]]; [congruence| |simpl in Hfuel; lia].
    destruct ls as [|l [|? ?]]; try discriminate.
    apply List.Forall_cons_iff in Hok. apply single_node_cost. tauto.
  - cbn [merge_loop].
    destruct (Nat.ltb_spec 1 (length nodes)) as [Hlong|Hshort].
    + destruct (heappop_ok node_lt nodes) as (l & nodes1 & Hl); [exact Hne|].
      rewrite Hl.
      pose proof (heappop_perm _ _ _ _ Hl) as Hp1.
      pose proof (Permutation_length Hp1) as Hlen1.
      destruct (heappop_ok node_lt nodes1) as (r & nodes2 & Hr).
      { intros ->. simpl in Hlen1. lia. }
      rewrite Hr. fold (merged_node l r).
      pose proof (heappop_perm _ _ _ _ Hr) as Hp2.
      pose proof (Permutation_length Hp2) as Hlen2.
      pose proof (heappush_perm node_lt nodes2 (merged_node l r)) as Hp3.
      pose proof (Permutation_length Hp3) as Hlen3.
      simpl in Hlen1, Hlen2, Hlen3.
      destruct (heappop_order node_freq node_lt node_lt_key _ _ _ Hord Hl)
        as [Hord1 Hmin1].
      destruct (heappop_order node_freq node_lt node_lt_key _ _ _ Hord1 Hr)
        as [Hord2 Hmin2].
      pose proof (heappush_order node_freq node_lt node_lt_key nodes2
                    (merged_node l r) Hord2) as Hord3.
      assert (Hok1 : List.Forall node_ok (l :: r :: nodes2)).
      { assert (Hp12 : Permutation nodes (l :: r :: nodes2))
          by (rewrite Hp1; apply perm_skip; exact Hp2).
        apply (Permutation_Forall Hp12). exact Hok. }
      apply List.Forall_cons_iff in Hok1. destruct Hok1 as [Hokl Hok1].
      apply List.Forall_cons_iff in Hok1. destruct Hok1 as [Hokr Hok2].
      assert (Hok3 : List.Forall node_ok
                       (heappush node_lt nodes2 (merged_node l r))).
      { apply (Permutation_Forall (Permutation_sym Hp3)).
        constructor; [apply node_ok_merged; assumption|exact Hok2]. }
      destruct ls as [|l1 [|l2 lrest]]; try (simpl in Hlen; lia).
      destruct (kraft_merge D l1 l2 lrest Hsorted HD Hkraft)
        as [Hl2 Hkraft'].
      pose proof Hsorted as Hsorted'.
      apply StronglySorted_inv in Hsorted'. destruct Hsorted' as [Hs1 Hge1].
      apply StronglySorted_inv in Hs1. destruct Hs1 as [Hs2 Hge2].
      apply List.Forall_cons_iff in Hge1. destruct Hge1 as [Hl12 _].
      pose proof HD as HD'.
      apply List.Forall_cons_iff in HD'. destruct HD' as [_ HD'].
      apply List.Forall_cons_iff in HD'. destruct HD' as [HD2 HDrest].
      specialize (IH (heappush node_lt nodes2 (merged_node l r)) D
                    (insert_desc (l2 - 1) lrest) Hord3 Hok3).
      assert (Hih : total_cost
                      (merge_loop fuel
                         (heappush node_lt nodes2 (merged_node l r)))
                    <= total_cost (heappush node_lt nodes2 (merged_node l r))
                       + dot (sort_asc
                                (map node_freq
                                   (heappush node_lt nodes2
                                      (merged_node l r))))
                           (insert_desc (l2 - 1) lrest)).
      { apply IH.
        - intros E. rewrite E in Hlen3. simpl in Hlen3. lia.
        - lia.
        - rewrite length_insert_desc. simpl in Hlen. lia.
        - apply insert_desc_sorted. exact Hs2.
        - apply (Permutation_Forall
                   (Permutation_sym (insert_desc_perm (l2 - 1) lrest))).
          constructor; [lia|exact HDrest].
        - rewrite (kraft_perm _ _ _ (insert_desc_perm (l2 - 1) lrest)).
          exact Hkraft'. }
      clear IH.
      rewrite (total_cost_perm _ _ Hp3), total_cost_cons, cost_merged in Hih.
      rewrite (sort_asc_perm_eq _ _ (Permutation_map node_freq Hp3)) in Hih.
      cbn [map sort_asc fold_right] in Hih.
      fold (sort_asc (map node_freq nodes2)) in Hih.
      assert (Hdot : dot (insert_asc (node_freq (merged_node l r))
                            (sort_asc (map node_freq nodes2)))
                       (insert_desc (l2 - 1) lrest)
                     <= node_freq (merged_node l r) * Z.of_nat (l2 - 1)
                        + dot (sort_asc (map node_freq nodes2)) lrest).
      { apply dot_insert.
        - rewrite (Permutation_length (sort_asc_perm _)), length_map.
          simpl in Hlen. lia.
        - apply sort_asc_sorted.
        - exact Hs2. }
      assert (Hsort : sort_asc (map node_freq nodes)
                      = node_freq l :: node_freq r
                          :: sort_asc (map node_freq nodes2)).
      { rewrite (sort_asc_perm_eq _ (map node_freq (l :: r :: nodes2))).
        - cbn [map]. rewrite sort_asc_min.
          + f_equal. apply sort_asc_min.
            apply List.Forall_forall. intros w Hw.
            apply in_map_iff in Hw. destruct Hw as (y & <- & Hy).
            apply Hmin2. apply (Permutation_in _ (Permutation_sym Hp2)).
            right. exact Hy.
          + apply List.Forall_forall. intros w Hw.
            change (In w (map node_freq (r :: nodes2))) in Hw.
            apply in_map_iff in Hw. destruct Hw as (y & <- & Hy).
            apply Hmin1. apply (Permutation_in _ (Permutation_sym Hp1)).
            right. apply (Permutation_in _ (Permutation_sym Hp2)). exact Hy.
        - apply Permutation_map. rewrite Hp1. apply perm_skip. exact Hp2. }
      rewrite Hsort, !dot_cons.
      rewrite (total_cost_perm nodes (l :: r :: nodes2))
        by (rewrite Hp1; apply perm_skip; exact Hp2).
      rewrite !total_cost_cons.
      destruct Hokl as [Hl0 Hlsum], Hokr as [Hr0 Hrsum].
      rewrite <- Hlsum, <- Hrsum in Hih.
      change (node_freq (merged_node l r))
        with (node_freq l + node_freq r) in Hdot, Hih.
      assert (Hmul : node_freq l * Z.of_nat l2 <= node_freq l * Z.of_nat l1)
        by (apply Z.mul_le_mono_nonneg_l; lia).
      rewrite Nat2Z.inj_sub in Hdot by lia.
      lia.
    + destruct nodes as [|n [|? ?]]; [congruence| |simpl in Hshort; lia].
      destruct ls as [|l [|? ?]]; try discriminate.
      apply List.Forall_cons_iff in Hok. apply single_node_cost. tauto.
Qed.

(** ** The length of the encoded stream *)

Lemma total_cost_leaf_nodes frequency :
  total_cost (map leaf_node frequency) = 0.
Proof.
  induction frequency as [|e frequency IH]; [reflexivity|].
  cbn [map]. rewrite total_cost_cons, IH. reflexivity.
Qed.

Lemma node_freq_leaf_nodes frequency :
  map node_freq (map leaf_node frequency) = map snd frequency.
Proof. rewrite map_map. reflexivity. Qed.

Lemma sum_list_snd frequency : sum_list (map snd frequency) = sum_freq frequency.
Proof. reflexivity. Qed.

(** The cost of the tree built from a table with at most [2^D] symbols is at
    most what codes of [D] bits would cost. *)
Lemma build_huffman_tree_cost D frequency :
  frequency <> [] ->
  List.Forall (fun e => 1 <= snd e) frequency ->
  Z.of_nat (length frequency) <= 2 ^ Z.of_nat D ->
  cost (_build_huffman_tree frequency) <= Z.of_nat D * sum_freq frequency.
Proof.
  intros Hne Hpos Hsize.
  pose proof (merge_loop_cost
                (length (heapify node_lt (map leaf_node frequency)))
                (heapify node_lt (map leaf_node frequency)) D
                (repeat D (length frequency))) as Hcost.
  rewrite build_huffman_tree_root in Hcost by exact Hne.
  set (nodes := heapify node_lt (map leaf_node frequency)) in *.
  assert (Hperm : Permutation nodes (map leaf_node frequency))
    by apply heapify_perm.
  assert (Hlen : length nodes = length frequency)
    by (rewrite (Permutation_length Hperm); apply length_map).
  assert (Hdot : dot (sort_asc (map node_freq nodes))
                   (repeat D (length frequency))
                 = Z.of_nat D * sum_freq frequency).
  { replace (length frequency)
      with (length (sort_asc (map node_freq nodes)))
      by (rewrite (Permutation_length (sort_asc_perm _)), length_map;
          exact Hlen).
    rewrite dot_repeat, (sum_list_perm _ _ (sort_asc_perm _)).
    rewrite (sum_list_perm _ _ (Permutation_map node_freq Hperm)).
    rewrite node_freq_leaf_nodes. reflexivity. }
  rewrite Hdot, (total_cost_perm _ _ Hperm), total_cost_leaf_nodes in Hcost.
  rewrite total_cost_cons in Hcost. unfold total_cost in Hcost at 1.
  simpl fold_right in Hcost.
  assert (H : cost (_build_huffman_tree frequency) + 0
              <= 0 + Z.of_nat D * sum_freq frequency); [|lia].
  apply Hcost.
  - apply heapify_order. exact node_lt_key.
  - apply (Permutation_Forall (Permutation_sym Hperm)).
    apply List.Forall_forall. intros n Hn. apply in_map_iff in Hn.
    destruct Hn as ([ch fr] & <- & Hin).
    rewrite List.Forall_forall in Hpos. apply Hpos in Hin. simpl in Hin.
    split; simpl; [lia|]. unfold sum_freq. simpl. lia.
  - intros E. rewrite E in Hlen. destruct frequency; [congruence|].
    discriminate.
  - lia.
  - rewrite repeat_length. lia.
  - apply repeat_sorted_desc.
  - apply List.Forall_forall. intros l Hl. apply repeat_spec in Hl. lia.
  - rewrite kraft_repeat. lia.
Qed.

(** What [encode] returns on a non-empty text: it never raises [KeyError],
    and the stream has as many bits as the cost of the tree. *)
Lemma encode_length self ch data :
  exists bits,
    fst (encode self (ch :: data))
    = Ok (bits, _build_frequency_table (ch :: data))
    /\ Z.of_nat (length bits)
       = cost (_build_huffman_tree (_build_frequency_table (ch :: data))).
Proof.
  set (text := ch :: data).
  set (frequency := _build_frequency_table text).
  set (tree := _build_huffman_tree frequency).
  destruct (build_frequency_table_spec text) as (Hwf & Hpos & Hkeys & Hsum).
  fold frequency in Hwf, Hpos, Hkeys, Hsum.
  assert (Hne : frequency <> []).
  { intros E. assert (Hin : In ch (map fst frequency))
      by (apply Hkeys; now left).
    rewrite E in Hin. destruct Hin. }
  pose proof (build_huffman_tree_leaves frequency Hne) as Hleaves.
  fold tree in Hleaves.
  assert (Hcwf : dict_wf (leaf_codes tree [])).
  { unfold dict_wf. rewrite leaf_codes_keys.
    apply (Permutation_NoDup
             (Permutation_sym (Permutation_map fst Hleaves))).
    exact Hwf. }
  assert (Hcb : _codebook (snd (encode self text)) = leaf_codes tree []).
  { unfold text. rewrite encode_coder. cbv zeta. cbn [_codebook].
    fold text. fold frequency. fold tree.
    rewrite dict_of_items_fresh by exact Hcwf. reflexivity. }
  destruct (join_codes_ok (leaf_codes tree []) text) as (bits & Hbits & Hlen).
  { intros c Hc Hno. apply dict_get_None in Hno. apply Hno.
    rewrite leaf_codes_keys.
    apply (Permutation_in _ (Permutation_sym (Permutation_map fst Hleaves))).
    apply Hkeys. exact Hc. }
  exists bits. split.
  - unfold encode. cbn [fst]. unfold text in Hcb. unfold encode in Hcb.
    cbn [snd] in Hcb. fold text in Hcb |- *. rewrite Hcb, Hbits. reflexivity.
  - rewrite Hlen, <- Hsum.
    rewrite <- (weighted_perm _ _ _ Hleaves).
    rewrite (weighted_code_len_cost (leaf_codes tree []) tree []).
    + simpl. lia.
    + intros k w Hin. apply dict_get_In_wf; assumption.
Qed.

(** With at most [2^D] distinct symbols the stream takes at most [D] bits per
    character. *)
Lemma encode_length_le D self data :
  Z.of_nat (length (nodup Z.eq_dec data)) <= 2 ^ Z.of_nat D ->
  exists bits frequency,
    fst (encode self data) = Ok (bits, frequency)
    /\ Z.of_nat (length bits) <= Z.of_nat D * Z.of_nat (length data).
Proof.
  intros Hdistinct. destruct data as [|ch data].
  - exists [], []. split; [reflexivity|]. simpl. lia.
  - destruct (encode_length self ch data) as (bits & Hbits & Hlen).
    exists bits, (_build_frequency_table (ch :: data)).
    split; [exact Hbits|]. rewrite Hlen.
    rewrite <- build_frequency_table_total.
    destruct (build_frequency_table_spec (ch :: data))
      as (_ & Hpos & Hkeys & _).
    apply build_huffman_tree_cost.
    + intros E. assert (Hin : In ch (map fst (_build_frequency_table
                                                (ch :: data))))
        by (apply Hkeys; now left).
      rewrite E in Hin. destruct Hin.
    + exact Hpos.
    + pose proof (build_frequency_table_length (ch :: data)). lia.
Qed.

(** C8. Compression sanity: for a text with at most 256 distinct symbols,
    [encode] returns a stream of at most 8 bits per symbol of the text. *)
Theorem encoded_length_at_most_8_bits_per_symbol self data :
  (length (nodup Z.eq_dec data) <= 256)%nat ->
  exists bits frequency,
    fst (encode self data) = Ok (bits, frequency)
    /\ Z.of_nat (length bits) <= 8 * Z.of_nat (length data).
Proof.
  intros Hdistinct. apply (encode_length_le 8 self data).
  change (2 ^ Z.of_nat 8) with 256. lia.
Qed.

Lemma encoded_length_at_most_8_bits_per_symbol_witness :
  exists bits frequency,
    fst (encode new_coder [97; 97; 97; 97; 97; 97; 97; 97; 98])
    = Ok (bits, frequency)
    /\ Z.of_nat (length bits)
       <= 8 * Z.of_nat (length [97; 97; 97; 97; 97; 97; 97; 97; 98]).
Proof.
  apply encoded_length_at_most_8_bits_per_symbol.
  vm_compute. lia.
Defined.

(** ** The frequency table, entry by entry *)

Lemma dict_get_count_char d c ch :
  dict_get (count_char d c) ch
  = if Z.eqb c ch
    then Some (match dict_get d ch with Some n => n + 1 | None => 1 end)
    else dict_get d ch.
Proof.
  unfold count_char. destruct (Z.eqb_spec c ch) as [->|Hne].
  - destruct (dict_get d ch) as [n|]; rewrite dict_get_set, Z.eqb_refl;
      reflexivity.
  - apply Z.eqb_neq in Hne.
    destruct (dict_get d c) as [n|]; rewrite dict_get_set, Hne; reflexivity.
Qed.

Lemma occurrences_cons c data ch :
  occurrences (c :: data) ch
  = (if Z.eqb c ch then 1 else 0) + occurrences data ch.
Proof.
  unfold occurrences. cbn [count_occ].
  destruct (Z.eq_dec c ch) as [->|Hne].
  - rewrite Z.eqb_refl. lia.
  - apply Z.eqb_neq in Hne. rewrite Hne. lia.
Qed.

Lemma occurrences_nonneg data ch : 0 <= occurrences data ch.
Proof. unfold occurrences. lia. Qed.

(** The entry of [ch] after the loop has run over [data], from the table
    before the loop. *)
Lemma dict_get_count_chars data ch : forall d,
  dict_get (fold_left count_char data d) ch
  = match dict_get d ch with
    | Some n => Some (n + occurrences data ch)
    | None => if 0 <? occurrences data ch
              then Some (occurrences data ch) else None
    end.
Proof.
  induction data as [|c data IH]; intros d.
  - cbn [fold_left]. unfold occurrences. simpl.
    destruct (dict_get d ch) as [n|]; [|reflexivity].
    rewrite Z.add_0_r. reflexivity.
  - cbn [fold_left]. rewrite IH, dict_get_count_char, occurrences_cons.
    pose proof (occurrences_nonneg data ch) as Hnn.
    destruct (Z.eqb_spec c ch) as [->|Hne].
    + destruct (dict_get d ch) as [n|].
      * f_equal; lia.
      * destruct (Z.ltb_spec 0 (1 + occurrences data ch)); [|lia].
        f_equal; lia.
    + destruct (dict_get d ch) as [n|]; reflexivity.
Qed.

(** X1. The table that [_build_frequency_table] returns maps every character
    of the text to the number of its occurrences, and has no entry for a
    character that the text does not contain. *)
Theorem frequency_table_counts_occurrences data ch :
  dict_get (_build_frequency_table data) ch
  = if 0 <? occurrences data ch then Some (occurrences data ch) else None.
Proof.
  rewrite build_frequency_table_fold, dict_get_count_chars. reflexivity.
Qed.

Lemma distinct_keys_perm data :
  Permutation (map fst (_build_frequency_table data)) (distinct data).
Proof.
  destruct (build_frequency_table_spec data) as (Hwf & _ & Hkeys & _).
  apply Permutation.NoDup_Permutation.
  - exact Hwf.
  - apply List.NoDup_nodup.
  - intros k. rewrite Hkeys. unfold distinct. rewrite nodup_In. tauto.
Qed.

(** X2. The table has one entry for each distinct character of the text, no
    key twice, every frequency is at least 1, and the frequencies add up to
    the length of the text. *)
Theorem frequency_table_entries_and_total data :
  dict_wf (_build_frequency_table data)
  /\ Permutation (map fst (_build_frequency_table data)) (distinct data)
  /\ List.Forall (fun e => 1 <= snd e) (_build_frequency_table data)
  /\ sum_freq (_build_frequency_table data) = Z.of_nat (length data).
Proof.
  destruct (build_frequency_table_spec data) as (Hwf & Hpos & _ & _).
  split; [exact Hwf|]. split; [apply distinct_keys_perm|].
  split; [exact Hpos|]. apply build_frequency_table_total.
Qed.

(** ** The shape of the tree and the code words read off it *)

Lemma shape_ok_leaf_node e : every_node shape_ok (leaf_node e).
Proof. destruct e as [ch fr]. simpl. unfold shape_ok. simpl. tauto. Qed.

Lemma shape_ok_merged_node l r : shape_ok (merged_node l r).
Proof. exact I. Qed.

(** All the nodes of the tree are leaves or merged nodes. *)
Lemma build_huffman_tree_shape frequency :
  frequency <> [] ->
  every_node shape_ok (_build_huffman_tree frequency).
Proof.
  intros Hne.
  pose proof (merge_loop_ind (List.Forall (every_node shape_ok))) as Hind.
  specialize (Hind ltac:(
    intros nodes l nodes1 r nodes2 _ Hl Hr HP;
    destruct (merge_step_perm _ _ _ _ _ Hl Hr) as [H1 H2];
    apply (Permutation_Forall (Permutation_sym H2));
    apply (Permutation_Forall H1) in HP;
    apply List.Forall_cons_iff in HP; destruct HP as [HPl HP];
    apply List.Forall_cons_iff in HP; destruct HP as [HPr HP];
    apply List.Forall_cons; [|exact HP];
    apply every_node_merged; [|exact HPl|exact HPr];
    apply shape_ok_merged_node)).
  specialize (Hind (length (heapify node_lt (map leaf_node frequency)))
                (heapify node_lt (map leaf_node frequency))).
  rewrite build_huffman_tree_root in Hind by exact Hne.
  assert (H : List.Forall (every_node shape_ok)
                (heapify node_lt (map leaf_node frequency))).
  { apply (Permutation_Forall (Permutation_sym (heapify_perm node_lt _))).
    apply List.Forall_forall. intros n Hin. apply in_map_iff in Hin.
    destruct Hin as (e & <- & _). apply shape_ok_leaf_node. }
  apply Hind in H. apply List.Forall_cons_iff in H. tauto.
Qed.

(** What [shape_ok] says of a node, by cases. *)
Lemma every_node_shape_inv n :
  every_node shape_ok n ->
  (exists ch fr, n = mkNode (Some ch) fr None None)
  \/ (exists fr l r, n = mkNode None fr (Some l) (Some r)
                     /\ every_node shape_ok l /\ every_node shape_ok r).
Proof.
  destruct n as [[ch|] fr [l|] [r|]]; cbn [every_node]; unfold shape_ok;
    cbn [node_char node_left node_right]; intros (Hs & Hl & Hr);
    try contradiction.
  - left. eauto.
  - right. exists fr, l, r. auto.
Qed.

Lemma leaves_merged fr l r :
  leaves (mkNode None fr (Some l) (Some r)) = leaves l ++ leaves r.
Proof. reflexivity. Qed.

Lemma height_merged fr l r :
  height (mkNode None fr (Some l) (Some r))
  = Nat.max (S (height l)) (S (height r)).
Proof. reflexivity. Qed.

Lemma leaf_codes_merged fr l r code :
  leaf_codes (mkNode None fr (Some l) (Some r)) code
  = leaf_codes l (code ++ [c0]) ++ leaf_codes r (code ++ [c1]).
Proof. reflexivity. Qed.

(** A tree of leaves and merged nodes is less high than it has leaves. *)
Lemma height_lt_leaves n :
  every_node shape_ok n -> (height n < length (leaves n))%nat.
Proof.
  induction n as [ch fr l r IHl IHr] using HuffmanNode_ind. intros Hn.
  destruct (every_node_shape_inv _ Hn)
    as [(c & f & E)|(f & l' & r' & E & Hl & Hr)]; inversion E; subst.
  - simpl. lia.
  - rewrite leaves_merged, height_merged, length_app.
    pose proof (IHl l' eq_refl Hl). pose proof (IHr r' eq_refl Hr). lia.
Qed.

(** A node with two leaves or more below it is a merged node. *)
Lemma two_leaves_merged n :
  every_node shape_ok n -> (2 <= length (leaves n))%nat -> node_char n = None.
Proof.
  intros Hn Hlen.
  destruct (every_node_shape_inv _ Hn)
    as [(c & f & ->)|(f & l' & r' & -> & _)]; [simpl in Hlen; lia|].
  reflexivity.
Qed.

(** The code words below a node: the code of the node, then at most as many
    characters as the node is high, all ['0'] or ['1']. *)
Lemma leaf_codes_words n : forall code k w,
  In (k, w) (leaf_codes n code) ->
  exists s, w = code ++ s /\ is_bits s /\ (length s <= height n)%nat.
Proof.
  induction n as [ch fr l r IHl IHr] using HuffmanNode_ind.
  intros code k w Hin. destruct ch as [ch|].
  - destruct Hin as [Hin|[]]. inversion Hin; subst.
    exists []. rewrite app_nil_r. split; [reflexivity|].
    split; [constructor|simpl; lia].
  - cbn [leaf_codes] in Hin. apply in_app_or in Hin.
    destruct Hin as [Hin|Hin].
    + destruct l as [l|]; [|destruct Hin].
      destruct (IHl l eq_refl _ _ _ Hin) as (s & -> & Hs & Hlen).
      exists (c0 :: s). rewrite <- app_assoc. split; [reflexivity|].
      split; [constructor; [now left|exact Hs]|].
      cbn [height length]. lia.
    + destruct r as [r|]; [|destruct Hin].
      destruct (IHr r eq_refl _ _ _ Hin) as (s & -> & Hs & Hlen).
      exists (c1 :: s). rewrite <- app_assoc. split; [reflexivity|].
      split; [constructor; [now right|exact Hs]|].
      cbn [height length]. lia.
Qed.

(** The codebook after [encode], on a text that is not empty. *)
Lemma encode_codebook self ch data :
  let tree := _build_huffman_tree (_build_frequency_table (ch :: data)) in
  _codebook (snd (encode self (ch :: data))) = leaf_codes tree []
  /\ _tree (snd (encode self (ch :: data))) = Some tree
  /\ Permutation (map fst (leaf_codes tree [])) (distinct (ch :: data))
  /\ every_node shape_ok tree.
Proof.
  intros tree.
  set (text := ch :: data) in *.
  set (frequency := _build_frequency_table text) in *.
  destruct (build_frequency_table_spec text) as (Hwf & _ & Hkeys & _).
  fold frequency in Hwf, Hkeys.
  assert (Hne : frequency <> []).
  { intros E. assert (Hin : In ch (map fst frequency))
      by (apply Hkeys; now left).
    rewrite E in Hin. destruct Hin. }
  pose proof (build_huffman_tree_leaves frequency Hne) as Hleaves.
  fold tree in Hleaves.
  assert (Hperm : Permutation (map fst (leaf_codes tree []))
                    (map fst frequency)).
  { rewrite leaf_codes_keys. apply Permutation_map. exact Hleaves. }
  assert (Hcwf : dict_wf (leaf_codes tree [])).
  { unfold dict_wf.
    apply (Permutation_NoDup (Permutation_sym Hperm)). exact Hwf. }
  unfold text. rewrite encode_coder. cbv zeta. cbn [_codebook _tree].
  fold text. fold frequency. fold tree.
  split; [apply dict_of_items_fresh; exact Hcwf|].
  split; [reflexivity|]. split.
  - rewrite Hperm. apply distinct_keys_perm.
  - apply build_huffman_tree_shape. exact Hne.
Qed.

(** X3. The tree built from a table that is not empty is made of leaves,
    which carry a symbol and have no child, and of merged nodes, which carry
    no symbol and have two children; its leaves are the entries of the table,
    each once; and it is less high than the table has entries. *)
Theorem tree_shape_and_leaves frequency :
  frequency <> [] ->
  every_node shape_ok (_build_huffman_tree frequency)
  /\ Permutation (leaves (_build_huffman_tree frequency)) frequency
  /\ (height (_build_huffman_tree frequency) < length frequency)%nat.
Proof.
  intros Hne.
  pose proof (build_huffman_tree_shape frequency Hne) as Hshape.
  pose proof (build_huffman_tree_leaves frequency Hne) as Hleaves.
  split; [exact Hshape|]. split; [exact Hleaves|].
  rewrite <- (Permutation_length Hleaves). apply height_lt_leaves, Hshape.
Qed.

Lemma tree_shape_and_leaves_witness :
  every_node shape_ok (_build_huffman_tree [(97, 5); (98, 2); (99, 1)])
  /\ Permutation (leaves (_build_huffman_tree [(97, 5); (98, 2); (99, 1)]))
       [(97, 5); (98, 2); (99, 1)]
  /\ Nat.lt (height (_build_huffman_tree [(97, 5); (98, 2); (99, 1)]))
       (length [(97, 5); (98, 2); (99, 1)]).
Proof.
  apply tree_shape_and_leaves. discriminate.
Defined.

(** X4. After [encode] the codebook has a code word for every character of
    the text and for no other character; every code word is a string of
    ['0'] and ['1'], shorter than the text has distinct characters. *)
Theorem codebook_covers_text self data ch :
  data <> [] ->
  (In ch data <-> dict_get (_codebook (snd (encode self data))) ch <> None)
  /\ forall w,
       dict_get (_codebook (snd (encode self data))) ch = Some w ->
       is_bits w /\ (length w < length (distinct data))%nat.
Proof.
  intros Hne. destruct data as [|c data]; [congruence|].
  destruct (encode_codebook self c data) as (Hcb & _ & Hperm & Hshape).
  cbv zeta in Hcb, Hperm, Hshape. rewrite Hcb.
  set (tree := _build_huffman_tree (_build_frequency_table (c :: data))) in *.
  split.
  - rewrite dict_get_None.
    assert (Hk : In ch (map fst (leaf_codes tree [])) <-> In ch (c :: data)).
    { split; intros H.
      - apply (Permutation_in _ Hperm) in H. unfold distinct in H.
        apply nodup_In in H. exact H.
      - apply (Permutation_in _ (Permutation_sym Hperm)).
        unfold distinct. apply nodup_In. exact H. }
    rewrite <- Hk.
    destruct (in_dec Z.eq_dec ch (map fst (leaf_codes tree []))); tauto.
  - intros w Hw. apply dict_get_In in Hw.
    destruct (leaf_codes_words _ _ _ _ Hw) as (s & -> & Hs & Hlen).
    cbn [app]. split; [exact Hs|].
    pose proof (height_lt_leaves tree Hshape) as Hh.
    rewrite <- (Permutation_length Hperm), leaf_codes_keys, length_map. lia.
Qed.

Lemma codebook_covers_text_witness :
  (In 98 [97; 98; 97; 99]
   <-> dict_get (_codebook (snd (encode new_coder [97; 98; 97; 99]))) 98
       <> None)
  /\ forall w,
       dict_get (_codebook (snd (encode new_coder [97; 98; 97; 99]))) 98
       = Some w ->
       is_bits w /\ Nat.lt (length w) (length (distinct [97; 98; 97; 99])).
Proof.
  apply codebook_covers_text. discriminate.
Defined.

(** ** [decode] on the trees of the builder *)

(** One turn of the loop of [decode]. *)
Lemma decode_loop_step tree (bit : char) rest n acc next :
  (if Z.eqb bit c0 then node_left n else node_right n) = Some next ->
  decode_loop tree (bit :: rest) n acc
  = match node_char next with
    | Some ch => decode_loop tree rest tree (acc ++ [ch])
    | None => decode_loop tree rest next acc
    end.
Proof. intros H. cbn [decode_loop]. rewrite H. reflexivity. Qed.

(** With a tree, [decode] is its loop: on the empty string the loop returns
    the empty text as the early return does. *)
Lemma decode_with_tree codebook tree encoded_data :
  decode (mkCoder codebook (Some tree)) encoded_data
  = decode_loop tree encoded_data tree [].
Proof. destruct encoded_data; reflexivity. Qed.

(** Reading a code word from the node it was written below leads to its leaf:
    the loop appends the symbol and goes back to the root. *)
Lemma decode_loop_code_word n : forall code k w,
  every_node shape_ok n -> node_char n = None ->
  In (k, w) (leaf_codes n code) ->
  exists s,
    w = code ++ s
    /\ forall tree rest acc,
         decode_loop tree (s ++ rest) n acc
         = decode_loop tree rest tree (acc ++ [k]).
Proof.
  induction n as [ch fr l r IHl IHr] using HuffmanNode_ind.
  intros code k w Hn Hchar Hin.
  destruct (every_node_shape_inv _ Hn)
    as [(c & f & E)|(f & l' & r' & E & Hl & Hr)]; inversion E; subst;
    [discriminate|].
  rewrite leaf_codes_merged in Hin. apply in_app_or in Hin.
  destruct Hin as [Hin|Hin].
  - destruct (every_node_shape_inv _ Hl)
      as [(c & fl & El)|(fl & ll & rl & El & _)]; subst l'.
    + destruct Hin as [Hin|[]]. inversion Hin; subst.
      exists [c0]. split; [reflexivity|]. intros tree rest acc.
      cbn [app]. erewrite decode_loop_step by reflexivity.
      reflexivity.
    + destruct (IHl _ eq_refl _ _ _ Hl eq_refl Hin) as (s & -> & Hs).
      exists (c0 :: s). rewrite <- app_assoc. split; [reflexivity|].
      intros tree rest acc. cbn [app].
      erewrite decode_loop_step by reflexivity.
      apply Hs.
  - destruct (every_node_shape_inv _ Hr)
      as [(c & fl & El)|(fl & ll & rl & El & _)]; subst r'.
    + destruct Hin as [Hin|[]]. inversion Hin; subst.
      exists [c1]. split; [reflexivity|]. intros tree rest acc.
      cbn [app]. erewrite decode_loop_step by reflexivity.
      reflexivity.
    + destruct (IHr _ eq_refl _ _ _ Hr eq_refl Hin) as (s & -> & Hs).
      exists (c1 :: s). rewrite <- app_assoc. split; [reflexivity|].
      intros tree rest acc. cbn [app].
      erewrite decode_loop_step by reflexivity.
      apply Hs.
Qed.

(** The loop of [decode] over the code words of a text, joined. *)
Lemma decode_loop_join tree codebook :
  every_node shape_ok tree -> node_char tree = None ->
  (forall k w, dict_get codebook k = Some w -> In (k, w) (leaf_codes tree [])) ->
  forall data bits acc,
    join_codes codebook data = Ok bits ->
    decode_loop tree bits tree acc = Ok (acc ++ data).
Proof.
  intros Hshape Hchar Hcb.
  induction data as [|ch data IH]; intros bits acc Hjoin.
  - inversion Hjoin; subst. rewrite app_nil_r. reflexivity.
  - cbn [join_codes] in Hjoin.
    destruct (dict_get codebook ch) as [code|] eqn:E; [|discriminate].
    destruct (join_codes codebook data) as [rest|] eqn:Erest;
      [|discriminate].
    cbn [bind] in Hjoin. inversion Hjoin; subst bits.
    destruct (decode_loop_code_word tree [] ch code Hshape Hchar
                (Hcb _ _ E)) as (s & Hs & Hloop).
    cbn [app] in Hs. subst s. rewrite Hloop, (IH rest) by reflexivity.
    rewrite <- app_assoc. reflexivity.
Qed.

(** [join] over a codebook made of bit strings is a bit string. *)
Lemma join_codes_is_bits codebook :
  (forall k w, dict_get codebook k = Some w -> is_bits w) ->
  forall data bits, join_codes codebook data = Ok bits -> is_bits bits.
Proof.
  intros Hcb. induction data as [|ch data IH]; intros bits Hjoin.
  - inversion Hjoin. constructor.
  - cbn [join_codes] in Hjoin.
    destruct (dict_get codebook ch) as [code|] eqn:E; [|discriminate].
    destruct (join_codes codebook data) as [rest|] eqn:Erest;
      [|discriminate].
    cbn [bind] in Hjoin. inversion Hjoin; subst bits.
    apply is_bits_app. split; [eapply Hcb; exact E|apply IH; reflexivity].
Qed.

Lemma leaf_codes_is_bits tree k w :
  In (k, w) (leaf_codes tree []) -> is_bits w.
Proof.
  intros Hin. destruct (leaf_codes_words _ _ _ _ Hin) as (s & -> & Hs & _).
  exact Hs.
Qed.

(** The codebook that [_build_codebook] writes for the tree of a table. *)
Lemma build_codebook_of_table frequency :
  dict_wf frequency -> frequency <> [] ->
  let tree := _build_huffman_tree frequency in
  _build_codebook (mkCoder [] (Some tree))
  = mkCoder (leaf_codes tree []) (Some tree)
  /\ Permutation (map fst (leaf_codes tree [])) (map fst frequency).
Proof.
  intros Hwf Hne tree.
  pose proof (build_huffman_tree_leaves frequency Hne) as Hleaves.
  fold tree in Hleaves.
  assert (Hperm : Permutation (map fst (leaf_codes tree []))
                    (map fst frequency)).
  { rewrite leaf_codes_keys. apply Permutation_map. exact Hleaves. }
  split; [|exact Hperm].
  rewrite build_codebook_spec. f_equal. apply dict_of_items_fresh.
  cbn [app]. apply (Permutation_NoDup (Permutation_sym Hperm)). exact Hwf.
Qed.

(** Messages over the alphabet of a table with two symbols or more. *)
Lemma decode_table_message frequency data :
  dict_wf frequency -> (2 <= length frequency)%nat ->
  (forall ch, In ch data -> In ch (map fst frequency)) ->
  let tree := _build_huffman_tree frequency in
  exists bits,
    join_codes (leaf_codes tree []) data = Ok bits
    /\ is_bits bits
    /\ decode_loop tree bits tree [] = Ok data.
Proof.
  intros Hwf Hlen Hdata tree.
  assert (Hne : frequency <> []) by (intros ->; simpl in Hlen; lia).
  destruct (build_codebook_of_table frequency Hwf Hne) as [_ Hperm].
  fold tree in Hperm.
  pose proof (build_huffman_tree_shape frequency Hne) as Hshape.
  pose proof (build_huffman_tree_leaves frequency Hne) as Hleaves.
  fold tree in Hshape, Hleaves.
  assert (Hchar : node_char tree = None).
  { apply two_leaves_merged; [exact Hshape|].
    rewrite (Permutation_length Hleaves). exact Hlen. }
  destruct (join_codes_ok (leaf_codes tree []) data) as (bits & Hbits & _).
  { intros c Hc Hno. apply dict_get_None in Hno. apply Hno.
    apply (Permutation_in _ (Permutation_sym Hperm)). apply Hdata, Hc. }
  exists bits. split; [exact Hbits|]. split.
  - apply (join_codes_is_bits (leaf_codes tree [])) with (data := data);
      [|exact Hbits].
    intros k w Hw. apply dict_get_In in Hw. eapply leaf_codes_is_bits, Hw.
  - apply (decode_loop_join tree (leaf_codes tree []) Hshape Hchar)
      with (acc := []); [|exact Hbits].
    intros k w Hw. apply dict_get_In, Hw.
Qed.

(** X5. With the tree and the codebook built for a frequency table of two
    symbols or more, every message over the symbols of the table (not only
    the text the table was counted on) has a code word for each character,
    its code words joined are a string of ['0'] and ['1'], and [decode] gives
    the message back from them. *)
Theorem decode_inverts_codebook frequency data :
  dict_wf frequency -> (2 <= length frequency)%nat ->
  (forall ch, In ch data -> In ch (map fst frequency)) ->
  let coder :=
    _build_codebook (mkCoder [] (Some (_build_huffman_tree frequency))) in
  exists bits,
    join_codes (_codebook coder) data = Ok bits
    /\ is_bits bits
    /\ decode coder bits = Ok data.
Proof.
  intros Hwf Hlen Hdata.
  assert (Hne : frequency <> []) by (intros ->; simpl in Hlen; lia).
  destruct (build_codebook_of_table frequency Hwf Hne) as [Hcoder _].
  cbv zeta in Hcoder |- *. rewrite Hcoder. cbn [_codebook].
  destruct (decode_table_message frequency data Hwf Hlen Hdata)
    as (bits & Hbits & Hb & Hdec).
  exists bits. split; [exact Hbits|]. split; [exact Hb|].
  rewrite decode_with_tree. exact Hdec.
Qed.

Lemma decode_inverts_codebook_witness :
  let coder :=
    _build_codebook
      (mkCoder [] (Some (_build_huffman_tree [(97, 5); (98, 2); (99, 1)]))) in
  exists bits,
    join_codes (_codebook coder) [99; 97; 98; 98; 99] = Ok bits
    /\ is_bits bits
    /\ decode coder bits = Ok [99; 97; 98; 98; 99].
Proof.
  apply decode_inverts_codebook.
  - unfold dict_wf. simpl.
    repeat (apply List.NoDup_cons; [simpl; intuition discriminate|]).
    apply List.NoDup_nil.
  - simpl. lia.
  - intros ch Hin. simpl in Hin |- *. intuition.
Defined.

(** What [encode] returns on a text with two distinct characters or more. *)
Lemma encode_two_symbols self data :
  (2 <= length (distinct data))%nat ->
  exists bits,
    fst (encode self data) = Ok (bits, _build_frequency_table data)
    /\ is_bits bits
    /\ decode_loop (_build_huffman_tree (_build_frequency_table data)) bits
         (_build_huffman_tree (_build_frequency_table data)) []
       = Ok data
    /\ _tree (snd (encode self data))
       = Some (_build_huffman_tree (_build_frequency_table data)).
Proof.
  intros Hlen. destruct data as [|c data]; [simpl in Hlen; lia|].
  destruct (encode_codebook self c data) as (Hcb & Htree & _ & _).
  cbv zeta in Hcb, Htree.
  set (text := c :: data) in *.
  set (frequency := _build_frequency_table text) in *.
  destruct (build_frequency_table_spec text) as (Hwf & _ & Hkeys & _).
  fold frequency in Hwf, Hkeys.
  assert (Hlen' : (2 <= length frequency)%nat).
  { unfold frequency. rewrite <- (length_map fst).
    rewrite (Permutation_length (distinct_keys_perm text)). exact Hlen. }
  destruct (decode_table_message frequency text Hwf Hlen')
    as (bits & Hbits & Hb & Hdec).
  { intros ch Hin. apply Hkeys, Hin. }
  cbv zeta in Hbits, Hdec.
  exists bits. split; [|split; [exact Hb|split; [exact Hdec|exact Htree]]].
  unfold text in Hcb |- *. unfold encode in Hcb |- *. cbn [fst snd] in Hcb |- *.
  fold text in Hcb |- *. fold frequency in Hcb |- *.
  rewrite Hcb, Hbits. reflexivity.
Qed.

(** X6. Round trip of [encode] and [decode]: on a text that is empty or has
    two distinct characters or more, [encode] returns a bit string and the
    frequency table, and [decode] returns the text from the bit string, both
    on the coder that encoded and on a coder that got its tree from the
    table, as [decompress_file] does. *)
Theorem encode_decode_roundtrip self data :
  length (distinct data) <> 1%nat ->
  exists bits frequency,
    fst (encode self data) = Ok (bits, frequency)
    /\ is_bits bits
    /\ decode (snd (encode self data)) bits = Ok data
    /\ decode (mkCoder [] (Some (_build_huffman_tree frequency))) bits
       = Ok data.
Proof.
  intros Hdistinct. destruct data as [|c data].
  - exists [], []. repeat split; try reflexivity. constructor.
  - assert (Hlen : (2 <= length (distinct (c :: data)))%nat).
    { assert (In c (distinct (c :: data)))
        by (unfold distinct; apply nodup_In; now left).
      destruct (distinct (c :: data)) as [|? [|? ?]]; simpl in *;
        [tauto|congruence|lia]. }
    destruct (encode_two_symbols self (c :: data) Hlen)
      as (bits & Henc & Hb & Hdec & Htree).
    exists bits, (_build_frequency_table (c :: data)).
    split; [exact Henc|]. split; [exact Hb|]. split.
    + destruct (snd (encode self (c :: data))) as [cb tr].
      cbn [_tree] in Htree. subst tr. rewrite decode_with_tree. exact Hdec.
    + rewrite decode_with_tree. exact Hdec.
Qed.

Lemma encode_decode_roundtrip_witness :
  exists bits frequency,
    fst (encode new_coder [97; 98; 114; 97; 99; 97]) = Ok (bits, frequency)
    /\ is_bits bits
    /\ decode (snd (encode new_coder [97; 98; 114; 97; 99; 97])) bits
       = Ok [97; 98; 114; 97; 99; 97]
    /\ decode (mkCoder [] (Some (_build_huffman_tree frequency))) bits
       = Ok [97; 98; 114; 97; 99; 97].
Proof.
  apply encode_decode_roundtrip. vm_compute. lia.
Defined.

(** ** [decode] on arbitrary strings *)

(** Below a merged node the loop of [decode] finds a child, whatever the
    character read: ['0'] goes left, any other character goes right. *)
Lemma decode_child n bit :
  every_node shape_ok n -> node_char n = None ->
  exists next,
    (if Z.eqb bit c0 then node_left n else node_right n) = Some next
    /\ every_node shape_ok next
    /\ incl (leaves next) (leaves n).
Proof.
  intros Hn Hchar.
  destruct (every_node_shape_inv _ Hn)
    as [(c & f & ->)|(f & l & r & -> & Hl & Hr)]; [discriminate|].
  rewrite leaves_merged. cbn [node_left node_right].
  destruct (Z.eqb bit c0).
  - exists l. split; [reflexivity|]. split; [exact Hl|].
    apply incl_appl, incl_refl.
  - exists r. split; [reflexivity|]. split; [exact Hr|].
    apply incl_appr, incl_refl.
Qed.

(** From a merged node of a tree whose root is a merged node the loop runs to
    the end of the string: it appends symbols of the tree, at most one for
    each character read. *)
Lemma decode_loop_total tree :
  every_node shape_ok tree -> node_char tree = None ->
  forall encoded_data n acc,
    every_node shape_ok n -> node_char n = None ->
    incl (leaves n) (leaves tree) ->
    exists text,
      decode_loop tree encoded_data n acc = Ok (acc ++ text)
      /\ List.Forall (fun ch => In ch (map fst (leaves tree))) text
      /\ (length text <= length encoded_data)%nat.
Proof.
  intros Hshape Hchar.
  induction encoded_data as [|bit rest IH]; intros n acc Hn Hnchar Hincl.
  - exists []. rewrite app_nil_r. split; [reflexivity|].
    split; [constructor|simpl; lia].
  - destruct (decode_child n bit Hn Hnchar) as (next & Hnext & Hok & Hsub).
    pose proof (decode_loop_step tree bit rest n acc next Hnext) as Hstep.
    destruct (every_node_shape_inv _ Hok)
      as [(c & f & ->)|(f & l & r & -> & _)]; cbn [node_char] in Hstep.
    + destruct (IH tree (acc ++ [c]) Hshape Hchar (incl_refl _))
        as (text & Hdec & Hall & Hlen).
      exists (c :: text). rewrite Hstep, Hdec, <- app_assoc.
      split; [reflexivity|]. split; [|simpl; lia].
      constructor; [|exact Hall].
      apply in_map_iff. exists (c, f). split; [reflexivity|].
      apply Hincl, Hsub. now left.
    + destruct (IH _ acc Hok eq_refl (incl_tran Hsub Hincl))
        as (text & Hdec & Hall & Hlen).
      exists text. rewrite Hstep.
      split; [exact Hdec|]. split; [exact Hall|simpl; lia].
Qed.

(** X7. With the tree built from a frequency table of two symbols or more,
    [decode] raises on no string at all, whatever its characters: it returns
    a text made of symbols of the table, with at most one symbol for each
    character of the string. *)
Theorem decode_total_on_table_tree frequency encoded_data :
  (2 <= length frequency)%nat ->
  exists text,
    decode (mkCoder [] (Some (_build_huffman_tree frequency))) encoded_data
    = Ok text
    /\ List.Forall (fun ch => In ch (map fst frequency)) text
    /\ (length text <= length encoded_data)%nat.
Proof.
  intros Hlen.
  assert (Hne : frequency <> []) by (intros ->; simpl in Hlen; lia).
  pose proof (build_huffman_tree_shape frequency Hne) as Hshape.
  pose proof (build_huffman_tree_leaves frequency Hne) as Hleaves.
  set (tree := _build_huffman_tree frequency) in *.
  assert (Hchar : node_char tree = None).
  { apply two_leaves_merged; [exact Hshape|].
    rewrite (Permutation_length Hleaves). exact Hlen. }
  destruct (decode_loop_total tree Hshape Hchar encoded_data tree []
              Hshape Hchar (incl_refl _)) as (text & Hdec & Hall & Hl).
  exists text. rewrite decode_with_tree. split; [exact Hdec|].
  split; [|exact Hl].
  eapply List.Forall_impl; [|exact Hall]. intros ch Hin. cbv beta in Hin.
  apply (Permutation_in _ (Permutation_map fst Hleaves)). exact Hin.
Qed.

Lemma decode_total_on_table_tree_witness :
  exists text,
    decode (mkCoder [] (Some (_build_huffman_tree [(97, 5); (98, 2)])))
      [c1; 120; c0; c0]
    = Ok text
    /\ List.Forall (fun ch => In ch (map fst [(97, 5); (98, 2)])) text
    /\ Nat.le (length text) (length [c1; 120; c0; c0]).
Proof.
  apply decode_total_on_table_tree. simpl. lia.
Defined.

(** X8. With the tree built from a frequency table of one symbol or of none,
    [decode] raises [AttributeError] on every string that is not empty: the
    root has no child to go to. *)
Theorem decode_raises_on_small_table frequency encoded_data :
  (length frequency <= 1)%nat -> encoded_data <> [] ->
  decode (mkCoder [] (Some (_build_huffman_tree frequency))) encoded_data
  = Raise AttributeError.
Proof.
  intros Hlen Hne. rewrite decode_with_tree.
  destruct encoded_data as [|bit rest]; [congruence|].
  destruct frequency as [|[ch fr] [|? ?]]; [| |simpl in Hlen; lia].
  - change (_build_huffman_tree []) with empty_node.
    cbn [decode_loop empty_node node_left node_right].
    destruct (Z.eqb bit c0); reflexivity.
  - change (_build_huffman_tree [(ch, fr)])
      with (mkNode (Some ch) fr None None).
    cbn [decode_loop node_left node_right].
    destruct (Z.eqb bit c0); reflexivity.
Qed.

Lemma decode_raises_on_small_table_witness :
  decode (mkCoder [] (Some (_build_huffman_tree [(122, 4)]))) [c0; c0; c0; c0]
  = Raise AttributeError.
Proof.
  apply decode_raises_on_small_table; [simpl; lia|discriminate].
Defined.

(** ** The container: sizes and failures *)

Lemma length_format_08b b : length (format_08b b) = 8%nat.
Proof. unfold format_08b. rewrite length_map. reflexivity. Qed.

Lemma length_bit_string_of bytes_data :
  length (bit_string_of bytes_data) = (8 * length bytes_data)%nat.
Proof.
  unfold bit_string_of. induction bytes_data as [|b bs IH]; [reflexivity|].
  cbn [map concat length]. rewrite length_app, length_format_08b, IH. lia.
Qed.

Lemma is_bits_format_08b b : is_bits (format_08b b).
Proof.
  unfold is_bits, format_08b. apply List.Forall_forall. intros ch Hin.
  apply in_map_iff in Hin. destruct Hin as (i & <- & _).
  destruct (Z.testbit (byte_val b) i); auto.
Qed.

Lemma is_bits_bit_string_of bytes_data : is_bits (bit_string_of bytes_data).
Proof.
  unfold bit_string_of. induction bytes_data as [|b bs IH]; [constructor|].
  cbn [map concat]. apply is_bits_app. split; [apply is_bits_format_08b|].
  exact IH.
Qed.

Lemma is_bits_firstn n s : is_bits s -> is_bits (firstn n s).
Proof.
  intros H. rewrite <- (firstn_skipn n s) in H. apply is_bits_app in H. tauto.
Qed.

Lemma is_bits_strip_padding padding s :
  is_bits s -> is_bits (strip_padding padding s).
Proof.
  intros H. unfold strip_padding. destruct (0 <? padding); [|exact H].
  apply is_bits_firstn, H.
Qed.

Lemma length_strip_padding padding s :
  0 <= padding ->
  length (strip_padding padding s) = (length s - Z.to_nat padding)%nat.
Proof.
  intros Hp. unfold strip_padding. destruct (Z.ltb_spec 0 padding).
  - rewrite length_firstn. lia.
  - replace padding with 0 by lia. simpl. lia.
Qed.

Lemma dict_set_wf {V} (d : dict V) k v : dict_wf d -> dict_wf (dict_set d k v).
Proof.
  unfold dict_wf. intros Hwf. destruct (dict_get d k) as [n|] eqn:E.
  - rewrite (dict_set_keys d k v n E). exact Hwf.
  - apply dict_get_None in E. rewrite dict_set_fresh by exact E.
    rewrite map_app. simpl. apply List.NoDup_app.
    + exact Hwf.
    + constructor; [simpl; tauto|constructor].
    + intros x Hx [<-|[]]. exact (E Hx).
Qed.

Lemma Forall_dict_set_entry {V} (P : char * V -> Prop) (d : dict V) k v :
  List.Forall P d -> P (k, v) -> List.Forall P (dict_set d k v).
Proof.
  intros Hd Hv. induction Hd as [|[k' v'] d' Hh Hd' IH]; simpl.
  - constructor; [exact Hv|constructor].
  - destruct (Z.eqb_spec k' k) as [->|Hne]; constructor; auto.
Qed.

(** One turn of the loop of [load_compressed], on a file with the six bytes
    of an entry. *)
Lemma load_entries_step n b1 b0 f3 f2 f1 f0 file acc :
  load_entries (S n) (b1 :: b0 :: f3 :: f2 :: f1 :: f0 :: file) acc
  = load_entries n file
      (dict_set acc (byte_val b1 * 256 + byte_val b0)
         (((byte_val f3 * 256 + byte_val f2) * 256 + byte_val f1) * 256
          + byte_val f0)).
Proof.
  cbn [load_entries file_read firstn skipn unpack_H bind].
  rewrite chr_small
    by (pose proof (byte_val_range b1); pose proof (byte_val_range b0); lia).
  reflexivity.
Qed.

(** The loop fails with [struct.error] on a file with less than six bytes
    for an entry. *)
Lemma load_entries_step_short n file acc :
  (length file < 6)%nat -> load_entries (S n) file acc = Raise StructError.
Proof.
  intros Hlen.
  destruct file as [|b1 [|b0 [|f3 [|f2 [|f1 [|f0 file]]]]]];
    try (simpl in Hlen; lia); try reflexivity;
    cbn [load_entries file_read firstn skipn unpack_H bind];
    rewrite chr_small
      by (pose proof (byte_val_range b1); pose proof (byte_val_range b0);
          lia);
    reflexivity.
Qed.

Lemma load_entries_long n : forall file acc,
  (6 * n <= length file)%nat ->
  dict_wf acc -> fits_container acc ->
  exists frequency,
    load_entries n file acc = Ok (frequency, skipn (6 * n) file)
    /\ dict_wf frequency /\ fits_container frequency.
Proof.
  induction n as [|n IH]; intros file acc Hlen Hwf Hfit.
  - exists acc. split; [reflexivity|]. split; assumption.
  - destruct file as [|b1 [|b0 [|f3 [|f2 [|f1 [|f0 file]]]]]];
      try (simpl in Hlen; lia).
    rewrite load_entries_step.
    replace (6 * S n)%nat with (S (S (S (S (S (S (6 * n))))))) by lia.
    cbn [skipn]. apply IH.
    + simpl in Hlen. lia.
    + apply dict_set_wf, Hwf.
    + apply Forall_dict_set_entry; [exact Hfit|]. cbn [fst snd]. unfold ord.
      pose proof (byte_val_range b1). pose proof (byte_val_range b0).
      pose proof (byte_val_range f3). pose proof (byte_val_range f2).
      pose proof (byte_val_range f1). pose proof (byte_val_range f0).
      lia.
Qed.

Lemma load_entries_short n : forall file acc,
  (length file < 6 * n)%nat -> load_entries n file acc = Raise StructError.
Proof.
  induction n as [|n IH]; intros file acc Hlen; [lia|].
  destruct (Nat.lt_ge_cases (length file) 6) as [Hshort|Hlong].
  - apply load_entries_step_short, Hshort.
  - destruct file as [|b1 [|b0 [|f3 [|f2 [|f1 [|f0 file]]]]]];
      try (simpl in Hlong; lia).
    rewrite load_entries_step. apply IH. simpl in Hlen. lia.
Qed.

(** [load_compressed] on a file with its five-byte header. *)
Lemma load_compressed_header b3 b2 b1 b0 pad file :
  load_compressed (b3 :: b2 :: b1 :: b0 :: pad :: file)
  = (r <- load_entries
            (Z.to_nat (((byte_val b3 * 256 + byte_val b2) * 256
                        + byte_val b1) * 256 + byte_val b0)) file [] ;;
     let '(frequency, bytes_data) := r in
     Ok (strip_padding (byte_val pad) (bit_string_of bytes_data), frequency)).
Proof. reflexivity. Qed.

(** The outcome of [load_compressed], from the length of the file. *)
Lemma load_compressed_cases file :
  match header_count file with
  | Some n =>
      if 5 + 6 * n <=? Z.of_nat (length file)
      then exists encoded_data frequency,
             load_compressed file = Ok (encoded_data, frequency)
      else load_compressed file = Raise StructError
  | None => load_compressed file = Raise StructError
  end.
Proof.
  destruct file as [|b3 [|b2 [|b1 [|b0 [|pad file]]]]]; try reflexivity.
  - cbn [header_count].
    pose proof (byte_val_range b3). pose proof (byte_val_range b2).
    pose proof (byte_val_range b1). pose proof (byte_val_range b0).
    destruct (Z.leb_spec
                (5 + 6 * (((byte_val b3 * 256 + byte_val b2) * 256
                           + byte_val b1) * 256 + byte_val b0))
                (Z.of_nat (length [b3; b2; b1; b0]))) as [Hle|_];
      [simpl in Hle; lia|reflexivity].
  - cbn [header_count]. rewrite load_compressed_header.
    pose proof (byte_val_range b3). pose proof (byte_val_range b2).
    pose proof (byte_val_range b1). pose proof (byte_val_range b0).
    set (n := ((byte_val b3 * 256 + byte_val b2) * 256 + byte_val b1) * 256
              + byte_val b0) in *.
    assert (Hl : Z.of_nat (length (b3 :: b2 :: b1 :: b0 :: pad :: file))
                 = 5 + Z.of_nat (length file)).
    { cbn [length]. lia. }
    rewrite Hl.
    destruct (Z.leb_spec (5 + 6 * n) (5 + Z.of_nat (length file)))
      as [Hle|Hgt].
    + destruct (load_entries_long (Z.to_nat n) file [])
        as (frequency & Hload & _); [lia|constructor|constructor|].
      rewrite Hload. cbn [bind]. eauto.
    + rewrite load_entries_short by lia. reflexivity.
Qed.

Lemma load_compressed_raise file e :
  load_compressed file = Raise e -> e = StructError.
Proof.
  intros Hload. pose proof (load_compressed_cases file) as Hcases.
  destruct (header_count file) as [n|]; [|congruence].
  destruct (5 + 6 * n <=? Z.of_nat (length file)); [|congruence].
  destruct Hcases as (encoded_data & frequency & Hok). congruence.
Qed.

(** X9. [load_compressed] returns exactly on the files that are long enough
    for their header: five bytes, and six bytes for each of the entries that
    the first four bytes announce.  On every other file it raises
    [struct.error]. *)
Theorem load_compressed_succeeds_iff_long_enough file :
  match header_count file with
  | Some n =>
      if 5 + 6 * n <=? Z.of_nat (length file)
      then exists encoded_data frequency,
             load_compressed file = Ok (encoded_data, frequency)
      else load_compressed file = Raise StructError
  | None => load_compressed file = Raise StructError
  end.
Proof. apply load_compressed_cases. Qed.

(** What [load_compressed] returns, when it returns. *)
Lemma load_compressed_inv file encoded_data frequency :
  load_compressed file = Ok (encoded_data, frequency) ->
  exists b3 b2 b1 b0 pad rest,
    file = b3 :: b2 :: b1 :: b0 :: pad :: rest
    /\ let n := Z.to_nat (((byte_val b3 * 256 + byte_val b2) * 256
                           + byte_val b1) * 256 + byte_val b0) in
       (6 * n <= length rest)%nat
       /\ encoded_data
          = strip_padding (byte_val pad) (bit_string_of (skipn (6 * n) rest))
       /\ load_entries n rest [] = Ok (frequency, skipn (6 * n) rest)
       /\ dict_wf frequency /\ fits_container frequency.
Proof.
  intros Hload.
  destruct file as [|b3 [|b2 [|b1 [|b0 [|pad rest]]]]]; try discriminate.
  exists b3, b2, b1, b0, pad, rest. split; [reflexivity|].
  rewrite load_compressed_header in Hload. cbv zeta.
  set (n := Z.to_nat _) in *.
  destruct (Nat.le_gt_cases (6 * n) (length rest)) as [Hle|Hgt].
  - destruct (load_entries_long n rest [] Hle)
      as (frequency' & Hl & Hwf & Hfit); [constructor|constructor|].
    rewrite Hl in Hload |- *. cbn [bind] in Hload. inversion Hload; subst.
    repeat split; assumption.
  - rewrite load_entries_short in Hload by lia. discriminate.
Qed.

(** X10. Whatever the file, what [load_compressed] returns is well formed: a
    string of ['0'] and ['1'], with the eight bits of every byte after the
    header save as many bits as the fifth byte says, and a table with no
    symbol above [0xFFFF] and no frequency outside [0 .. 2^32-1]. *)
Theorem load_compressed_returns_bits_and_table file encoded_data frequency :
  load_compressed file = Ok (encoded_data, frequency) ->
  is_bits encoded_data
  /\ dict_wf frequency
  /\ fits_container frequency
  /\ exists n pad,
       header_count file = Some n
       /\ nth_error file 4 = Some pad
       /\ Z.of_nat (length frequency) <= n
       /\ Z.of_nat (length encoded_data)
          = Z.max 0 (8 * (Z.of_nat (length file) - 5 - 6 * n) - byte_val pad).
Proof.
  intros Hload.
  destruct (load_compressed_inv _ _ _ Hload)
    as (b3 & b2 & b1 & b0 & pad & rest & -> & Hle & -> & Hentries & Hwf
        & Hfit).
  cbv zeta in Hle, Hentries |- *.
  pose proof (byte_val_range b3). pose proof (byte_val_range b2).
  pose proof (byte_val_range b1). pose proof (byte_val_range b0).
  pose proof (byte_val_range pad).
  set (n := ((byte_val b3 * 256 + byte_val b2) * 256 + byte_val b1) * 256
            + byte_val b0) in *.
  split; [apply is_bits_strip_padding, is_bits_bit_string_of|].
  split; [exact Hwf|]. split; [exact Hfit|].
  exists n, pad. split; [reflexivity|]. split; [reflexivity|]. split.
  - assert (Hgrow : forall k file acc frequency' rest',
               load_entries k file acc = Ok (frequency', rest') ->
               (length frequency' <= length acc + k)%nat).
    { induction k as [|k IH]; intros file acc frequency' rest' Hk.
      - inversion Hk; subst. lia.
      - destruct (Nat.lt_ge_cases (length file) 6) as [Hshort|Hlong].
        + rewrite load_entries_step_short in Hk by exact Hshort.
          discriminate.
        + destruct file as [|c1' [|c0' [|g3 [|g2 [|g1 [|g0 file]]]]]];
            try (simpl in Hlong; lia).
          rewrite load_entries_step in Hk. apply IH in Hk.
          assert (Hset : forall (d : dict Z) k' v,
                     (length (dict_set d k' v) <= S (length d))%nat).
          { induction d as [|[k1 v1] d IHd]; intros k' v; simpl; [lia|].
            destruct (k1 =? k'); simpl; [lia|]. specialize (IHd k' v). lia. }
          specialize (Hset acc (byte_val c1' * 256 + byte_val c0')
                        (((byte_val g3 * 256 + byte_val g2) * 256
                          + byte_val g1) * 256 + byte_val g0)).
          lia. }
    apply Hgrow in Hentries. simpl in Hentries. lia.
  - rewrite length_strip_padding by lia.
    rewrite length_bit_string_of, length_skipn. cbn [length]. lia.
Qed.

Lemma load_compressed_returns_bits_and_table_witness :
  let file := [Init.Byte.x00; Init.Byte.x00; Init.Byte.x00; Init.Byte.x01;
               Init.Byte.x05; Init.Byte.x00; Init.Byte.x61;
               Init.Byte.x00; Init.Byte.x00; Init.Byte.x00; Init.Byte.x03;
               Init.Byte.xa0] in
  is_bits [c1; c0; c1]
  /\ dict_wf [(97, 3)]
  /\ fits_container [(97, 3)]
  /\ exists n pad,
       header_count file = Some n
       /\ nth_error file 4 = Some pad
       /\ Z.of_nat (length [(97, 3)]) <= n
       /\ Z.of_nat (length [c1; c0; c1])
          = Z.max 0 (8 * (Z.of_nat (length file) - 5 - 6 * n) - byte_val pad).
Proof.
  intros file.
  apply (load_compressed_returns_bits_and_table file [c1; c0; c1] [(97, 3)]).
  reflexivity.
Defined.

(** Why [save_compressed] fails on a bit string: only [struct.pack] can. *)
Lemma save_compressed_raise encoded_data frequency e :
  is_bits encoded_data ->
  save_compressed encoded_data frequency = Raise e -> e = StructError.
Proof.
  intros Hbits Hsave.
  destruct (padded_data_length encoded_data) as (n & Hn).
  assert (Hpb : is_bits (padded_data_of encoded_data)).
  { unfold padded_data_of. apply is_bits_app. split; [exact Hbits|].
    apply is_bits_repeat. }
  destruct (bit_string_of_bytes_of_chunks n _ Hn Hpb) as (bs & Hbs & _).
  unfold save_compressed in Hsave. rewrite Hbs in Hsave. cbn [bind] in Hsave.
  unfold pack_I at 1 in Hsave.
  destruct ((0 <=? Z.of_nat (length frequency))
            && (Z.of_nat (length frequency) <=? 4294967295));
    cbn [bind] in Hsave; [|congruence].
  unfold pack_B in Hsave.
  destruct ((0 <=? padding_of encoded_data)
            && (padding_of encoded_data <=? 255));
    cbn [bind] in Hsave; [|congruence].
  destruct (pack_entries frequency) as [entries|e'] eqn:E;
    cbn [bind] in Hsave; [discriminate|].
  apply pack_entries_raise in E. congruence.
Qed.

(** X11. On a bit string and a table, [save_compressed] writes the file
    exactly when every symbol of the table fits in 16 bits and every
    frequency in 32 bits; when one does not, it raises [struct.error]. *)
Theorem save_compressed_succeeds_iff_fits encoded_data frequency :
  is_bits encoded_data -> dict_wf frequency ->
  (fits_container frequency ->
   exists file, save_compressed encoded_data frequency = Ok file)
  /\ (~ fits_container frequency ->
      save_compressed encoded_data frequency = Raise StructError).
Proof.
  intros Hbits Hwf. split.
  - intros Hfit. pose proof (fits_container_length _ Hwf Hfit) as Hlen.
    destruct (save_compressed_ok encoded_data frequency Hbits Hfit
                ltac:(lia)) as (count & pad & entries & bs & Hsave & _).
    eauto.
  - intros Hno.
    destruct (save_compressed encoded_data frequency) as [file|e] eqn:E.
    + apply save_compressed_fits in E. tauto.
    + apply save_compressed_raise in E; [congruence|exact Hbits].
Qed.

Lemma save_compressed_succeeds_iff_fits_witness :
  (fits_container [(97, 5); (98, 4294967296)] ->
   exists file, save_compressed [c1; c0] [(97, 5); (98, 4294967296)] = Ok file)
  /\ (~ fits_container [(97, 5); (98, 4294967296)] ->
      save_compressed [c1; c0] [(97, 5); (98, 4294967296)]
      = Raise StructError).
Proof.
  apply save_compressed_succeeds_iff_fits.
  - unfold is_bits. repeat (apply List.Forall_cons; [auto|]).
    apply List.Forall_nil.
  - unfold dict_wf. simpl.
    repeat (apply List.NoDup_cons; [simpl; intuition discriminate|]).
    apply List.NoDup_nil.
Defined.

Lemma save_compressed_length encoded_data frequency file :
  save_compressed encoded_data frequency = Ok file ->
  Z.of_nat (length file)
  = 5 + 6 * Z.of_nat (length frequency)
    + (Z.of_nat (length encoded_data) + 7) / 8.
Proof.
  intros Hsave.
  pose proof (save_compressed_is_bits _ _ _ Hsave) as Hbits.
  destruct (save_compressed_fits _ _ _ Hsave) as [Hfit Hlen].
  destruct (save_compressed_ok encoded_data frequency Hbits Hfit Hlen)
    as (count & pad & entries & bs & Hsave' & Hcl & _ & _ & _ & Hel & Hstr).
  assert (Hfile : file = count ++ [pad] ++ entries ++ bs) by congruence.
  subst file. cbn [app]. rewrite length_app. cbn [length].
  rewrite length_app, Hcl, Hel.
  apply (f_equal (@length char)) in Hstr.
  rewrite length_bit_string_of in Hstr. unfold padded_data_of in Hstr.
  rewrite length_app, repeat_length in Hstr.
  destruct (padding_of_spec encoded_data) as (Hp & Hr & Hm).
  cbv zeta in Hp, Hm.
  set (len := Z.of_nat (length encoded_data)) in *.
  assert (Hbs : 8 * Z.of_nat (length bs) = len + padding_of encoded_data)
    by (unfold len; lia).
  assert (Hdiv : Z.of_nat (length bs) = (len + 7) / 8).
  { apply (Z.div_unique _ 8 _ (7 - padding_of encoded_data)); lia. }
  lia.
Qed.

(** X12. The size of the file that [save_compressed] writes: five bytes of
    header, six bytes for each entry of the table, and one byte for every
    eight bits of the string, the last byte completed. *)
Theorem save_compressed_size encoded_data frequency file :
  save_compressed encoded_data frequency = Ok file ->
  Z.of_nat (length file)
  = 5 + 6 * Z.of_nat (length frequency)
    + (Z.of_nat (length encoded_data) + 7) / 8.
Proof. apply save_compressed_length. Qed.

(** The file that [save_compressed] wrote for a string of ['0'] and ['1'],
    read by [load_compressed]. *)
Lemma load_saved_file encoded_data frequency file :
  is_bits encoded_data -> dict_wf frequency ->
  save_compressed encoded_data frequency = Ok file ->
  load_compressed file = Ok (encoded_data, frequency).
Proof.
  intros Hbits Hwf Hsave.
  destruct (save_compressed_fits _ _ _ Hsave) as [Hfit Hlen].
  destruct (save_compressed_ok encoded_data frequency Hbits Hfit Hlen)
    as (count & pad & entries & bs & Hsave' & Hcl & Hcount & Hpad & He & _
        & Hstr).
  destruct (load_entries_pack_entries _ Hfit) as (entries' & He' & _ & Hload).
  assert (entries' = entries) by congruence. subst entries'.
  assert (Hfile : file = count ++ [pad] ++ entries ++ bs) by congruence.
  subst file.
  destruct (padding_of_spec encoded_data) as (_ & Hr & _).
  rewrite (load_compressed_layout count pad entries bs (length frequency)
             (padding_of encoded_data) frequency Hcl Hcount); [|..|exact Hload].
  - rewrite Hstr, strip_padding_padded, dict_of_items_wf by exact Hwf.
    reflexivity.
  - subst pad. cbn [unpack_B]. rewrite byte_val_of_val.
    rewrite Z.mod_small by lia. reflexivity.
Qed.

Lemma save_compressed_size_witness :
  let file := [Init.Byte.x00; Init.Byte.x00; Init.Byte.x00; Init.Byte.x01;
               Init.Byte.x05; Init.Byte.x00; Init.Byte.x61;
               Init.Byte.x00; Init.Byte.x00; Init.Byte.x00; Init.Byte.x03;
               Init.Byte.xa0] in
  Z.of_nat (length file)
  = 5 + 6 * Z.of_nat (length [(97, 3)])
    + (Z.of_nat (length [c1; c0; c1]) + 7) / 8.
Proof.
  intros file. apply (save_compressed_size [c1; c0; c1] [(97, 3)] file).
  reflexivity.
Defined.

(** ** [compress_file] and [decompress_file] *)

Lemma compress_file_eq data :
  compress_file data
  = (p <- fst (encode new_coder data) ;;
     let '(encoded_data, frequency) := p in
     save_compressed encoded_data frequency).
Proof. unfold compress_file. destruct (encode new_coder data). reflexivity. Qed.

Lemma decompress_file_eq file :
  decompress_file file
  = (p <- load_compressed file ;;
     let '(encoded_data, frequency) := p in
     decode (mkCoder [] (Some (_build_huffman_tree frequency))) encoded_data).
Proof. reflexivity. Qed.

(** [encode] always returns: a string of ['0'] and ['1'], and the table of
    the text. *)
Lemma encode_returns_bits self data :
  exists bits,
    fst (encode self data) = Ok (bits, _build_frequency_table data)
    /\ is_bits bits.
Proof.
  destruct data as [|c data].
  - exists []. split; [reflexivity|constructor].
  - destruct (encode_length self c data) as (bits & Hbits & _).
    exists bits. split; [exact Hbits|].
    destruct (encode_codebook self c data) as (Hcb & _).
    cbv zeta in Hcb. unfold encode in Hcb, Hbits.
    cbn [fst snd] in Hcb, Hbits. rewrite Hcb in Hbits.
    destruct (join_codes _ (c :: data)) as [bits'|] eqn:E in Hbits;
      [|discriminate].
    cbn [bind] in Hbits. inversion Hbits; subst bits'.
    apply (join_codes_is_bits _ (fun k w Hw =>
             leaf_codes_is_bits _ k w (dict_get_In _ _ _ Hw)) _ _ E).
Qed.

Lemma sum_freq_ge (entries : list (char * Z)) e :
  List.Forall (fun e => 0 <= snd e) entries -> In e entries ->
  snd e <= sum_freq entries.
Proof.
  unfold sum_freq. induction 1 as [|e' es He' Hes IH]; intros Hin;
    [destruct Hin|].
  assert (0 <= fold_right Z.add 0 (map snd es)).
  { clear IH Hin. induction Hes as [|x xs Hx _ IHx]; simpl; lia. }
  destruct Hin as [->|Hin]; simpl; [lia|]. specialize (IH Hin). lia.
Qed.

(** The table of a text fits the container when the characters of the text
    fit in 16 bits and its length in 32 bits. *)
Lemma frequency_table_fits data :
  bmp_text data -> Z.of_nat (length data) <= 4294967295 ->
  fits_container (_build_frequency_table data).
Proof.
  intros Hbmp Hlen.
  destruct (build_frequency_table_spec data) as (_ & Hpos & Hkeys & _).
  pose proof (build_frequency_table_total data) as Htotal.
  apply List.Forall_forall. intros [k v] Hin. cbn [fst snd]. split.
  - unfold bmp_text in Hbmp. rewrite List.Forall_forall in Hbmp.
    apply Hbmp, Hkeys, in_map_iff. exists (k, v). auto.
  - assert (Hge : List.Forall (fun e => 0 <= snd e)
                    (_build_frequency_table data)).
    { eapply List.Forall_impl; [|exact Hpos]. intros; simpl in *; lia. }
    pose proof (sum_freq_ge _ _ Hge Hin) as Hle. cbn [snd] in Hle.
    rewrite List.Forall_forall in Hpos. apply Hpos in Hin. cbn [snd] in Hin.
    lia.
Qed.

Lemma frequency_table_fits_inv data :
  fits_container (_build_frequency_table data) -> bmp_text data.
Proof.
  intros Hfit.
  destruct (build_frequency_table_spec data) as (_ & _ & Hkeys & _).
  apply List.Forall_forall. intros ch Hin. apply Hkeys in Hin.
  apply in_map_iff in Hin. destruct Hin as ([k v] & <- & Hin).
  unfold fits_container in Hfit. rewrite List.Forall_forall in Hfit.
  apply Hfit in Hin. tauto.
Qed.

Lemma frequency_table_wf data : dict_wf (_build_frequency_table data).
Proof. apply build_frequency_table_spec. Qed.

Lemma frequency_table_length data :
  length (_build_frequency_table data) = length (distinct data).
Proof.
  rewrite <- (length_map fst).
  apply Permutation_length, distinct_keys_perm.
Qed.

(** [compress_file] on a text that fits the container. *)
Lemma compress_file_ok data :
  bmp_text data -> Z.of_nat (length data) <= 4294967295 ->
  exists bits file,
    fst (encode new_coder data) = Ok (bits, _build_frequency_table data)
    /\ is_bits bits
    /\ compress_file data = Ok file
    /\ save_compressed bits (_build_frequency_table data) = Ok file.
Proof.
  intros Hbmp Hlen.
  destruct (encode_returns_bits new_coder data) as (bits & Henc & Hbits).
  pose proof (frequency_table_fits data Hbmp Hlen) as Hfit.
  pose proof (fits_container_length _ (frequency_table_wf data) Hfit) as Hn.
  destruct (save_compressed_ok bits _ Hbits Hfit ltac:(lia))
    as (count & pad & entries & bs & Hsave & _).
  exists bits, (count ++ [pad] ++ entries ++ bs).
  split; [exact Henc|]. split; [exact Hbits|]. split; [|exact Hsave].
  rewrite compress_file_eq, Henc. exact Hsave.
Qed.

(** X13. Round trip of the two commands: a text that is empty or has two
    distinct characters or more, with characters that fit in 16 bits and a
    length that fits in 32 bits, is compressed to a file from which
    [decompress_file] recovers the text exactly. *)
Theorem compress_decompress_roundtrip data :
  length (distinct data) <> 1%nat -> bmp_text data ->
  Z.of_nat (length data) <= 4294967295 ->
  exists file, compress_file data = Ok file /\ decompress_file file = Ok data.
Proof.
  intros Hdistinct Hbmp Hlen.
  destruct (compress_file_ok data Hbmp Hlen)
    as (bits & file & Henc & Hbits & Hfile & Hsave).
  exists file. split; [exact Hfile|].
  rewrite decompress_file_eq.
  rewrite (load_saved_file _ _ _ Hbits (frequency_table_wf data) Hsave).
  cbn [bind]. rewrite decode_with_tree.
  destruct data as [|c data].
  - inversion Henc; subst bits. reflexivity.
  - assert (Htwo : (2 <= length (distinct (c :: data)))%nat).
    { assert (In c (distinct (c :: data)))
        by (unfold distinct; apply nodup_In; now left).
      destruct (distinct (c :: data)) as [|? [|? ?]]; simpl in *;
        [tauto|congruence|lia]. }
    destruct (encode_two_symbols new_coder (c :: data) Htwo)
      as (bits' & Henc' & _ & Hdec & _).
    assert (bits' = bits) by congruence. subst bits'. exact Hdec.
Qed.

Lemma compress_decompress_roundtrip_witness :
  exists file,
    compress_file [97; 98; 114; 97; 99; 97] = Ok file
    /\ decompress_file file = Ok [97; 98; 114; 97; 99; 97].
Proof.
  apply compress_decompress_roundtrip.
  - vm_compute. lia.
  - unfold bmp_text, ord.
    repeat (apply List.Forall_cons; [lia|]). apply List.Forall_nil.
  - simpl. lia.
Defined.

(** X14. [compress_file] on a text whose length fits in 32 bits: it writes
    the file when every character fits in 16 bits, whatever the text, and
    raises [struct.error] when some character does not. *)
Theorem compress_file_succeeds_iff_bmp data :
  Z.of_nat (length data) <= 4294967295 ->
  (bmp_text data -> exists file, compress_file data = Ok file)
  /\ (~ bmp_text data -> compress_file data = Raise StructError).
Proof.
  intros Hlen. split.
  - intros Hbmp.
    destruct (compress_file_ok data Hbmp Hlen)
      as (bits & file & _ & _ & Hfile & _).
    eauto.
  - intros Hno.
    destruct (encode_returns_bits new_coder data) as (bits & Henc & Hbits).
    rewrite compress_file_eq, Henc. cbn [bind].
    destruct (save_compressed bits (_build_frequency_table data))
      as [file|e] eqn:E.
    + apply save_compressed_fits in E. destruct E as [Hfit _].
      apply frequency_table_fits_inv in Hfit. contradiction.
    + apply save_compressed_raise in E; [congruence|exact Hbits].
Qed.

Lemma compress_file_succeeds_iff_bmp_witness :
  (bmp_text [97; 128512; 97] ->
   exists file, compress_file [97; 128512; 97] = Ok file)
  /\ (~ bmp_text [97; 128512; 97] ->
      compress_file [97; 128512; 97] = Raise StructError).
Proof.
  apply compress_file_succeeds_iff_bmp. simpl. lia.
Defined.

(** X15. The size of the compressed file: for a text with at most 256
    distinct characters, the file takes at most 5 bytes, 6 bytes for each
    distinct character, and one byte for each character of the text. *)
Theorem compressed_file_size_bound data file :
  compress_file data = Ok file ->
  (length (distinct data) <= 256)%nat ->
  Z.of_nat (length file)
  <= 5 + 6 * Z.of_nat (length (distinct data)) + Z.of_nat (length data).
Proof.
  intros Hfile Hdistinct.
  destruct (encode_returns_bits new_coder data) as (bits & Henc & _).
  rewrite compress_file_eq, Henc in Hfile. cbn [bind] in Hfile.
  apply save_compressed_length in Hfile.
  rewrite frequency_table_length in Hfile.
  destruct (encode_length_le 8 new_coder data) as (bits' & fr & Henc' & Hle).
  { change (2 ^ Z.of_nat 8) with (Z.of_nat 256).
    apply Nat2Z.inj_le, Hdistinct. }
  assert (E : bits' = bits) by congruence. subst bits'.
  change (Z.of_nat 8) with 8 in Hle.
  change (@length Z) with (@length char) in *.
  assert ((Z.of_nat (length bits) + 7) / 8 < Z.of_nat (length data) + 1)
    by (apply Z.div_lt_upper_bound; lia).
  lia.
Qed.

Lemma compressed_file_size_bound_witness :
  let file := [Init.Byte.x00; Init.Byte.x00; Init.Byte.x00; Init.Byte.x02;
               Init.Byte.x05; Init.Byte.x00; Init.Byte.x61;
               Init.Byte.x00; Init.Byte.x00; Init.Byte.x00; Init.Byte.x02;
               Init.Byte.x00; Init.Byte.x62;
               Init.Byte.x00; Init.Byte.x00; Init.Byte.x00; Init.Byte.x01;
               Init.Byte.xc0] in
  Z.of_nat (length file)
  <= 5 + 6 * Z.of_nat (length (distinct [97; 97; 98]))
     + Z.of_nat (length [97; 97; 98]).
Proof.
  intros file. apply (compressed_file_size_bound [97; 97; 98] file).
  - reflexivity.
  - vm_compute. lia.
Defined.

(** X16. What [decompress_file] does up to its call of [write_file].  On a
    file that [load_compressed] refuses it raises [struct.error].  Otherwise,
    with a table of two symbols or more [decode] does not raise and the text
    handed to [write_file] is made of symbols of the table; with a smaller
    table the empty text is handed to [write_file] when the file has no bits,
    and [AttributeError] is raised when it has some.  (What [write_file] does
    with the text, and the [UnicodeEncodeError] of its codec on a surrogate,
    are outside this statement.) *)
Theorem decompress_file_up_to_write file :
  match load_compressed file with
  | Raise _ => decompress_file file = Raise StructError
  | Ok (encoded_data, frequency) =>
      if (2 <=? length frequency)%nat
      then exists text,
             decompress_file file = Ok text
             /\ List.Forall (fun ch => In ch (map fst frequency)) text
      else match encoded_data with
           | [] => decompress_file file = Ok []
           | _ :: _ => decompress_file file = Raise AttributeError
           end
  end.
Proof.
  rewrite decompress_file_eq.
  destruct (load_compressed file) as [[encoded_data frequency]|e] eqn:E.
  - cbn [bind].
    destruct (Nat.leb_spec 2 (length frequency)) as [Hlen|Hlen].
    + assert (Hne : frequency <> []) by (intros ->; simpl in Hlen; lia).
      pose proof (build_huffman_tree_shape frequency Hne) as Hshape.
      pose proof (build_huffman_tree_leaves frequency Hne) as Hleaves.
      set (tree := _build_huffman_tree frequency) in *.
      assert (Hchar : node_char tree = None).
      { apply two_leaves_merged; [exact Hshape|].
        rewrite (Permutation_length Hleaves). exact Hlen. }
      destruct (decode_loop_total tree Hshape Hchar encoded_data tree []
                  Hshape Hchar (incl_refl _)) as (text & Hdec & Hall & _).
      exists text. rewrite decode_with_tree. split; [exact Hdec|].
      eapply List.Forall_impl; [|exact Hall]. intros ch Hin. cbv beta in Hin.
      apply (Permutation_in _ (Permutation_map fst Hleaves)). exact Hin.
    + destruct encoded_data as [|bit rest]; [reflexivity|].
      rewrite decode_with_tree.
      destruct frequency as [|[ch fr] [|? ?]]; [| |simpl in Hlen; lia].
      * change (_build_huffman_tree []) with empty_node.
        cbn [decode_loop empty_node node_left node_right].
        destruct (Z.eqb bit c0); reflexivity.
      * change (_build_huffman_tree [(ch, fr)])
          with (mkNode (Some ch) fr None None).
        cbn [decode_loop node_left node_right].
        destruct (Z.eqb bit c0); reflexivity.
  - cbn [bind]. apply load_compressed_raise in E. congruence.
Qed.

(** ** The tree of the builder costs the least *)

Lemma sort_desc_perm ls : Permutation (sort_desc ls) ls.
Proof.
  induction ls as [|l ls IH]; simpl; [reflexivity|].
  rewrite insert_desc_perm. apply perm_skip. exact IH.
Qed.

Lemma sort_desc_sorted ls : StronglySorted ge (sort_desc ls).
Proof.
  induction ls as [|l ls IH]; simpl; [constructor|].
  apply insert_desc_sorted. exact IH.
Qed.

(** Rearrangement: the smallest weights with the longest codes cost the
    least. *)
Lemma dot_sorted_le ws : forall ls,
  length ws = length ls ->
  dot (sort_asc ws) (sort_desc ls) <= dot ws ls.
Proof.
  induction ws as [|w ws IH]; intros [|l ls] Hlen; simpl in Hlen;
    try discriminate; try (cbn; lia).
  cbn [sort_asc sort_desc fold_right].
  fold (sort_asc ws). fold (sort_desc ls). rewrite dot_cons.
  assert (Hlen' : length ws = length ls) by lia.
  pose proof (IH ls Hlen') as Hrec.
  pose proof (dot_insert (sort_asc ws) (sort_desc ls) w l) as Hins.
  assert (Hl : length (sort_asc ws) = length (sort_desc ls)).
  { rewrite (Permutation_length (sort_asc_perm ws)).
    rewrite (Permutation_length (sort_desc_perm ls)). exact Hlen'. }
  specialize (Hins Hl (sort_asc_sorted ws) (sort_desc_sorted ls)). lia.
Qed.

Lemma dot_app ws1 : forall ls1 ws2 ls2,
  length ws1 = length ls1 ->
  dot (ws1 ++ ws2) (ls1 ++ ls2) = dot ws1 ls1 + dot ws2 ls2.
Proof.
  induction ws1 as [|w ws1 IH]; intros [|l ls1] ws2 ls2 Hlen;
    simpl in Hlen; try discriminate.
  - cbn [app]. change (dot [] []) with 0. lia.
  - cbn [app]. rewrite !dot_cons, IH by lia. lia.
Qed.

Lemma kraft_app D ls1 ls2 : kraft D (ls1 ++ ls2) = kraft D ls1 + kraft D ls2.
Proof. unfold kraft. induction ls1 as [|l ls1 IH]; simpl; lia. Qed.

(** The cost of the tree against code lengths sorted longest first. *)
Lemma build_huffman_tree_cost_le D frequency ls :
  frequency <> [] ->
  List.Forall (fun e => 0 <= snd e) frequency ->
  length ls = length frequency ->
  StronglySorted ge ls -> List.Forall (fun l => (l <= D)%nat) ls ->
  kraft D ls <= 2 ^ Z.of_nat D ->
  cost (_build_huffman_tree frequency)
  <= dot (sort_asc (map snd frequency)) ls.
Proof.
  intros Hne Hpos Hlen Hsorted HD Hkraft.
  pose proof (merge_loop_cost
                (length (heapify node_lt (map leaf_node frequency)))
                (heapify node_lt (map leaf_node frequency)) D ls) as Hcost.
  rewrite build_huffman_tree_root in Hcost by exact Hne.
  set (nodes := heapify node_lt (map leaf_node frequency)) in *.
  assert (Hperm : Permutation nodes (map leaf_node frequency))
    by apply heapify_perm.
  assert (Hn : length nodes = length frequency)
    by (rewrite (Permutation_length Hperm); apply length_map).
  rewrite (sort_asc_perm_eq _ _ (Permutation_map node_freq Hperm)) in Hcost.
  rewrite node_freq_leaf_nodes in Hcost.
  rewrite (total_cost_perm _ _ Hperm), total_cost_leaf_nodes in Hcost.
  rewrite total_cost_cons in Hcost. unfold total_cost in Hcost at 1.
  simpl fold_right in Hcost.
  assert (H : cost (_build_huffman_tree frequency) + 0
              <= 0 + dot (sort_asc (map snd frequency)) ls); [|lia].
  apply Hcost.
  - apply heapify_order. exact node_lt_key.
  - apply (Permutation_Forall (Permutation_sym Hperm)).
    apply List.Forall_forall. intros n Hin. apply in_map_iff in Hin.
    destruct Hin as ([ch fr] & <- & Hin).
    rewrite List.Forall_forall in Hpos. apply Hpos in Hin. simpl in Hin.
    split; simpl; [lia|]. unfold sum_freq. simpl. lia.
  - intros E. rewrite E in Hn. destruct frequency; [congruence|].
    discriminate.
  - lia.
  - lia.
  - exact Hsorted.
  - exact HD.
  - exact Hkraft.
Qed.

(** The cost of the tree against any pairing of the weights of the table
    with code lengths that satisfy the Kraft inequality. *)
Lemma build_huffman_tree_optimal D frequency ws ls :
  frequency <> [] ->
  List.Forall (fun e => 0 <= snd e) frequency ->
  Permutation ws (map snd frequency) ->
  length ls = length ws ->
  List.Forall (fun l => (l <= D)%nat) ls ->
  kraft D ls <= 2 ^ Z.of_nat D ->
  cost (_build_huffman_tree frequency) <= dot ws ls.
Proof.
  intros Hne Hpos Hws Hlen HD Hkraft.
  pose proof (build_huffman_tree_cost_le D frequency (sort_desc ls) Hne Hpos)
    as Hcost.
  rewrite <- (sort_asc_perm_eq _ _ Hws) in Hcost.
  pose proof (dot_sorted_le ws ls (eq_sym Hlen)) as Hdot.
  assert (cost (_build_huffman_tree frequency)
          <= dot (sort_asc ws) (sort_desc ls)); [|lia].
  apply Hcost.
  - rewrite (Permutation_length (sort_desc_perm ls)), Hlen.
    rewrite (Permutation_length Hws). apply length_map.
  - apply sort_desc_sorted.
  - apply (Permutation_Forall (Permutation_sym (sort_desc_perm ls))).
    exact HD.
  - rewrite (kraft_perm _ _ _ (sort_desc_perm ls)). exact Hkraft.
Qed.

Lemma cost_with_dot len frequency :
  cost_with len frequency
  = dot (map snd frequency) (map (fun e => len (fst e)) frequency).
Proof.
  unfold cost_with, weighted.
  induction frequency as [|[ch fr] frequency IH]; [reflexivity|].
  cbn [map fold_right fst snd]. rewrite dot_cons, IH. reflexivity.
Qed.

(** X17. The tree of the builder is optimal: whatever code lengths [len]
    one gives to the symbols of a table with frequencies that are not
    negative, if the lengths satisfy the Kraft inequality (as the code words
    of every uniquely decodable code do), then a code with these lengths
    takes at least as many bits as the tree of [_build_huffman_tree]. *)
Theorem huffman_tree_is_optimal frequency (len : char -> nat) (D : nat) :
  frequency <> [] ->
  List.Forall (fun e => 0 <= snd e) frequency ->
  List.Forall (fun e => (len (fst e) <= D)%nat) frequency ->
  kraft D (map (fun e => len (fst e)) frequency) <= 2 ^ Z.of_nat D ->
  cost (_build_huffman_tree frequency) <= cost_with len frequency.
Proof.
  intros Hne Hpos HD Hkraft. rewrite cost_with_dot.
  apply (build_huffman_tree_optimal D); try assumption.
  - reflexivity.
  - rewrite !length_map. reflexivity.
  - apply List.Forall_forall. intros l Hl. apply in_map_iff in Hl.
    destruct Hl as (e & <- & He). rewrite List.Forall_forall in HD.
    apply HD, He.
Qed.

Lemma huffman_tree_is_optimal_witness :
  cost (_build_huffman_tree [(97, 5); (98, 2); (99, 1); (100, 1)])
  <= cost_with (fun _ => 2%nat) [(97, 5); (98, 2); (99, 1); (100, 1)].
Proof.
  apply (huffman_tree_is_optimal _ (fun _ => 2%nat) 2).
  - discriminate.
  - repeat (apply List.Forall_cons; [simpl; lia|]). apply List.Forall_nil.
  - repeat (apply List.Forall_cons; [simpl; lia|]). apply List.Forall_nil.
  - vm_compute. discriminate.
Defined.

(** The depths of the leaves of a tree. *)
Lemma length_depths n : forall d, length (depths n d) = length (leaves n).
Proof.
  induction n as [ch fr l r IHl IHr] using HuffmanNode_ind. intros d.
  destruct ch as [ch|]; [reflexivity|]. cbn [depths leaves].
  rewrite !length_app. f_equal.
  - destruct l as [l|]; [apply IHl|]; reflexivity.
  - destruct r as [r|]; [apply IHr|]; reflexivity.
Qed.

Lemma depths_le n : forall d,
  List.Forall (fun l => (l <= d + height n)%nat) (depths n d).
Proof.
  induction n as [ch fr l r IHl IHr] using HuffmanNode_ind. intros d.
  destruct ch as [ch|]; [constructor; [lia|constructor]|].
  cbn [depths height]. apply List.Forall_app. split.
  - destruct l as [l|]; [|constructor].
    eapply List.Forall_impl; [|apply (IHl l eq_refl (S d))].
    intros x Hx. cbv beta in Hx. lia.
  - destruct r as [r|]; [|constructor].
    eapply List.Forall_impl; [|apply (IHr r eq_refl (S d))].
    intros x Hx. cbv beta in Hx. lia.
Qed.

(** The Kraft inequality for the leaves of a tree. *)
Lemma kraft_depths D n : forall d,
  (d + height n <= D)%nat ->
  kraft D (depths n d) <= 2 ^ Z.of_nat (D - d).
Proof.
  induction n as [ch fr l r IHl IHr] using HuffmanNode_ind. intros d Hd.
  destruct ch as [ch|].
  - cbn [depths]. unfold kraft. simpl. lia.
  - cbn [depths]. rewrite kraft_app. cbn [height] in Hd.
    assert (Hpos : 0 < 2 ^ Z.of_nat (D - d))
      by (apply Z.pow_pos_nonneg; lia).
    assert (Hhalf : forall c, (S d + height c <= D)%nat ->
              2 * 2 ^ Z.of_nat (D - S d) = 2 ^ Z.of_nat (D - d)).
    { intros c Hc. rewrite <- Z.pow_succ_r by lia. f_equal. lia. }
    assert (Hl : match l with
                 | Some l' => 2 * kraft D (depths l' (S d))
                 | None => 0
                 end <= 2 ^ Z.of_nat (D - d)).
    { destruct l as [l|]; [|lia].
      assert (Hc : (S d + height l <= D)%nat) by lia.
      pose proof (IHl l eq_refl (S d) Hc). rewrite <- (Hhalf l Hc). lia. }
    assert (Hr : match r with
                 | Some r' => 2 * kraft D (depths r' (S d))
                 | None => 0
                 end <= 2 ^ Z.of_nat (D - d)).
    { destruct r as [r|]; [|lia].
      assert (Hc : (S d + height r <= D)%nat) by lia.
      pose proof (IHr r eq_refl (S d) Hc). rewrite <- (Hhalf r Hc). lia. }
    destruct l as [l|], r as [r|]; change (kraft D []) with 0; lia.
Qed.

(** The cost of a tree is the sum of the weights of its leaves, each times
    its depth. *)
Lemma cost_depths n : forall d,
  dot (map snd (leaves n)) (depths n d)
  = cost n + Z.of_nat d * sum_freq (leaves n).
Proof.
  induction n as [ch fr l r IHl IHr] using HuffmanNode_ind. intros d.
  destruct ch as [ch|].
  - cbn [leaves depths cost map snd]. rewrite dot_cons. unfold sum_freq.
    simpl. lia.
  - cbn [leaves depths cost]. rewrite map_app, sum_freq_app.
    rewrite dot_app.
    + assert (Hl : dot (map snd (match l with
                                 | Some l' => leaves l' | None => [] end))
                     (match l with
                      | Some l' => depths l' (S d) | None => [] end)
                   = (match l with
                      | Some l' => cost l' + sum_freq (leaves l')
                      | None => 0 end)
                     + Z.of_nat d
                       * sum_freq (match l with
                                   | Some l' => leaves l' | None => [] end)).
      { destruct l as [l|]; [|unfold sum_freq; simpl; lia].
        rewrite (IHl l eq_refl (S d)). lia. }
      assert (Hr : dot (map snd (match r with
                                 | Some r' => leaves r' | None => [] end))
                     (match r with
                      | Some r' => depths r' (S d) | None => [] end)
                   = (match r with
                      | Some r' => cost r' + sum_freq (leaves r')
                      | None => 0 end)
                     + Z.of_nat d
                       * sum_freq (match r with
                                   | Some r' => leaves r' | None => [] end)).
      { destruct r as [r|]; [|unfold sum_freq; simpl; lia].
        rewrite (IHr r eq_refl (S d)). lia. }
      rewrite Hl, Hr. lia.
    + rewrite length_map. destruct l as [l|]; [|reflexivity].
      symmetry. apply length_depths.
Qed.

(** X18. No tree with the same leaves costs less: for a table with
    frequencies that are not negative, the weighted path length of the tree
    of [_build_huffman_tree] is at most that of any tree whose leaves are the
    entries of the table. *)
Theorem huffman_tree_costs_least frequency (t : HuffmanNode) :
  frequency <> [] ->
  List.Forall (fun e => 0 <= snd e) frequency ->
  Permutation (leaves t) frequency ->
  cost (_build_huffman_tree frequency) <= cost t.
Proof.
  intros Hne Hpos Hleaves.
  pose proof (cost_depths t 0) as Hcost.
  change (Z.of_nat 0) with 0 in Hcost. rewrite Z.mul_0_l, Z.add_0_r in Hcost.
  rewrite <- Hcost.
  apply (build_huffman_tree_optimal (height t)); try assumption.
  - apply Permutation_map. exact Hleaves.
  - rewrite length_map. apply length_depths.
  - apply (depths_le t 0).
  - pose proof (kraft_depths (height t) t 0 ltac:(lia)) as Hk.
    rewrite Nat.sub_0_r in Hk. exact Hk.
Qed.

Lemma huffman_tree_costs_least_witness :
  cost (_build_huffman_tree [(97, 5); (98, 2); (99, 1)])
  <= cost (mkNode None 8
             (Some (mkNode None 7 (Some (mkNode (Some 97) 5 None None))
                                  (Some (mkNode (Some 98) 2 None None))))
             (Some (mkNode (Some 99) 1 None None))).
Proof.
  apply huffman_tree_costs_least.
  - discriminate.
  - repeat (apply List.Forall_cons; [simpl; lia|]). apply List.Forall_nil.
  - reflexivity.
Defined.

(** ** What the optimal tree means for the output of [encode] *)

Lemma combine_app_eq {A B} (xs1 : list A) : forall (ys1 : list B) xs2 ys2,
  length xs1 = length ys1 ->
  combine (xs1 ++ xs2) (ys1 ++ ys2) = combine xs1 ys1 ++ combine xs2 ys2.
Proof.
  induction xs1 as [|x xs1 IH]; intros [|y ys1] xs2 ys2 Hlen;
    simpl in Hlen; try discriminate; [reflexivity|].
  cbn [app combine]. f_equal. apply IH. lia.
Qed.

Lemma map_fst_combine_eq {A B} (xs : list A) : forall (ys : list B),
  length xs = length ys -> map fst (combine xs ys) = xs.
Proof.
  induction xs as [|x xs IH]; intros [|y ys] Hlen; simpl in Hlen;
    try discriminate; [reflexivity|].
  cbn [combine map fst]. f_equal. apply IH. lia.
Qed.

Lemma map_snd_combine_eq {A B} (xs : list A) : forall (ys : list B),
  length xs = length ys -> map snd (combine xs ys) = ys.
Proof.
  induction xs as [|x xs IH]; intros [|y ys] Hlen; simpl in Hlen;
    try discriminate; [reflexivity|].
  cbn [combine map snd]. f_equal. apply IH. lia.
Qed.

Lemma in_perm_head {A} (x : A) l :
  In x l -> exists l', Permutation l (x :: l').
Proof.
  intros Hin. apply in_split in Hin. destruct Hin as (l1 & l2 & ->).
  exists (l1 ++ l2). symmetry. apply Permutation_middle.
Qed.

(** The cost of a pairing of weights with code lengths does not depend on
    the order of the pairs. *)
Lemma dot_pairs_perm (ps ps' : list ((char * Z) * nat)) :
  Permutation ps ps' ->
  dot (map (fun p => snd (fst p)) ps) (map snd ps)
  = dot (map (fun p => snd (fst p)) ps') (map snd ps').
Proof.
  induction 1 as [|p ps ps' _ IH|p q ps|ps ps' ps'' _ IH1 _ IH2].
  - reflexivity.
  - cbn [map]. rewrite !dot_cons, IH. reflexivity.
  - cbn [map]. rewrite !dot_cons. lia.
  - congruence.
Qed.

(** The code word that [_build_codebook] writes for a leaf is as long as the
    leaf is deep. *)
Lemma leaf_codes_depths n : forall code k w,
  In (k, w) (leaf_codes n code) ->
  exists fr,
    In ((k, fr), length w) (combine (leaves n) (depths n (length code))).
Proof.
  induction n as [ch fr l r IHl IHr] using HuffmanNode_ind.
  intros code k w Hin. destruct ch as [ch|].
  - cbn [leaf_codes] in Hin. destruct Hin as [E|[]]. inversion E; subst.
    exists fr. left. reflexivity.
  - cbn [leaf_codes] in Hin. cbn [leaves depths].
    rewrite combine_app_eq
      by (destruct l as [l|]; [symmetry; apply length_depths|reflexivity]).
    apply in_app_or in Hin. destruct Hin as [Hin|Hin].
    + destruct l as [l|]; [|destruct Hin].
      destruct (IHl l eq_refl _ _ _ Hin) as (fr' & Hfr).
      rewrite length_app in Hfr. cbn [length] in Hfr.
      rewrite Nat.add_1_r in Hfr.
      exists fr'. apply in_or_app. left. exact Hfr.
    + destruct r as [r|]; [|destruct Hin].
      destruct (IHr r eq_refl _ _ _ Hin) as (fr' & Hfr).
      rewrite length_app in Hfr. cbn [length] in Hfr.
      rewrite Nat.add_1_r in Hfr.
      exists fr'. apply in_or_app. right. exact Hfr.
Qed.

(** X19. The string that [encode] returns is as short as a code can make it:
    whatever code lengths [len] one gives to the characters of the text, if
    they satisfy the Kraft inequality (as the code words of every uniquely
    decodable code do), the text written with code words of these lengths
    takes at least as many bits as the string of [encode]. *)
Theorem encoded_stream_is_shortest self data (len : char -> nat) (D : nat) :
  (forall ch, In ch data -> (len ch <= D)%nat) ->
  kraft D (map len (distinct data)) <= 2 ^ Z.of_nat D ->
  exists bits frequency,
    fst (encode self data) = Ok (bits, frequency)
    /\ Z.of_nat (length bits) <= sum_over (fun ch => Z.of_nat (len ch)) data.
Proof.
  intros HD Hkraft. destruct data as [|c data].
  - exists [], []. split; [reflexivity|]. cbn. lia.
  - destruct (encode_length self c data) as (bits & Henc & Hlen).
    exists bits, (_build_frequency_table (c :: data)).
    split; [exact Henc|]. rewrite Hlen.
    destruct (build_frequency_table_spec (c :: data))
      as (_ & Hpos & Hkeys & Hsum).
    rewrite <- Hsum.
    fold (cost_with len (_build_frequency_table (c :: data))).
    rewrite cost_with_dot.
    pose proof (distinct_keys_perm (c :: data)) as Hperm.
    set (frequency := _build_frequency_table (c :: data)) in *.
    apply (build_huffman_tree_optimal D).
    + intros E. assert (Hin : In c (map fst frequency))
        by (apply Hkeys; now left).
      rewrite E in Hin. destruct Hin.
    + eapply List.Forall_impl; [|exact Hpos]. intros e He. cbv beta in He. lia.
    + reflexivity.
    + rewrite !length_map. reflexivity.
    + apply List.Forall_forall. intros l Hin. apply in_map_iff in Hin.
      destruct Hin as (e & <- & Hin). apply HD, Hkeys, in_map, Hin.
    + rewrite <- (map_map fst len).
      rewrite (kraft_perm _ _ _ (Permutation_map len Hperm)). exact Hkraft.
Qed.

Lemma encoded_stream_is_shortest_witness :
  exists bits frequency,
    fst (encode new_coder [97; 98; 114; 97; 99; 97]) = Ok (bits, frequency)
    /\ Z.of_nat (length bits)
       <= sum_over (fun _ => Z.of_nat 3) [97; 98; 114; 97; 99; 97].
Proof.
  apply (encoded_stream_is_shortest new_coder _ (fun _ => 3%nat) 3).
  - intros ch _. lia.
  - vm_compute. discriminate.
Defined.

(** X20. A symbol that is more frequent never gets a longer code word: in
    the codebook built for a table with distinct keys and frequencies that
    are not negative, if [b] has a larger frequency than [a], the code word
    of [b] is at most as long as the code word of [a]. *)
Theorem frequent_symbol_code_not_longer frequency a fa wa b fb wb :
  dict_wf frequency ->
  List.Forall (fun e => 0 <= snd e) frequency ->
  dict_get frequency a = Some fa -> dict_get frequency b = Some fb ->
  let coder :=
    _build_codebook (mkCoder [] (Some (_build_huffman_tree frequency))) in
  dict_get (_codebook coder) a = Some wa ->
  dict_get (_codebook coder) b = Some wb ->
  fa < fb -> (length wb <= length wa)%nat.
Proof.
  intros Hwf Hpos Ha Hb coder Hwa Hwb Hlt.
  assert (Hne : frequency <> []) by (intros ->; discriminate).
  destruct (build_codebook_of_table frequency Hwf Hne) as [Hcb _].
  cbv zeta in Hcb. subst coder. rewrite Hcb in Hwa, Hwb.
  cbn [_codebook] in Hwa, Hwb.
  pose proof (build_huffman_tree_leaves frequency Hne) as Hleaves.
  set (tree := _build_huffman_tree frequency) in *.
  apply dict_get_In in Hwa, Hwb.
  destruct (leaf_codes_depths tree [] a wa Hwa) as (fa' & Hpa).
  destruct (leaf_codes_depths tree [] b wb Hwb) as (fb' & Hpb).
  cbn [length] in Hpa, Hpb.
  assert (Hlen : length (leaves tree) = length (depths tree 0))
    by (symmetry; apply length_depths).
  assert (Efa : fa' = fa).
  { pose proof (in_combine_l _ _ _ _ Hpa) as Hin.
    apply (Permutation_in _ Hleaves) in Hin.
    apply (dict_get_In_wf _ _ _ Hwf) in Hin. congruence. }
  assert (Efb : fb' = fb).
  { pose proof (in_combine_l _ _ _ _ Hpb) as Hin.
    apply (Permutation_in _ Hleaves) in Hin.
    apply (dict_get_In_wf _ _ _ Hwf) in Hin. congruence. }
  subst fa' fb'.
  set (ps := combine (leaves tree) (depths tree 0)) in *.
  destruct (Nat.le_gt_cases (length wb) (length wa)) as [Hle|Hgt];
    [exact Hle|exfalso].
  destruct (in_perm_head _ _ Hpa) as (ps1 & Hps1).
  assert (Hpb1 : In (b, fb, length wb) ps1).
  { apply (Permutation_in _ Hps1) in Hpb. destruct Hpb as [E|Hin];
      [|exact Hin]. inversion E. lia. }
  destruct (in_perm_head _ _ Hpb1) as (rest & Hrest).
  assert (Hps : Permutation ps
                  ((a, fa, length wa) :: (b, fb, length wb) :: rest)).
  { etransitivity; [exact Hps1|]. apply perm_skip. exact Hrest. }
  assert (Hws : map (fun p => snd (fst p)) ps = map snd (leaves tree)).
  { transitivity (map snd (map fst ps)); [rewrite map_map; reflexivity|].
    unfold ps. rewrite map_fst_combine_eq by exact Hlen. reflexivity. }
  assert (Hls : map snd ps = depths tree 0)
    by (unfold ps; apply map_snd_combine_eq, Hlen).
  pose proof (cost_depths tree 0) as Hcost.
  rewrite <- Hws, <- Hls in Hcost.
  rewrite (dot_pairs_perm _ _ Hps) in Hcost.
  cbn [map fst snd] in Hcost. rewrite !dot_cons in Hcost.
  change (Z.of_nat 0) with 0 in Hcost. rewrite Z.mul_0_l in Hcost.
  set (ps' := (a, fa, length wb) :: (b, fb, length wa) :: rest).
  assert (Hperm_ls : Permutation (depths tree 0) (map snd ps')).
  { rewrite <- Hls. etransitivity; [exact (Permutation_map snd Hps)|].
    unfold ps'. cbn [map snd]. apply perm_swap. }
  assert (Hopt : cost tree
                 <= dot (map (fun p => snd (fst p)) ps') (map snd ps')).
  { apply (build_huffman_tree_optimal (height tree)).
    - exact Hne.
    - exact Hpos.
    - transitivity (map snd (leaves tree));
        [|apply Permutation_map, Hleaves].
      rewrite <- Hws. symmetry.
      exact (Permutation_map (fun p => snd (fst p)) Hps).
    - rewrite !length_map. reflexivity.
    - apply (Permutation_Forall Hperm_ls).
      eapply List.Forall_impl; [|apply (depths_le tree 0)].
      intros l Hl. cbv beta in Hl. lia.
    - rewrite <- (kraft_perm _ _ _ Hperm_ls).
      pose proof (kraft_depths (height tree) tree 0 ltac:(lia)) as Hk.
      rewrite Nat.sub_0_r in Hk. exact Hk. }
  unfold ps' in Hopt. cbn [map fst snd] in Hopt. rewrite !dot_cons in Hopt.
  assert (0 < (fb - fa) * (Z.of_nat (length wb) - Z.of_nat (length wa)))
    by (apply Z.mul_pos_pos; lia).
  lia.
Qed.

Lemma frequent_symbol_code_not_longer_witness :
  Nat.le (length [c1]) (length [c0; c1; c0]).
Proof.
  apply (frequent_symbol_code_not_longer
           [(97, 5); (98, 2); (99, 1); (100, 1)] 99 1 [c0; c1; c0] 97 5 [c1]).
  - unfold dict_wf. simpl.
    repeat (apply List.NoDup_cons; [simpl; intuition lia|]).
    apply List.NoDup_nil.
  - repeat (apply List.Forall_cons; [simpl; lia|]). apply List.Forall_nil.
  - reflexivity.
  - reflexivity.
  - reflexivity.
  - reflexivity.
  - lia.
Defined.
